(** * Whirlpools SDK: add-liquidity quotes and the split router

    A shallow embedding of
    - [sdk/src/quotes/public/increase-liquidity-quote.ts] (module [Liquidity]),
    - the split router around [findBestRoutes] (module [Router]),
    together with the properties of both that the specification states.

    Conventions.  A [BN]/[u64] value is an unbounded integer ([Z]); [mul] and
    [add] are exact and [div] truncates towards zero ([Z.quot]).  A JavaScript
    [number] holding a tick, a percent or an index is a [Z] or a [nat].  A
    [PublicKey] or an address is its base58 [string].  A function that may
    [throw] returns a [result]. *)

From Stdlib Require Import ZArith Lia List Bool Permutation Sorted.
From stdpp Require Import gmap strings list fin_maps.

Local Open Scope Z_scope.

(** ** Exceptions and results *)

Inductive error : Type :=
| TypeError                    (* property access on [undefined] *)
| RangeError                   (* [Array(n)] with an invalid length *)
| InvariantFailed (msg : string)   (* [invariant(cond, msg)] *)
| Thrown (msg : string)            (* [throw new Error(msg)] *)
| ArithmeticOverflow           (* raised by the fixed-point math *)
| DivideByZero
| InsufficientTickArrays
| ZeroLiquidity
| FetchFailed                  (* a rejected fetcher promise *)
| Diverged.                    (* a loop that never ends *)

Inductive result (A : Type) : Type :=
| Ok (a : A)
| Err (e : error).
Arguments Ok {A} a.
Arguments Err {A} e.

Global Instance result_ret : MRet result := fun A a => Ok a.
Global Instance result_bind : MBind result := fun A B f r =>
  match r with Ok a => f a | Err e => Err e end.

(** [invariant(cond, msg)] of tiny-invariant. *)
Definition invariant (cond : bool) (msg : string) : result unit :=
  if cond then Ok tt else Err (InvariantFailed msg).

(** [Percentage] of common-sdk: a fraction [numerator / denominator]. *)
Record Percentage : Type := { numerator : Z; denominator : Z }.

Definition fromFraction (n d : Z) : Percentage :=
  {| numerator := n; denominator := d |}.

(** ** Add-liquidity quotes *)

Module Liquidity.

Inductive PositionStatus : Type := BelowRange | InRange | AboveRange.

(** The helpers of [utils/position-util] and [utils/public] that the quote
    file imports.  Their code is not part of the quote file; the quote
    functions are parametric in them.  The liquidity/token conversions divide
    and so may throw.  The conversion of a tick to a price, the slippage
    bound of a price, the classification and the slippage adjustment are
    taken as functions that return a value: the properties below are about
    quotes that are returned, or about parameters that pass the checks of
    the entry points by input token.  How a quote by liquidity fails on
    ticks, prices or slippages that nothing has checked is outside the
    model. *)
Class PositionMath : Type := {
  tickIndexToSqrtPriceX64 : Z -> Z;
  getLiquidityFromTokenA : Z -> Z -> Z -> bool -> result Z;
  getLiquidityFromTokenB : Z -> Z -> Z -> bool -> result Z;
  getTokenAFromLiquidity : Z -> Z -> Z -> bool -> result Z;
  getTokenBFromLiquidity : Z -> Z -> Z -> bool -> result Z;
  (* lowerBound: [sqrtPrice, tick], upperBound: [sqrtPrice, tick] *)
  getSlippageBoundForSqrtPrice : Z -> Percentage -> (Z * Z) * (Z * Z);
  getStrictPositionStatus : Z -> Z -> Z -> PositionStatus;
  adjustForSlippage : Z -> Percentage -> bool -> Z
}.

(** Modelled from the spec: [MAX_TICK], declared outside the quote file
    (section 3, TickIndex: a symmetric range, +-443636). *)
Definition MAX_TICK_INDEX : Z := 443636.

(** Modelled from the spec: [MIN_TICK], declared outside the quote file
    (section 3, TickIndex). *)
Definition MIN_TICK_INDEX : Z := -443636.

(** Modelled from the spec: [TickUtil.checkTickInBounds], whose code is
    outside the quote file (section 3: a tick index lies in
    [[MIN_TICK, MAX_TICK]]). *)
Definition checkTickInBounds (tick : Z) : bool :=
  (tick <=? MAX_TICK_INDEX) && (MIN_TICK_INDEX <=? tick).

Definition ZERO : Z := 0.

Record IncreaseLiquidityQuoteParam : Type := {
  inputTokenAmount : Z;
  inputTokenMint : string;
  tokenMintA : string;
  tokenMintB : string;
  tickCurrentIndex : Z;
  sqrtPrice : Z;
  tickLowerIndex : Z;
  tickUpperIndex : Z;
  slippage : Percentage
}.

Record IncreaseLiquidityQuoteByLiquidityParam : Type := {
  liquidity : Z;
  l_tickCurrentIndex : Z;
  l_sqrtPrice : Z;
  l_tickLowerIndex : Z;
  l_tickUpperIndex : Z;
  l_slippage : Percentage
}.

Record IncreaseLiquidityEstimate : Type := {
  e_liquidityAmount : Z;
  e_tokenEstA : Z;
  e_tokenEstB : Z
}.

Record IncreaseLiquidityQuote : Type := {
  tokenMaxA : Z;
  tokenMaxB : Z;
  liquidityAmount : Z;
  tokenEstA : Z;
  tokenEstB : Z
}.

Definition zeroQuote : IncreaseLiquidityQuote :=
  {| tokenMaxA := ZERO; tokenMaxB := ZERO; liquidityAmount := ZERO;
     tokenEstA := ZERO; tokenEstB := ZERO |}.

(** [BN.max(left, right)]: [left.cmp(right) > 0 ? left : right]. *)
Definition BN_max (left right : Z) : Z :=
  if left >? right then left else right.

Section Quotes.
Context {PM : PositionMath}.

(** *** Quote by input token, price slippage *)

Definition getLiquidityFromInputToken (params : IncreaseLiquidityQuoteParam)
  : result Z :=
  if inputTokenAmount params =? ZERO then Ok ZERO else
  let isTokenA := String.eqb (tokenMintA params) (inputTokenMint params) in
  let sqrtPriceLowerX64 := tickIndexToSqrtPriceX64 (tickLowerIndex params) in
  let sqrtPriceUpperX64 := tickIndexToSqrtPriceX64 (tickUpperIndex params) in
  if tickCurrentIndex params <? tickLowerIndex params then
    if isTokenA
    then getLiquidityFromTokenA (inputTokenAmount params)
           sqrtPriceLowerX64 sqrtPriceUpperX64 false
    else Ok ZERO
  else if tickCurrentIndex params >? tickUpperIndex params then
    if isTokenA
    then Ok ZERO
    else getLiquidityFromTokenB (inputTokenAmount params)
           sqrtPriceLowerX64 sqrtPriceUpperX64 false
  else
    if isTokenA
    then getLiquidityFromTokenA (inputTokenAmount params)
           (sqrtPrice params) sqrtPriceUpperX64 false
    else getLiquidityFromTokenB (inputTokenAmount params)
           sqrtPriceLowerX64 (sqrtPrice params) false.

(** *** Quote by liquidity *)

Definition getTokenEstimatesFromLiquidity
  (params : IncreaseLiquidityQuoteByLiquidityParam) : result (Z * Z) :=
  if liquidity params =? ZERO
  then Err (Thrown "liquidity must be greater than 0") else
  let lowerSqrtPrice := tickIndexToSqrtPriceX64 (l_tickLowerIndex params) in
  let upperSqrtPrice := tickIndexToSqrtPriceX64 (l_tickUpperIndex params) in
  if l_tickCurrentIndex params <? l_tickLowerIndex params then
    a ← getTokenAFromLiquidity (liquidity params)
           (l_sqrtPrice params) upperSqrtPrice true;
    Ok (a, ZERO)
  else if l_tickCurrentIndex params <? l_tickUpperIndex params then
    a ← getTokenAFromLiquidity (liquidity params)
           (l_sqrtPrice params) upperSqrtPrice true;
    b ← getTokenBFromLiquidity (liquidity params)
           lowerSqrtPrice (l_sqrtPrice params) true;
    Ok (a, b)
  else
    b ← getTokenBFromLiquidity (liquidity params)
           lowerSqrtPrice upperSqrtPrice true;
    Ok (ZERO, b).

(** [{ ...params, sqrtPrice: p, tickCurrentIndex: t }] *)
Definition withPrice (params : IncreaseLiquidityQuoteByLiquidityParam)
  (p t : Z) : IncreaseLiquidityQuoteByLiquidityParam :=
  {| liquidity := liquidity params;
     l_tickCurrentIndex := t;
     l_sqrtPrice := p;
     l_tickLowerIndex := l_tickLowerIndex params;
     l_tickUpperIndex := l_tickUpperIndex params;
     l_slippage := l_slippage params |}.

Definition increaseLiquidityQuoteByLiquidityWithParams
  (params : IncreaseLiquidityQuoteByLiquidityParam)
  : result IncreaseLiquidityQuote :=
  if liquidity params =? ZERO then Ok zeroQuote else
  '(tokenEstA, tokenEstB) ← getTokenEstimatesFromLiquidity params;
  let '((sLowerSqrtPrice, sLowerIndex), (sUpperSqrtPrice, sUpperIndex)) :=
    getSlippageBoundForSqrtPrice (l_sqrtPrice params) (l_slippage params) in
  '(tokenEstALower, tokenEstBLower) ← getTokenEstimatesFromLiquidity
      (withPrice params sLowerSqrtPrice sLowerIndex);
  '(tokenEstAUpper, tokenEstBUpper) ← getTokenEstimatesFromLiquidity
      (withPrice params sUpperSqrtPrice sUpperIndex);
  let tokenMaxA := BN_max (BN_max tokenEstA tokenEstALower) tokenEstAUpper in
  let tokenMaxB := BN_max (BN_max tokenEstB tokenEstBLower) tokenEstBUpper in
  Ok {| tokenMaxA := tokenMaxA; tokenMaxB := tokenMaxB;
        tokenEstA := tokenEstA; tokenEstB := tokenEstB;
        liquidityAmount := liquidity params |}.

(** The three [invariant] calls that open both by-input-token entry points. *)
Definition checkParam (param : IncreaseLiquidityQuoteParam) : result unit :=
  _ ← invariant (checkTickInBounds (tickLowerIndex param))
         "tickLowerIndex is out of bounds.";
  _ ← invariant (checkTickInBounds (tickUpperIndex param))
         "tickUpperIndex is out of bounds.";
  invariant
    (String.eqb (inputTokenMint param) (tokenMintA param)
     || String.eqb (inputTokenMint param) (tokenMintB param))
    "input token mint does not match any tokens in the provided pool.".

Definition increaseLiquidityQuoteByInputTokenWithParams_PriceSlippage
  (param : IncreaseLiquidityQuoteParam) : result IncreaseLiquidityQuote :=
  _ ← checkParam param;
  liquidity ← getLiquidityFromInputToken param;
  if liquidity =? ZERO then Ok zeroQuote else
  increaseLiquidityQuoteByLiquidityWithParams
    {| liquidity := liquidity;
       l_tickCurrentIndex := tickCurrentIndex param;
       l_sqrtPrice := sqrtPrice param;
       l_tickLowerIndex := tickLowerIndex param;
       l_tickUpperIndex := tickUpperIndex param;
       l_slippage := slippage param |}.

(** *** Deprecated: quote by input token, token-percentage slippage *)

Definition zeroEstimate : IncreaseLiquidityEstimate :=
  {| e_tokenEstA := ZERO; e_tokenEstB := ZERO; e_liquidityAmount := ZERO |}.

Definition getQuotePositionBelowRange (param : IncreaseLiquidityQuoteParam)
  : result IncreaseLiquidityEstimate :=
  if negb (String.eqb (tokenMintA param) (inputTokenMint param))
  then Ok zeroEstimate else
  let sqrtPriceLowerX64 := tickIndexToSqrtPriceX64 (tickLowerIndex param) in
  let sqrtPriceUpperX64 := tickIndexToSqrtPriceX64 (tickUpperIndex param) in
  liquidityAmount ← getLiquidityFromTokenA (inputTokenAmount param)
                       sqrtPriceLowerX64 sqrtPriceUpperX64 false;
  tokenEstA ← getTokenAFromLiquidity liquidityAmount
                 sqrtPriceLowerX64 sqrtPriceUpperX64 true;
  Ok {| e_tokenEstA := tokenEstA; e_tokenEstB := ZERO;
        e_liquidityAmount := liquidityAmount |}.

Definition getQuotePositionAboveRange (param : IncreaseLiquidityQuoteParam)
  : result IncreaseLiquidityEstimate :=
  if negb (String.eqb (tokenMintB param) (inputTokenMint param))
  then Ok zeroEstimate else
  let sqrtPriceLowerX64 := tickIndexToSqrtPriceX64 (tickLowerIndex param) in
  let sqrtPriceUpperX64 := tickIndexToSqrtPriceX64 (tickUpperIndex param) in
  liquidityAmount ← getLiquidityFromTokenB (inputTokenAmount param)
                       sqrtPriceLowerX64 sqrtPriceUpperX64 false;
  tokenEstB ← getTokenBFromLiquidity liquidityAmount
                 sqrtPriceLowerX64 sqrtPriceUpperX64 true;
  Ok {| e_tokenEstA := ZERO; e_tokenEstB := tokenEstB;
        e_liquidityAmount := liquidityAmount |}.

(** [tokenEstA]/[tokenEstB] start as [inputTokenAmount]/[undefined] or the
    reverse; a [BN] object is always truthy, so [if (tokenEstA)] tests which
    of the two was given.  Both branches finish with the same two estimates. *)
Definition getQuotePositionInRange (param : IncreaseLiquidityQuoteParam)
  : result IncreaseLiquidityEstimate :=
  let sqrtPriceX64 := sqrtPrice param in
  let sqrtPriceLowerX64 := tickIndexToSqrtPriceX64 (tickLowerIndex param) in
  let sqrtPriceUpperX64 := tickIndexToSqrtPriceX64 (tickUpperIndex param) in
  liquidityAmount ←
    (if String.eqb (tokenMintA param) (inputTokenMint param)
     then getLiquidityFromTokenA (inputTokenAmount param)
            sqrtPriceX64 sqrtPriceUpperX64 false
     else getLiquidityFromTokenB (inputTokenAmount param)
            sqrtPriceLowerX64 sqrtPriceX64 false);
  tokenEstA ← getTokenAFromLiquidity liquidityAmount
                 sqrtPriceX64 sqrtPriceUpperX64 true;
  tokenEstB ← getTokenBFromLiquidity liquidityAmount
                 sqrtPriceLowerX64 sqrtPriceX64 true;
  Ok {| e_tokenEstA := tokenEstA; e_tokenEstB := tokenEstB;
        e_liquidityAmount := liquidityAmount |}.

(** [{ tokenMaxA, tokenMaxB, ...quote }] *)
Definition withMax (maxA maxB : Z) (quote : IncreaseLiquidityEstimate)
  : IncreaseLiquidityQuote :=
  {| tokenMaxA := maxA; tokenMaxB := maxB;
     liquidityAmount := e_liquidityAmount quote;
     tokenEstA := e_tokenEstA quote; tokenEstB := e_tokenEstB quote |}.

Definition quotePositionBelowRange (param : IncreaseLiquidityQuoteParam)
  : result IncreaseLiquidityQuote :=
  quote ← getQuotePositionBelowRange param;
  Ok (withMax (adjustForSlippage (e_tokenEstA quote) (slippage param) true)
              ZERO quote).

Definition quotePositionInRange (param : IncreaseLiquidityQuoteParam)
  : result IncreaseLiquidityQuote :=
  quote ← getQuotePositionInRange param;
  let tokenMaxA := adjustForSlippage (e_tokenEstA quote) (slippage param) true in
  let tokenMaxB := adjustForSlippage (e_tokenEstB quote) (slippage param) true in
  Ok (withMax tokenMaxA tokenMaxB quote).

Definition quotePositionAboveRange (param : IncreaseLiquidityQuoteParam)
  : result IncreaseLiquidityQuote :=
  quote ← getQuotePositionAboveRange param;
  let tokenMaxB := adjustForSlippage (e_tokenEstB quote) (slippage param) true in
  Ok (withMax ZERO tokenMaxB quote).

Definition increaseLiquidityQuoteByInputTokenWithParams
  (param : IncreaseLiquidityQuoteParam) : result IncreaseLiquidityQuote :=
  _ ← checkParam param;
  let positionStatus :=
    getStrictPositionStatus (sqrtPrice param)
      (tickLowerIndex param) (tickUpperIndex param) in
  match positionStatus with
  | BelowRange => quotePositionBelowRange param
  | InRange => quotePositionInRange param
  | AboveRange => quotePositionAboveRange param
  end.

End Quotes.
End Liquidity.

(** ** The split router *)

Module Router.

(** *** JavaScript values *)

(** Reading a property of [undefined] throws a [TypeError]. *)
Definition from_undefined {A} (o : option A) : result A :=
  match o with Some a => Ok a | None => Err TypeError end.

(** [a[i]] on a sparse array: a hole and an index out of range both read
    [undefined]. *)
Definition array_get {A} (a : list (option A)) (i : nat) : option A :=
  a !! i ≫= id.

(** [a[i] = x]: an index past the end extends the array with holes. *)
Definition array_set {A} (i : nat) (x : A) (a : list (option A))
  : list (option A) :=
  if decide (i < length a)%nat then <[i := Some x]> a
  else a ++ replicate (i - length a)%nat None ++ [Some x].

(** [Array(n)]: [n] holes. *)
Definition Array {A} (n : nat) : list (option A) := replicate n None.

(** [bn.cmp(other)] *)
Definition BN_cmp (a b : Z) : Z :=
  match a ?= b with Lt => -1 | Eq => 0 | Gt => 1 end.

(** [Array.prototype.sort(compareFn)]: a stable sort; [compareFn(a, b) <= 0]
    keeps [a] before [b]. *)
Fixpoint sort_insert {A} (compareFn : A -> A -> Z) (x : A) (l : list A)
  : list A :=
  match l with
  | [] => [x]
  | y :: l' =>
      if compareFn x y <=? 0 then x :: l else y :: sort_insert compareFn x l'
  end.

Definition js_sort {A} (compareFn : A -> A -> Z) (l : list A) : list A :=
  foldr (sort_insert compareFn) [] l.

(** [a.slice(0, n)]: a negative [n] counts from the end. *)
Definition slice0 {A} (n : Z) (a : list A) : list A :=
  if 0 <=? n then take (Z.to_nat n) a
  else take (length a - Z.to_nat (- n))%nat a.

(** [new Set(l)] then [Array.from]: first occurrences, in order. *)
Definition uniq (l : list string) : list string :=
  foldl (fun acc x => if bool_decide (x ∈ acc) then acc else acc ++ [x]) [] l.

(** A loop whose body may throw. *)
Fixpoint foldlM `{MBind M, MRet M} {A B} (f : A -> B -> M A) (a : A)
  (l : list B) : M A :=
  match l with
  | [] => mret a
  | x :: l' => a' ← f a x; foldlM f a' l'
  end.

(** *** Data *)

Record RoutingOptions : Type := {
  percentIncrement : Z;
  numTopRoutes : Z;
  numTopPartialQuotes : Z;
  maxSplits : Z
}.

Definition DEFAULT_ROUTING_OPTIONS : RoutingOptions :=
  {| percentIncrement := 20; numTopRoutes := 50;
     numTopPartialQuotes := 10; maxSplits := 3 |}.

(** [Partial<RoutingOptions>]: an absent field is [None]. *)
Record PartialRoutingOptions : Type := {
  o_percentIncrement : option Z;
  o_numTopRoutes : option Z;
  o_numTopPartialQuotes : option Z;
  o_maxSplits : option Z
}.

(** [{ ...DEFAULT_ROUTING_OPTIONS, ...userRoutingOptions }] *)
Definition mergeOptions (user : PartialRoutingOptions) : RoutingOptions :=
  {| percentIncrement :=
       default (percentIncrement DEFAULT_ROUTING_OPTIONS) (o_percentIncrement user);
     numTopRoutes :=
       default (numTopRoutes DEFAULT_ROUTING_OPTIONS) (o_numTopRoutes user);
     numTopPartialQuotes :=
       default (numTopPartialQuotes DEFAULT_ROUTING_OPTIONS)
               (o_numTopPartialQuotes user);
     maxSplits :=
       default (maxSplits DEFAULT_ROUTING_OPTIONS) (o_maxSplits user) |}.

(** The default value of the [userRoutingOptions] parameter. *)
Definition defaultUserOptions : PartialRoutingOptions :=
  {| o_percentIncrement := Some 20; o_numTopRoutes := Some 50;
     o_numTopPartialQuotes := Some 10; o_maxSplits := Some 3 |}.

Record TokenPairPool : Type := {
  address : string;
  tokenMintA : string;
  tokenMintB : string
}.

Record WhirlpoolData : Type := {
  w_tokenMintA : string;
  w_tokenMintB : string;
  tokenVaultA : string;
  tokenVaultB : string;
  tickCurrentIndex : Z;
  tickSpacing : Z
}.

Record SwapQuoteRequest : Type := {
  whirlpool : string;
  tradeTokenMint : string;
  r_tokenAmount : Z;
  r_amountSpecifiedIsInput : bool
}.

Record SwapQuoteParam : Type := {
  whirlpoolData : WhirlpoolData;
  tokenAmount : Z;
  aToB : bool;
  amountSpecifiedIsInput : bool;
  sqrtPriceLimit : Z;
  p_otherAmountThreshold : Z;
  tickArrays : list string
}.

(** The outcome of simulating one swap (section 4.D), before slippage. *)
Record SwapEstimate : Type := {
  s_estimatedAmountIn : Z;
  s_estimatedAmountOut : Z;
  s_estimatedFeeAmount : Z;
  s_estimatedEndSqrtPrice : Z;
  s_estimatedEndTickIndex : Z
}.

Record SwapQuote : Type := {
  estimatedAmountIn : Z;
  estimatedAmountOut : Z;
  estimatedFeeAmount : Z;
  estimatedEndSqrtPrice : Z;
  estimatedEndTickIndex : Z;
  otherAmountThreshold : Z
}.

Record Hop : Type := {
  h_percent : Z;
  amountIn : Z;
  amountOut : Z;
  h_whirlpool : string;
  inputMint : string;
  outputMint : string;
  mintA : string;
  mintB : string;
  vaultA : string;
  vaultB : string;
  quote : SwapQuote
}.

(** [Pick<RouteQuote, "route" | "percent" | "calculatedHops">]: an entry of
    the quote map while it is being filled. *)
Record PartialQuote : Type := {
  q_percent : Z;
  q_route : list string;
  q_calculatedHops : list (option Hop)
}.

Record RouteQuote : Type := {
  percent : Z;
  route : list string;
  r_amountIn : Z;
  r_amountOut : Z;
  calculatedHops : list (option Hop)
}.

Record SplitResult : Type := {
  quotes : list RouteQuote;
  s_percent : Z;
  totalIn : Z;
  totalOut : Z
}.

Record QuoteUpdate : Type := {
  u_percent : Z;
  routeIndex : nat;
  hopIndex : nat;
  quoteIndex : nat;
  u_address : string;
  request : SwapQuoteRequest
}.

(** *** Calls that leave the router *)

Inductive event : Type :=
| EvListPools (addresses : list string)
| EvListTickArrays (addresses : list string)
| EvBatchSwapQuote (requests : list SwapQuoteRequest)
| EvSwapQuote (param : option SwapQuoteParam) (slippage : Percentage).

(** A computation that may throw and that records the calls it makes. *)
Definition M (A : Type) : Type := list event -> result A * list event.

Global Instance M_ret : MRet M := fun A a t => (Ok a, t).
Global Instance M_bind : MBind M := fun A B f m t =>
  match m t with
  | (Ok a, t') => f a t'
  | (Err e, t') => (Err e, t')
  end.

Definition lift {A} (r : result A) : M A := fun t => (r, t).

(** Make the call [e]; [r] is what it returns or throws. *)
Definition call {A} (e : event) (r : result A) : M A :=
  fun t => (r, t ++ [e]).

(** [try { ... } catch (e) { ... }]: the outcome of the body as a value. *)
Definition try_catch {A} (m : M A) : M (result A) :=
  fun t => let '(r, t') := m t in (Ok r, t').

(** The collaborators of the router: the pool graph's route ids, the account
    fetcher, the batch that turns requests into swap parameters, the swap
    simulator, the ranker and its comparator.  The router is parametric in
    them. *)
Class Collaborators : Type := {
  getRouteId : string -> string -> string;
  listPools : list string -> result (list (option WhirlpoolData));
  listTickArrays : list string -> result unit;
  getTickArrayPublicKeys : Z -> Z -> bool -> string -> string -> list string;
  batchSwapQuoteByToken :
    list SwapQuoteRequest -> string -> result (list SwapQuoteParam);
  simulateSwap : SwapQuoteParam -> result SwapEstimate;
  getRankedRouteSets :
    gmap Z (list RouteQuote) -> bool -> Z -> Z -> list SplitResult;
  getRouteSetCompare : bool -> SplitResult -> SplitResult -> Z
}.

(** Modelled from the spec: [otherAmountThreshold] of [swapQuoteWithParams],
    whose code is outside the router (section 4.D, Output):
    [floor(estimatedAmountOut * (1 - s))] when the amount is the input,
    [ceil(estimatedAmountIn * (1 + s))] when it is the output, for the
    slippage [s = numerator / denominator]. *)
Definition slippageThreshold (est : SwapEstimate) (isInput : bool)
  (s : Percentage) : Z :=
  if isInput
  then (s_estimatedAmountOut est * (denominator s - numerator s))
         / denominator s
  else - ((- (s_estimatedAmountIn est * (denominator s + numerator s)))
            / denominator s).

Section Routing.
Context {C : Collaborators}.

(** Modelled from the spec: [swapQuoteWithParams], whose code is outside the
    router: the simulated swap with its slippage-adjusted threshold. *)
Definition swapQuoteWithParams (param : SwapQuoteParam) (s : Percentage)
  : result SwapQuote :=
  est ← simulateSwap param;
  Ok {| estimatedAmountIn := s_estimatedAmountIn est;
        estimatedAmountOut := s_estimatedAmountOut est;
        estimatedFeeAmount := s_estimatedFeeAmount est;
        estimatedEndSqrtPrice := s_estimatedEndSqrtPrice est;
        estimatedEndTickIndex := s_estimatedEndTickIndex est;
        otherAmountThreshold :=
          slippageThreshold est (amountSpecifiedIsInput param) s |}.

(** [prefetchRoutes]: warm the fetcher's cache with every pool of every route
    and with the tick arrays around each pool's current tick. *)
Definition prefetchRoutes (pairRoutes : list (list string))
  (programId : string) : M unit :=
  let ps := uniq (concat pairRoutes) in
  allWps ← call (EvListPools ps) (listPools ps);
  tickArrayAddresses ← lift (foldlM (fun tickArrayAddresses i =>
    match allWps !! i ≫= id with
    | None => Ok tickArrayAddresses          (* wp == null: continue *)
    | Some wp =>
        pool ← from_undefined (ps !! i);
        let addr1 := getTickArrayPublicKeys (tickCurrentIndex wp)
                       (tickSpacing wp) true programId pool in
        let addr2 := getTickArrayPublicKeys (tickCurrentIndex wp)
                       (tickSpacing wp) false programId pool in
        Ok (tickArrayAddresses ++ uniq (addr1 ++ addr2))
    end) [] (seq 0 (length allWps)));
  call (EvListTickArrays tickArrayAddresses)
       (listTickArrays tickArrayAddresses).

(** The loop test [i <= 100 / minPercent].  The division is the one of
    JavaScript numbers: for a positive integer [minPercent] the test is
    [i * minPercent <= 100]; [100 / 0] is [Infinity]; a negative
    [minPercent] reverses the comparison. *)
Definition le_quotient (i minPercent : Z) : bool :=
  if 0 <? minPercent then i * minPercent <=? 100
  else if minPercent =? 0 then true
  else 100 <=? i * minPercent.

(** The [for] loop of [generatePercentageAmounts], with a bound on the number
    of times the test is evaluated; [None] when the bound is reached. *)
Fixpoint generatePercentageAmounts_loop (fuel : nat)
  (inputAmount minPercent i : Z) (percents amounts : list Z)
  : option (list Z * list Z) :=
  match fuel with
  | O => None
  | S fuel' =>
      if le_quotient i minPercent then
        generatePercentageAmounts_loop fuel' inputAmount minPercent (i + 1)
          (percents ++ [i * minPercent])
          (amounts ++ [Z.quot (inputAmount * (i * minPercent)) 100])
      else Some (percents, amounts)
  end.

(** [generatePercentageAmounts].  A positive [minPercent] makes the test fail
    after at most 100 rounds, so 101 evaluations of the test are enough; with
    [minPercent = 0] the loop never ends, whatever the bound
    ([generatePercentageAmounts_loop_zero]). *)
Definition generatePercentageAmounts (inputAmount minPercent : Z)
  : option (list Z * list Z) :=
  generatePercentageAmounts_loop 101 inputAmount minPercent 1 [] [].

(** Body of the inner loop of [buildQuoteUpdateRequests]: route [routeIndex]
    at [percent]. *)
Definition buildQuoteUpdateRequests_route
  (inputTokenMint outputTokenMint : string)
  (pools : gmap string TokenPairPool) (pairRoutes : list (list string))
  (hop : nat) (isInput : bool) (percent tradeAmount : Z)
  (st : list QuoteUpdate * gmap Z (list (option PartialQuote)))
  (routeIndex : nat)
  : result (list QuoteUpdate * gmap Z (list (option PartialQuote))) :=
  let '(quoteUpdates, quoteMap) := st in
  route ← from_undefined (pairRoutes !! routeIndex);
  if (if isInput then Z.of_nat (length route) <=? Z.of_nat hop
      else Z.of_nat hop >? Z.of_nat (length route) - 1)
  then Ok (quoteUpdates, quoteMap) else
  let startingRouteEval :=
    if isInput then Z.of_nat hop =? 0
    else Z.of_nat hop =? Z.of_nat (length route) - 1 in
  quotes ← from_undefined (quoteMap !! percent);
  let quotes :=
    if startingRouteEval
    then array_set routeIndex
           {| q_percent := percent; q_route := route;
              q_calculatedHops := Array (length route) |} quotes
    else quotes in
  let quoteMap := <[percent := quotes]> quoteMap in
  let currentQuote := array_get quotes routeIndex in
  initialPool ← from_undefined (route !! 0%nat ≫= fun a => pools !! a);
  let orderedRoute :=
    if negb (String.eqb (tokenMintA initialPool) inputTokenMint)
       && negb (String.eqb (tokenMintB initialPool) inputTokenMint)
    then reverse route else route in
  let pool := orderedRoute !! hop ≫= fun a => pools !! a in
  currentQuote ← from_undefined currentQuote;
  let lastHop :=
    if isInput
    then match hop with
         | O => None
         | S h => array_get (q_calculatedHops currentQuote) h
         end
    else array_get (q_calculatedHops currentQuote) (S hop) in
  match startingRouteEval, lastHop with
  | false, None => Ok (quoteUpdates, quoteMap)
  | _, _ =>
      '(tokenAmount, tradeToken) ←
        (if isInput then
           if startingRouteEval then Ok (tradeAmount, inputTokenMint)
           else lastHop ← from_undefined lastHop;
                Ok (amountOut lastHop, outputMint lastHop)
         else
           if startingRouteEval then Ok (tradeAmount, outputTokenMint)
           else lastHop ← from_undefined lastHop;
                Ok (amountIn lastHop, inputMint lastHop));
      pool ← from_undefined pool;
      Ok (quoteUpdates ++
            [{| u_percent := percent;
                routeIndex := routeIndex;
                hopIndex := hop;
                quoteIndex := length quoteUpdates;
                u_address := address pool;
                request :=
                  {| whirlpool := address pool;
                     tradeTokenMint := tradeToken;
                     r_tokenAmount := tokenAmount;
                     r_amountSpecifiedIsInput := isInput |} |}],
          quoteMap)
  end.

(** Body of the outer loop: one percent with its trade amount. *)
Definition buildQuoteUpdateRequests_percent
  (inputTokenMint outputTokenMint : string)
  (pools : gmap string TokenPairPool) (pairRoutes : list (list string))
  (hop : nat) (isInput : bool)
  (st : list QuoteUpdate * gmap Z (list (option PartialQuote)))
  (pa : Z * Z)
  : result (list QuoteUpdate * gmap Z (list (option PartialQuote))) :=
  let '(quoteUpdates, quoteMap) := st in
  let '(percent, tradeAmount) := pa in
  let quoteMap :=
    match quoteMap !! percent with
    | None => <[percent := Array (length pairRoutes)]> quoteMap
    | Some _ => quoteMap
    end in
  foldlM (buildQuoteUpdateRequests_route inputTokenMint outputTokenMint pools
            pairRoutes hop isInput percent tradeAmount)
         (quoteUpdates, quoteMap) (seq 0 (length pairRoutes)).

(** [buildQuoteUpdateRequests]: the requests of one hop, and the quote map
    with the entries of the routes that start at this hop initialised.
    [percents] and [amounts] always have the same length
    ([generatePercentageAmounts_length]); the loop walks them together. *)
Definition buildQuoteUpdateRequests
  (inputTokenMint outputTokenMint : string)
  (pools : gmap string TokenPairPool) (pairRoutes : list (list string))
  (percents amounts : list Z) (hop : nat) (isInput : bool)
  (quoteMap : gmap Z (list (option PartialQuote)))
  : result (list QuoteUpdate * gmap Z (list (option PartialQuote))) :=
  foldlM (buildQuoteUpdateRequests_percent inputTokenMint outputTokenMint
            pools pairRoutes hop isInput)
         ([], quoteMap) (zip percents amounts).

(** The slippage every hop is quoted with: [Percentage.fromFraction(0, 1000)]. *)
Definition hopSlippage : Percentage := fromFraction 0 1000.

(** The hop object that [updateQuoteMap] stores. *)
Definition makeHop (update : QuoteUpdate) (swapParam : SwapQuoteParam)
  (quote : SwapQuote) : Hop :=
  let w := whirlpoolData swapParam in
  let '(mintA, mintB, vaultA, vaultB) :=
    (w_tokenMintA w, w_tokenMintB w, tokenVaultA w, tokenVaultB w) in
  let '(inputMint, outputMint) :=
    if aToB swapParam then (mintA, mintB) else (mintB, mintA) in
  {| h_percent := u_percent update;
     amountIn := if amountSpecifiedIsInput swapParam
                 then tokenAmount swapParam else otherAmountThreshold quote;
     amountOut := if amountSpecifiedIsInput swapParam
                  then otherAmountThreshold quote else tokenAmount swapParam;
     h_whirlpool := u_address update;
     inputMint := inputMint;
     outputMint := outputMint;
     mintA := mintA;
     mintB := mintB;
     vaultA := vaultA;
     vaultB := vaultB;
     quote := quote |}.

(** Body of the loop of [updateQuoteMap].  Everything after the two lookups
    is inside [try]: a quote that throws, a missing parameter or a missing
    entry leaves the map as it is. *)
Definition updateQuoteMap_update
  (quoteParams : list SwapQuoteParam)
  (quoteMap : gmap Z (list (option PartialQuote))) (update : QuoteUpdate)
  : M (gmap Z (list (option PartialQuote))) :=
  let swapParam := quoteParams !! quoteIndex update in
  quotes ← lift (from_undefined (quoteMap !! u_percent update));
  let route := array_get quotes (routeIndex update) in
  r ← try_catch (
    quote ← call (EvSwapQuote swapParam hopSlippage)
              (swapParam ← from_undefined swapParam;
               swapQuoteWithParams swapParam hopSlippage);
    swapParam ← lift (from_undefined swapParam);
    route ← lift (from_undefined route);
    mret (<[u_percent update :=
              <[routeIndex update :=
                  Some {| q_percent := q_percent route;
                          q_route := q_route route;
                          q_calculatedHops :=
                            array_set (hopIndex update)
                              (makeHop update swapParam quote)
                              (q_calculatedHops route) |}]> quotes]>
            quoteMap));
  match r with
  | Ok quoteMap' => mret quoteMap'
  | Err _ => mret quoteMap               (* catch (e) { continue; } *)
  end.

Definition updateQuoteMap (quoteUpdates : list QuoteUpdate)
  (quoteParams : list SwapQuoteParam)
  (quoteMap : gmap Z (list (option PartialQuote)))
  : M (gmap Z (list (option PartialQuote))) :=
  foldlM (updateQuoteMap_update quoteParams) quoteMap quoteUpdates.

(** Body of the inner loop of [cleanQuoteMap].  Destructuring a hole of
    [uncleanedQuotes] throws; [flatMap] drops the holes of [calculatedHops];
    the index [calculatedHops.length - 1] of an empty array reads
    [undefined]. *)
Definition cleanQuoteMap_quote (tradeAmount : Z) (isInput : bool)
  (percent : Z) (cleaned : list RouteQuote) (uncleaned : option PartialQuote)
  : result (list RouteQuote) :=
  uncleaned ← from_undefined uncleaned;
  let route := q_route uncleaned in
  let calculatedHops := q_calculatedHops uncleaned in
  let filteredCalculatedHops := omap id calculatedHops in
  if (length filteredCalculatedHops =? length route)%nat then
    otherAmount ←
      (if isInput
       then h ← from_undefined (last calculatedHops ≫= id); Ok (amountOut h)
       else h ← from_undefined (array_get calculatedHops 0); Ok (amountIn h));
    Ok (cleaned ++
          [{| percent := percent;
              route := route;
              r_amountIn := if isInput then tradeAmount else otherAmount;
              r_amountOut := if isInput then otherAmount else tradeAmount;
              calculatedHops := calculatedHops |}])
  else Ok cleaned.

(** [cleanQuoteMap].  The keys are visited in the order of [map_to_list];
    the resulting map does not depend on that order, and every error of the
    body is the same [TypeError]. *)
Definition cleanQuoteMap (tradeAmount : Z) (isInput : bool)
  (quoteMap : gmap Z (list (option PartialQuote)))
  : result (gmap Z (list RouteQuote)) :=
  foldlM (fun (cleanedQuoteMap : gmap Z (list RouteQuote)) pu =>
            let '(percent, uncleanedQuotes) := pu in
            cleaned ← foldlM (cleanQuoteMap_quote tradeAmount isInput percent)
                        [] uncleanedQuotes;
            Ok (<[percent := cleaned]> cleanedQuoteMap))
         ∅ (map_to_list quoteMap).

Definition pruneSortFn (isInput : bool) (a b : RouteQuote) : Z :=
  if isInput then BN_cmp (r_amountOut b) (r_amountOut a)
  else BN_cmp (r_amountIn a) (r_amountIn b).

Definition pruneQuoteMap (quoteMap : gmap Z (list RouteQuote)) (pruneN : Z)
  (isInput : bool) : gmap Z (list RouteQuote) :=
  (fun quotes => slice0 pruneN (js_sort (pruneSortFn isInput) quotes))
    <$> quoteMap.

Definition getSingleHopSplit (quoteMap : gmap Z (list RouteQuote))
  : result (list SplitResult) :=
  match quoteMap !! 100 with
  | Some fullFlow =>
      mapM (fun f =>
              h ← from_undefined (array_get (calculatedHops f) 0);
              Ok {| quotes := [f]; s_percent := 100;
                    totalIn := amountIn h; totalOut := amountOut h |})
           (List.filter (fun f => (length (calculatedHops f) =? 1)%nat)
                        fullFlow)
  | None => Ok []
  end.

(** One round of the quoting loop of [findBestRoutes]: build the requests of
    [hop], resolve them in one batch, store the quotes. *)
Definition quoteHop (inputTokenMint outputTokenMint : string)
  (pools : gmap string TokenPairPool) (pairRoutes : list (list string))
  (percents amounts : list Z) (isInput : bool) (programId : string)
  (quoteMap : gmap Z (list (option PartialQuote))) (hop : nat)
  : M (gmap Z (list (option PartialQuote))) :=
  '(quoteUpdates, quoteMap) ←
     lift (buildQuoteUpdateRequests inputTokenMint outputTokenMint pools
             pairRoutes percents amounts hop isInput quoteMap);
  let requests := request <$> quoteUpdates in
  quoteParams ← call (EvBatchSwapQuote requests)
                     (batchSwapQuoteByToken requests programId);
  updateQuoteMap quoteUpdates quoteParams quoteMap.

(** [Array.from(Array(maxRouteLength).keys())], reversed when the amount is
    the output.  [Math.max()] of no route is [-Infinity], for which [Array]
    throws. *)
Definition hopIteration (pairRoutes : list (list string)) (isInput : bool)
  : result (list nat) :=
  match pairRoutes with
  | [] => Err RangeError
  | _ =>
      let maxRouteLength := max_list (length <$> pairRoutes) in
      let iteration := seq 0 maxRouteLength in
      Ok (if isInput then iteration else reverse iteration)
  end.

(** The first part of [findBestRoutes] after the early return: prefetch,
    split the amount, quote hop after hop, clean. *)
Definition quoteRoutes (inputTokenMint outputTokenMint : string)
  (tradeAmount : Z) (isInput : bool) (pairRoutes : list (list string))
  (pools : gmap string TokenPairPool) (programId : string)
  (routingOptions : RoutingOptions) : M (gmap Z (list RouteQuote)) :=
  _ ← prefetchRoutes pairRoutes programId;
  '(percents, amounts) ←
     lift (match generatePercentageAmounts tradeAmount
                   (percentIncrement routingOptions) with
           | Some pa => Ok pa
           | None => Err Diverged
           end);
  iteration ← lift (hopIteration pairRoutes isInput);
  quoteMap ← foldlM (quoteHop inputTokenMint outputTokenMint pools pairRoutes
                       percents amounts isInput programId)
                    (∅ : gmap Z (list (option PartialQuote))) iteration;
  lift (cleanQuoteMap tradeAmount isInput quoteMap).

(** The second part: baselines, pruning, ranking, the final sort. *)
Definition rankRoutes (isInput : bool) (routingOptions : RoutingOptions)
  (cleanedQuoteMap : gmap Z (list RouteQuote)) : result (list SplitResult) :=
  singleHopSingleSplit ← getSingleHopSplit cleanedQuoteMap;
  let prunedQuoteMap :=
    pruneQuoteMap cleanedQuoteMap (numTopPartialQuotes routingOptions)
                  isInput in
  Ok (js_sort (getRouteSetCompare isInput)
        (getRankedRouteSets prunedQuoteMap isInput
           (numTopRoutes routingOptions) (maxSplits routingOptions)
         ++ singleHopSingleSplit)).

Definition findBestRoutes (inputTokenMint outputTokenMint : string)
  (tradeAmount : Z) (isInput : bool)
  (walks : gmap string (list (list string)))
  (pools : gmap string TokenPairPool) (programId : string)
  (userRoutingOptions : PartialRoutingOptions) : M (list SplitResult) :=
  match walks !! getRouteId inputTokenMint outputTokenMint with
  | None => mret []
  | Some pairRoutes =>
      if tradeAmount =? 0 then mret [] else
      let routingOptions := mergeOptions userRoutingOptions in
      cleanedQuoteMap ← quoteRoutes inputTokenMint outputTokenMint tradeAmount
                          isInput pairRoutes pools programId routingOptions;
      lift (rankRoutes isInput routingOptions cleanedQuoteMap)
  end.

End Routing.
End Router.

(** ** A sample market

    Three pools over three tokens, a fetcher that finds all of them, a batch
    that carries each request's amount over to its swap parameter, and a
    swap simulator with a flat price of [99/100].  The parametric theorems
    below are instantiated on it. *)

Module Sample.
Import Router.

Definition poolTable : list (string * WhirlpoolData) :=
  [ ("P1", {| w_tokenMintA := "SOL"; w_tokenMintB := "USDC";
              tokenVaultA := "P1/a"; tokenVaultB := "P1/b";
              tickCurrentIndex := 0; tickSpacing := 64 |});
    ("P2", {| w_tokenMintA := "ORCA"; w_tokenMintB := "SOL";
              tokenVaultA := "P2/a"; tokenVaultB := "P2/b";
              tickCurrentIndex := 128; tickSpacing := 64 |});
    ("P3", {| w_tokenMintA := "ORCA"; w_tokenMintB := "USDC";
              tokenVaultA := "P3/a"; tokenVaultB := "P3/b";
              tickCurrentIndex := -64; tickSpacing := 8 |}) ].

Definition fetchPool (a : string) : option WhirlpoolData :=
  snd <$> List.find (fun kv => String.eqb (fst kv) a) poolTable.

Definition pools : gmap string TokenPairPool :=
  list_to_map
    ((fun kv => (fst kv, {| address := fst kv;
                            tokenMintA := w_tokenMintA (snd kv);
                            tokenMintB := w_tokenMintB (snd kv) |}))
       <$> poolTable).

Definition routeId (a b : string) : string := a +:+ "/" +:+ b.

Definition walks : gmap string (list (list string)) :=
  {[ routeId "SOL" "USDC" := [ ["P1"]; ["P2"; "P3"] ] ]}.

(** What the batch makes of a pool that the fetcher does not know. *)
Definition unknownPool : WhirlpoolData :=
  {| w_tokenMintA := ""; w_tokenMintB := "";
     tokenVaultA := ""; tokenVaultB := "";
     tickCurrentIndex := 0; tickSpacing := 1 |}.

(** The parameter of a request: the request's amount and direction flag; the
    trade token is the input of an input-specified swap and the output of
    an output-specified one. *)
Definition toParam (req : SwapQuoteRequest) : SwapQuoteParam :=
  let w := default unknownPool (fetchPool (whirlpool req)) in
  {| whirlpoolData := w;
     tokenAmount := r_tokenAmount req;
     aToB := Bool.eqb (String.eqb (tradeTokenMint req) (w_tokenMintA w))
                      (r_amountSpecifiedIsInput req);
     amountSpecifiedIsInput := r_amountSpecifiedIsInput req;
     sqrtPriceLimit := 0;
     p_otherAmountThreshold := 0;
     tickArrays := [] |}.

(** One parameter per request, in request order. *)
Definition batch (requests : list SwapQuoteRequest) (programId : string)
  : result (list SwapQuoteParam) :=
  Ok (toParam <$> requests).

(** Output [99/100] of the input, rounded down; input [100/99] of the
    output, rounded up.  Pool [P3] has no liquidity for amounts above 600. *)
Definition flatSwap (param : SwapQuoteParam) : result SwapEstimate :=
  let amount := tokenAmount param in
  if String.eqb (tokenVaultA (whirlpoolData param)) "P3/a" && (600 <? amount)
  then Err ZeroLiquidity else
  let '(i, o) :=
    if amountSpecifiedIsInput param then (amount, amount * 99 / 100)
    else (- ((- (amount * 100)) / 99), amount) in
  Ok {| s_estimatedAmountIn := i; s_estimatedAmountOut := o;
        s_estimatedFeeAmount := 0; s_estimatedEndSqrtPrice := 0;
        s_estimatedEndTickIndex := 0 |}.

(** A swap simulator on which every swap overflows. *)
Definition overflowingSwap (param : SwapQuoteParam) : result SwapEstimate :=
  Err ArithmeticOverflow.

(** The one-route sets of the 100% quotes. *)
Definition singles (quoteMap : gmap Z (list RouteQuote)) (isInput : bool)
  (topN maxSplits : Z) : list SplitResult :=
  (fun q => {| quotes := [q]; s_percent := percent q;
               totalIn := r_amountIn q; totalOut := r_amountOut q |})
    <$> default [] (quoteMap !! 100).

(** Best objective first: the largest [totalOut] when the amount is the
    input, the smallest [totalIn] when it is the output. *)
Definition byObjective (isInput : bool) (a b : SplitResult) : Z :=
  if isInput then BN_cmp (totalOut b) (totalOut a)
  else BN_cmp (totalIn a) (totalIn b).

Definition market (swap : SwapQuoteParam -> result SwapEstimate)
  : Collaborators :=
  {| getRouteId := routeId;
     listPools := fun addresses => Ok (fetchPool <$> addresses);
     listTickArrays := fun _ => Ok tt;
     getTickArrayPublicKeys := fun tick spacing aToB programId pool =>
       [pool +:+ "/ta0"; pool +:+ "/ta1"; pool +:+ "/ta2"];
     batchSwapQuoteByToken := batch;
     simulateSwap := swap;
     getRankedRouteSets := singles;
     getRouteSetCompare := byObjective |}.

Definition options (p : Z) : PartialRoutingOptions :=
  {| o_percentIncrement := Some p; o_numTopRoutes := None;
     o_numTopPartialQuotes := None; o_maxSplits := None |}.

(** The same, with every partial quote pruned away. *)
Definition optionsPruneAll (p : Z) : PartialRoutingOptions :=
  {| o_percentIncrement := Some p; o_numTopRoutes := None;
     o_numTopPartialQuotes := Some 0; o_maxSplits := None |}.

End Sample.

(** ** A sample position math

    The token/liquidity conversions follow the formulas of section 4.A of the
    specification and throw on a zero divisor; the price curve is linearised
    around tick 0, where it is exact ([2^64]).  The parametric theorems on
    the liquidity quotes are instantiated on it. *)

Module SampleMath.
Import Liquidity.

Definition Q64 : Z := 2 ^ 64.

Definition divRound (roundUp : bool) (n d : Z) : result Z :=
  if d =? 0 then Err DivideByZero
  else Ok (if roundUp then - ((- n) / d) else n / d).

Definition linearSqrtPrice (tick : Z) : Z := Q64 * (20000 + tick) / 20000.

Definition liquidityFromA (amount lo hi : Z) (roundUp : bool) : result Z :=
  divRound roundUp (amount * lo * hi) ((hi - lo) * Q64).

Definition liquidityFromB (amount lo hi : Z) (roundUp : bool) : result Z :=
  divRound roundUp (amount * Q64) (hi - lo).

Definition tokenAFromLiquidity (L p0 p1 : Z) (roundUp : bool) : result Z :=
  let '(lo, hi) := if p0 <? p1 then (p0, p1) else (p1, p0) in
  divRound roundUp (L * (hi - lo) * Q64) (hi * lo).

Definition tokenBFromLiquidity (L p0 p1 : Z) (roundUp : bool) : result Z :=
  let '(lo, hi) := if p0 <? p1 then (p0, p1) else (p1, p0) in
  divRound roundUp (L * (hi - lo)) Q64.

Definition linearTick (p : Z) : Z := p * 20000 / Q64 - 20000.

Definition slippageBound (p : Z) (s : Percentage) : (Z * Z) * (Z * Z) :=
  let d := 2 * denominator s in
  let lo := p * (d - numerator s) / d in
  let hi := p * (d + numerator s) / d in
  ((lo, linearTick lo), (hi, linearTick hi)).

Definition strictStatus (p tickLower tickUpper : Z) : PositionStatus :=
  if p <=? linearSqrtPrice tickLower then BelowRange
  else if linearSqrtPrice tickUpper <=? p then AboveRange
  else InRange.

Definition adjust (n : Z) (s : Percentage) (adjustUp : bool) : Z :=
  if adjustUp then n * (denominator s + numerator s) / denominator s
  else n * denominator s / (denominator s + numerator s).

Definition math : PositionMath :=
  {| tickIndexToSqrtPriceX64 := linearSqrtPrice;
     getLiquidityFromTokenA := liquidityFromA;
     getLiquidityFromTokenB := liquidityFromB;
     getTokenAFromLiquidity := tokenAFromLiquidity;
     getTokenBFromLiquidity := tokenBFromLiquidity;
     getSlippageBoundForSqrtPrice := slippageBound;
     getStrictPositionStatus := strictStatus;
     adjustForSlippage := adjust |}.

(** A position over ticks [-64, 64] in a pool of mints ["A"] and ["B"]. *)
Definition param (input : string) (amount tickCurrent price : Z)
  : IncreaseLiquidityQuoteParam :=
  {| inputTokenAmount := amount; inputTokenMint := input;
     tokenMintA := "A"; tokenMintB := "B";
     tickCurrentIndex := tickCurrent; sqrtPrice := price;
     tickLowerIndex := -64; tickUpperIndex := 64;
     slippage := fromFraction 1 100 |}.

Definition byLiquidity (L tickCurrent price : Z)
  : IncreaseLiquidityQuoteByLiquidityParam :=
  {| liquidity := L; l_tickCurrentIndex := tickCurrent; l_sqrtPrice := price;
     l_tickLowerIndex := -64; l_tickUpperIndex := 64;
     l_slippage := fromFraction 1 100 |}.

End SampleMath.

(** ** Sample values of the router's data

    The routes of the pair SOL/USDC on the sample market, the updates and
    quote maps that a trade of 1000 SOL in steps of 50% goes through, and
    two markets on which a collaborator fails. *)

Module SampleRun.
Import Router Sample.

Definition pairRoutes : list (list string) := [ ["P1"]; ["P2"; "P3"] ].

(** Route [P1] at 50%, its only hop: 500 SOL. *)
Definition update0 : QuoteUpdate :=
  {| u_percent := 50; routeIndex := 0; hopIndex := 0; quoteIndex := 0;
     u_address := "P1";
     request := {| whirlpool := "P1"; tradeTokenMint := "SOL";
                   r_tokenAmount := 500;
                   r_amountSpecifiedIsInput := true |} |}.

(** Route [P2; P3] at 50%, its second hop: the 495 ORCA that the first hop
    gave. *)
Definition update1 : QuoteUpdate :=
  {| u_percent := 50; routeIndex := 1; hopIndex := 1; quoteIndex := 0;
     u_address := "P3";
     request := {| whirlpool := "P3"; tradeTokenMint := "ORCA";
                   r_tokenAmount := 495;
                   r_amountSpecifiedIsInput := true |} |}.

(** An update at a percent that the quote maps of the run do not have. *)
Definition update70 : QuoteUpdate :=
  {| u_percent := 70; routeIndex := 0; hopIndex := 0; quoteIndex := 1;
     u_address := "P1";
     request := {| whirlpool := "P1"; tradeTokenMint := "SOL";
                   r_tokenAmount := 700;
                   r_amountSpecifiedIsInput := true |} |}.

(** The entry of route [P1] at 50% before its hop is quoted. *)
Definition entry0 : PartialQuote :=
  {| q_percent := 50; q_route := ["P1"]; q_calculatedHops := Array 1 |}.

(** A quote map in which route [P1] has started at 50% and route [P2; P3]
    has not. *)
Definition started : gmap Z (list (option PartialQuote)) :=
  {[ 50 := [Some entry0; None] ]}.

(** The same without the slot of route [P2; P3]. *)
Definition startedAlone : gmap Z (list (option PartialQuote)) :=
  {[ 50 := [Some entry0] ]}.

(** The quote map after the first round of quoting. *)
Definition afterFirstHop : gmap Z (list (option PartialQuote)) :=
  match (@quoteHop (market flatSwap) "SOL" "USDC" pools pairRoutes
           [50; 100] [500; 1000] true "prog" ∅ 0%nat []).1 with
  | Ok quoteMap => quoteMap
  | Err _ => ∅
  end.

(** The cleaned quote map of the whole trade. *)
Definition cleaned : gmap Z (list RouteQuote) :=
  match (@quoteRoutes (market flatSwap) "SOL" "USDC" 1000 true pairRoutes
           pools "prog" (mergeOptions (options 50)) []).1 with
  | Ok cleanedQuoteMap => cleanedQuoteMap
  | Err _ => ∅
  end.

(** The sample market with a fetcher that is out of reach. *)
Definition offline : Collaborators :=
  {| getRouteId := routeId;
     listPools := fun _ => Err FetchFailed;
     listTickArrays := fun _ => Err FetchFailed;
     getTickArrayPublicKeys := fun tick spacing aToB programId pool => [];
     batchSwapQuoteByToken := batch;
     simulateSwap := flatSwap;
     getRankedRouteSets := singles;
     getRouteSetCompare := byObjective |}.

(** The sample market with a batch that fails. *)
Definition batchDown : Collaborators :=
  {| getRouteId := routeId;
     listPools := fun addresses => Ok (fetchPool <$> addresses);
     listTickArrays := fun _ => Ok tt;
     getTickArrayPublicKeys := fun tick spacing aToB programId pool => [];
     batchSwapQuoteByToken := fun _ _ => Err FetchFailed;
     simulateSwap := flatSwap;
     getRankedRouteSets := singles;
     getRouteSetCompare := byObjective |}.

(** Walks that know the pair SOL/USDC and have no route for it. *)
Definition noRoutes : gmap string (list (list string)) :=
  {[ routeId "SOL" "USDC" := [] ]}.

End SampleRun.

(** ** Specification vocabulary

    The predicates in which the properties below are stated. *)

Module LiquiditySpec.
Import Liquidity.

(** The parameters pass the three [invariant] checks. *)
Definition valid (param : IncreaseLiquidityQuoteParam) : Prop :=
  checkTickInBounds (tickLowerIndex param) = true /\
  checkTickInBounds (tickUpperIndex param) = true /\
  (inputTokenMint param = tokenMintA param \/
   inputTokenMint param = tokenMintB param).

End LiquiditySpec.

Module RouterSpec.
Import Router.

(** Every call made by [m] satisfies [Q], whatever the outcome of [m]. *)
Definition emits {A} (Q : event -> Prop) (m : M A) : Prop :=
  forall t, exists evs, (m t).2 = t ++ evs /\ Forall Q evs.

(** A swap quote, if the call is one, is asked with a slippage of [0/1000]. *)
Definition zeroSlippage (e : event) : Prop :=
  match e with
  | EvSwapQuote _ s => s = fromFraction 0 1000
  | _ => True
  end.

(** The routes are not empty and the pools map knows every pool of every
    route. *)
Definition routes_ok (pools : gmap string TokenPairPool)
  (pairRoutes : list (list string)) : Prop :=
  pairRoutes <> [] /\
  forall route, route ∈ pairRoutes ->
    route <> [] /\ forall a, a ∈ route -> is_Some (pools !! a).

(** The fetcher answers: one slot per address asked. *)
Definition fetcher_ok `{Collaborators} : Prop :=
  (forall addresses, exists wps,
      listPools addresses = Ok wps /\ length wps = length addresses) /\
  (forall addresses, listTickArrays addresses = Ok tt).

(** The batch answers. *)
Definition batch_ok `{Collaborators} (programId : string) : Prop :=
  forall requests, exists params,
    batchSwapQuoteByToken requests programId = Ok params.

(** The batch hands each request's direction flag over to the parameter at
    the same index. *)
Definition batch_keeps_flag `{Collaborators} (programId : string) : Prop :=
  forall requests params k r sp,
    batchSwapQuoteByToken requests programId = Ok params ->
    requests !! k = Some r -> params !! k = Some sp ->
    amountSpecifiedIsInput sp = r_amountSpecifiedIsInput r.

(** The hop at which the quoting of a route starts. *)
Definition start_hop (isInput : bool) (route : list string) : nat :=
  if isInput then 0%nat else (length route - 1)%nat.

Section Invariants.
Context (pairRoutes : list (list string)) (isInput : bool) (P : Hop -> Prop).

(** The entry [e] at index [i] of the array of [percent]. *)
Definition entry_ok (percent : Z) (i : nat) (e : PartialQuote) : Prop :=
  pairRoutes !! i = Some (q_route e) /\
  q_percent e = percent /\
  length (q_calculatedHops e) = length (q_route e) /\
  forall k h, q_calculatedHops e !! k = Some (Some h) -> P h.

(** The array of [percent]: one slot per route. *)
Definition arr_ok (percent : Z) (arr : list (option PartialQuote)) : Prop :=
  length arr = length pairRoutes /\
  forall i e, arr !! i = Some (Some e) -> entry_ok percent i e.

(** The quote map: every array of it is well formed. *)
Definition qm_ok (qm : gmap Z (list (option PartialQuote))) : Prop :=
  forall percent arr, qm !! percent = Some arr -> arr_ok percent arr.

(** The routes whose starting hop is in [S] have their entry. *)
Definition started_arr (S : nat -> Prop) (arr : list (option PartialQuote))
  : Prop :=
  forall i route, pairRoutes !! i = Some route -> route <> [] ->
    S (start_hop isInput route) -> is_Some (array_get arr i).

(** [qm'] has the keys of [qm] and at least its entries. *)
Definition same_shape (qm qm' : gmap Z (list (option PartialQuote))) : Prop :=
  forall percent,
    match qm !! percent with
    | None => qm' !! percent = None
    | Some arr =>
        exists arr', qm' !! percent = Some arr' /\
          forall i, is_Some (array_get arr i) -> is_Some (array_get arr' i)
    end.

(** The routes that reach [hop] without starting there started at a hop of
    [S]. *)
Definition ready (S : nat -> Prop) (hop : nat) : Prop :=
  forall route, route ∈ pairRoutes -> (hop < length route)%nat ->
    hop <> start_hop isInput route -> S (start_hop isInput route).

(** An update built at [hop]: it names a percent of the run and a route that
    reaches [hop], and asks in the direction of the trade. *)
Definition update_ok (percents : list Z) (hop : nat) (u : QuoteUpdate)
  : Prop :=
  hopIndex u = hop /\ u_percent u ∈ percents /\
  r_amountSpecifiedIsInput (request u) = isInput /\
  exists route, pairRoutes !! routeIndex u = Some route /\
                (hop < length route)%nat.

(** The updates built at [hop]: each knows its index in the list. *)
Definition updates_ok (percents : list Z) (hop : nat)
  (us : list QuoteUpdate) : Prop :=
  forall k u, us !! k = Some u -> quoteIndex u = k /\ update_ok percents hop u.

(** The quote map once the hops of [S] have been quoted. *)
Definition Inv (percents : list Z) (S : nat -> Prop)
  (qm : gmap Z (list (option PartialQuote))) : Prop :=
  qm_ok qm /\
  (forall percent, is_Some (qm !! percent) -> percent ∈ percents) /\
  (forall percent arr, qm !! percent = Some arr -> started_arr S arr) /\
  ((exists h, S h) -> forall percent, percent ∈ percents ->
     is_Some (qm !! percent)).

End Invariants.

(** What [cleanQuoteMap] makes of a finished entry. *)
Definition cleaned_from (tradeAmount : Z) (isInput : bool) (percent : Z)
  (e : PartialQuote) (f : RouteQuote) : Prop :=
  Router.percent f = percent /\ route f = q_route e /\
  calculatedHops f = q_calculatedHops e /\
  length (omap id (q_calculatedHops e)) = length (q_route e) /\
  if isInput
  then r_amountIn f = tradeAmount /\
       exists h, last (q_calculatedHops e) = Some (Some h) /\
                 r_amountOut f = amountOut h
  else r_amountOut f = tradeAmount /\
       exists h, array_get (q_calculatedHops e) 0 = Some h /\
                 r_amountIn f = amountIn h.

(** [a] is at least as good as [b] for the objective: no smaller output
    when the amount is the input, no larger input when it is the output. *)
Definition better_or_equal (isInput : bool) (a b : SplitResult) : Prop :=
  if isInput then totalOut b <= totalOut a else totalIn a <= totalIn b.

(** The comparator of the ranker is total and refines the objective. *)
Definition compare_ok `{Collaborators} (isInput : bool) : Prop :=
  (forall a b, getRouteSetCompare isInput a b <= 0 \/
               getRouteSetCompare isInput b a <= 0) /\
  (forall a b, getRouteSetCompare isInput a b <= 0 ->
               better_or_equal isInput a b).

(** The hop records the threshold of a quote asked with no slippage, which
    is the estimate. *)
Definition hop_quoted `{Collaborators} (isInput : bool) (h : Hop) : Prop :=
  (exists sp, swapQuoteWithParams sp (fromFraction 0 1000) = Ok (quote h)) /\
  if isInput
  then amountOut h = otherAmountThreshold (quote h) /\
       otherAmountThreshold (quote h) = estimatedAmountOut (quote h)
  else amountIn h = otherAmountThreshold (quote h) /\
       otherAmountThreshold (quote h) = estimatedAmountIn (quote h).

(** The inputs with which [findBestRoutes] can run to its end: the routes of
    the pair are not empty and go through known pools, the fetcher and the
    batch answer, and the percent increment is positive. *)
Definition inputs_ok `{Collaborators} (inputTokenMint outputTokenMint : string)
  (walks : gmap string (list (list string)))
  (pools : gmap string TokenPairPool) (programId : string)
  (options : PartialRoutingOptions) : Prop :=
  (forall pairRoutes,
     walks !! getRouteId inputTokenMint outputTokenMint = Some pairRoutes ->
     routes_ok pools pairRoutes) /\
  fetcher_ok /\ batch_ok programId /\
  0 < percentIncrement (mergeOptions options).

(** Some swap quote of the trace overflowed. *)
Definition overflowOccurred `{Collaborators} (t : list event) : Prop :=
  exists sp s, EvSwapQuote (Some sp) s ∈ t /\
               swapQuoteWithParams sp s = Err ArithmeticOverflow.

(** The policy of section 7 of the specification on a run of
    [findBestRoutes]: an error is raised only after an overflow, and it is
    raised when the result set is empty after an overflow. *)
Definition errorPolicy `{Collaborators}
  (run : result (list SplitResult) * list event) : Prop :=
  match run.1 with
  | Err _ => overflowOccurred run.2
  | Ok splits => ~ (splits = [] /\ overflowOccurred run.2)
  end.

End RouterSpec.

(** * Properties *)

(** ** Results *)

Lemma bind_Ok {A B} (a : A) (f : A -> result B) : (Ok a ≫= f) = f a.
Proof. reflexivity. Qed.

Lemma bind_Ok_inv {A B} (r : result A) (f : A -> result B) (b : B) :
  r ≫= f = Ok b -> exists a, r = Ok a /\ f a = Ok b.
Proof. destruct r as [a|e]; [eauto | discriminate]. Qed.

Lemma invariant_Ok c msg : invariant c msg = Ok tt <-> c = true.
Proof. unfold invariant. destruct c; split; congruence. Qed.

(** ** Add-liquidity quotes *)

Module LiquidityProps.
Import Liquidity LiquiditySpec.

Lemma BN_max_max a b : BN_max a b = Z.max a b.
Proof. unfold BN_max. destruct (Z.gtb_spec a b); lia. Qed.

Section Props.
Context {PM : PositionMath}.

Lemma checkParam_valid param : valid param -> checkParam param = Ok tt.
Proof.
  intros (Hl & Hu & Hm). unfold checkParam. rewrite Hl, Hu. simpl.
  apply invariant_Ok. apply orb_true_iff.
  destruct Hm as [->| ->]; rewrite String.eqb_refl; auto.
Qed.

(** The estimates at tick [tickCurrent] and price [price], all else as in
    [params]. *)
Lemma estimates_above params :
  liquidity params <> 0 ->
  l_tickLowerIndex params <= l_tickCurrentIndex params ->
  l_tickUpperIndex params <= l_tickCurrentIndex params ->
  getTokenEstimatesFromLiquidity params =
    (b ← getTokenBFromLiquidity (liquidity params)
           (tickIndexToSqrtPriceX64 (l_tickLowerIndex params))
           (tickIndexToSqrtPriceX64 (l_tickUpperIndex params)) true;
     Ok (ZERO, b)).
Proof.
  intros HL Hlo Hup. unfold getTokenEstimatesFromLiquidity, ZERO.
  destruct (Z.eqb_spec (liquidity params) 0); [contradiction|].
  destruct (Z.ltb_spec (l_tickCurrentIndex params) (l_tickLowerIndex params));
    [lia|].
  destruct (Z.ltb_spec (l_tickCurrentIndex params) (l_tickUpperIndex params));
    [lia|reflexivity].
Qed.

(** C3.  The specification classifies a position as above range from the
    upper tick on; [getLiquidityFromInputToken] does so only past it.  With
    the current tick ON the upper tick it does not take its above-range
    branch: it applies the in-range formulas, from the current price, so
    that token A is not answered with zero liquidity and token B is not
    quoted over the full range.  [getTokenEstimatesFromLiquidity], on the
    same ticks, does classify the position above range (token B over the
    full range, no token A). *)
Theorem C3_upper_tick_is_quoted_in_range (param : IncreaseLiquidityQuoteParam)
  (L : Z) :
  tickCurrentIndex param = tickUpperIndex param ->
  tickLowerIndex param < tickUpperIndex param ->
  inputTokenAmount param <> 0 ->
  L <> 0 ->
  getLiquidityFromInputToken param =
    (if String.eqb (tokenMintA param) (inputTokenMint param)
     then getLiquidityFromTokenA (inputTokenAmount param) (sqrtPrice param)
            (tickIndexToSqrtPriceX64 (tickUpperIndex param)) false
     else getLiquidityFromTokenB (inputTokenAmount param)
            (tickIndexToSqrtPriceX64 (tickLowerIndex param))
            (sqrtPrice param) false)
  /\ getTokenEstimatesFromLiquidity
       {| liquidity := L;
          l_tickCurrentIndex := tickCurrentIndex param;
          l_sqrtPrice := sqrtPrice param;
          l_tickLowerIndex := tickLowerIndex param;
          l_tickUpperIndex := tickUpperIndex param;
          l_slippage := slippage param |} =
       (b ← getTokenBFromLiquidity L
              (tickIndexToSqrtPriceX64 (tickLowerIndex param))
              (tickIndexToSqrtPriceX64 (tickUpperIndex param)) true;
        Ok (0, b)).
Proof.
  intros Hcur Hrange Hamt HL. split.
  - unfold getLiquidityFromInputToken, ZERO.
    destruct (Z.eqb_spec (inputTokenAmount param) 0); [contradiction|].
    destruct (Z.ltb_spec (tickCurrentIndex param) (tickLowerIndex param));
      [lia|].
    destruct (Z.gtb_spec (tickCurrentIndex param) (tickUpperIndex param));
      [lia|reflexivity].
  - rewrite estimates_above; simpl; [reflexivity | assumption | lia | lia].
Qed.


(** C5.  For parameters that pass the checks, a zero input amount or a
    computed liquidity of zero gives the all-zero quote, and so does a zero
    liquidity passed to the quote by liquidity; neither call throws. *)
Theorem C5_zero_input_or_liquidity_quotes_zero
  (param : IncreaseLiquidityQuoteParam)
  (params : IncreaseLiquidityQuoteByLiquidityParam) :
  valid param ->
  inputTokenAmount param = 0 \/ getLiquidityFromInputToken param = Ok 0 ->
  liquidity params = 0 ->
  increaseLiquidityQuoteByInputTokenWithParams_PriceSlippage param
    = Ok zeroQuote
  /\ increaseLiquidityQuoteByLiquidityWithParams params = Ok zeroQuote.
Proof.
  intros Hv Hzero HL. split.
  - unfold increaseLiquidityQuoteByInputTokenWithParams_PriceSlippage.
    rewrite (checkParam_valid _ Hv), bind_Ok.
    assert (getLiquidityFromInputToken param = Ok 0) as ->.
    { destruct Hzero as [Hz|Hz]; [|exact Hz].
      unfold getLiquidityFromInputToken, ZERO. rewrite Hz. reflexivity. }
    reflexivity.
  - unfold increaseLiquidityQuoteByLiquidityWithParams, ZERO.
    rewrite HL. reflexivity.
Qed.

(** C7.  In the deprecated quote by input token, a position below range
    with token B as input, or above range with token A as input, is quoted
    with zero liquidity and zero estimates of both tokens (the two mints of
    a pool differ). *)
Theorem C7_legacy_wrong_side_quotes_zero (param : IncreaseLiquidityQuoteParam) :
  valid param ->
  tokenMintA param <> tokenMintB param ->
  (getStrictPositionStatus (sqrtPrice param) (tickLowerIndex param)
     (tickUpperIndex param) = BelowRange
   /\ inputTokenMint param = tokenMintB param)
  \/ (getStrictPositionStatus (sqrtPrice param) (tickLowerIndex param)
        (tickUpperIndex param) = AboveRange
      /\ inputTokenMint param = tokenMintA param) ->
  exists q,
    increaseLiquidityQuoteByInputTokenWithParams param = Ok q /\
    liquidityAmount q = 0 /\ tokenEstA q = 0 /\ tokenEstB q = 0.
Proof.
  intros Hv Hne Hside.
  unfold increaseLiquidityQuoteByInputTokenWithParams.
  rewrite (checkParam_valid _ Hv), bind_Ok.
  destruct Hside as [[-> Hin]|[-> Hin]].
  - unfold quotePositionBelowRange, getQuotePositionBelowRange.
    rewrite Hin. destruct (String.eqb_spec (tokenMintA param) (tokenMintB param));
      [contradiction|]. simpl. eexists. split; [reflexivity|]. auto.
  - unfold quotePositionAboveRange, getQuotePositionAboveRange.
    rewrite Hin. destruct (String.eqb_spec (tokenMintB param) (tokenMintA param));
      [congruence|]. simpl. eexists. split; [reflexivity|]. auto.
Qed.

End Props.

(** *** The theorems at concrete inputs *)

Import SampleMath.

(** Token A, 1000 units, current tick 64 = upper tick, price a little above
    the price of tick 64: the liquidity is not zero (here it is negative). *)
Lemma C3_upper_tick_sample :
  @getLiquidityFromInputToken math
     (param "A" 1000 64 (linearSqrtPrice 64 + 1000))
    = Ok (-18564992130440608536)
  /\ @getTokenEstimatesFromLiquidity math
       (byLiquidity 1000000 64 (linearSqrtPrice 64 + 1000)) = Ok (0, 6401).
Proof.
  destruct (@C3_upper_tick_is_quoted_in_range math
              (param "A" 1000 64 (linearSqrtPrice 64 + 1000)) 1000000)
    as [H1 H2]; [reflexivity | simpl; lia | simpl; lia | lia |].
  split; [rewrite H1 | etransitivity; [exact H2|]]; vm_compute; reflexivity.
Defined.


Lemma C5_sample :
  @increaseLiquidityQuoteByInputTokenWithParams_PriceSlippage math
     (param "A" 0 0 Q64) = Ok zeroQuote
  /\ @increaseLiquidityQuoteByLiquidityWithParams math (byLiquidity 0 0 Q64)
     = Ok zeroQuote.
Proof.
  apply (@C5_zero_input_or_liquidity_quotes_zero math).
  - repeat split; auto.
  - left. reflexivity.
  - reflexivity.
Defined.

Lemma C7_sample :
  exists q,
    @increaseLiquidityQuoteByInputTokenWithParams math
       (param "B" 1000 (-100) (linearSqrtPrice (-100))) = Ok q /\
    liquidityAmount q = 0 /\ tokenEstA q = 0 /\ tokenEstB q = 0.
Proof.
  apply (@C7_legacy_wrong_side_quotes_zero math).
  - repeat split; auto.
  - discriminate.
  - left. split; reflexivity.
Defined.

End LiquidityProps.

(** ** The split router *)

Module RouterProps.
Import Router RouterSpec.

(** *** Percentage amounts *)

Lemma le_quotient_pos i p :
  0 < p -> le_quotient i p = (i <=? 100 / p).
Proof.
  intros Hp. unfold le_quotient.
  destruct (Z.ltb_spec 0 p); [|lia].
  destruct (Z.leb_spec (i * p) 100), (Z.leb_spec i (100 / p)); try reflexivity.
  - exfalso. assert (i <= 100 / p); [|lia].
    apply Z.div_le_lower_bound; lia.
  - exfalso. assert (p * i <= 100); [|lia].
    etransitivity; [|apply (Z.mul_div_le 100 p); lia].
    apply Z.mul_le_mono_nonneg_l; lia.
Qed.

(** With [minPercent = 0] the loop uses up any bound. *)
Lemma generatePercentageAmounts_loop_zero fuel T i ps amts :
  generatePercentageAmounts_loop fuel T 0 i ps amts = None.
Proof.
  revert i ps amts. induction fuel as [|fuel IH]; intros; simpl; auto.
Qed.

Lemma generatePercentageAmounts_loop_spec fuel T p n i ps amts :
  (forall j, le_quotient j p = (j <=? n)) ->
  1 <= i <= n + 1 ->
  (Z.to_nat (n + 1 - i) < fuel)%nat ->
  generatePercentageAmounts_loop fuel T p i ps amts =
    Some (ps ++ ((fun i => i * p) <$> seqZ i (n + 1 - i)),
          amts ++ ((fun i => Z.quot (T * (i * p)) 100)
                     <$> seqZ i (n + 1 - i))).
Proof.
  intros Hle. revert i ps amts.
  induction fuel as [|fuel IH]; intros i ps amts Hi Hfuel; [lia|].
  simpl. rewrite Hle.
  destruct (Z.leb_spec i n).
  - rewrite IH by lia.
    rewrite (seqZ_cons i (n + 1 - i)) by lia. simpl.
    replace (Z.pred (n + 1 - i)) with (n + 1 - (i + 1)) by lia.
    replace (Z.succ i) with (i + 1) by lia.
    rewrite <- !app_assoc. reflexivity.
  - replace (n + 1 - i) with 0 by lia. simpl. rewrite !app_nil_r.
    reflexivity.
Qed.

Lemma generatePercentageAmounts_eq T p :
  0 < p ->
  generatePercentageAmounts T p =
    Some ((fun i => i * p) <$> seqZ 1 (100 / p),
          (fun i => Z.quot (T * (i * p)) 100) <$> seqZ 1 (100 / p)).
Proof.
  intros Hp. unfold generatePercentageAmounts.
  assert (0 <= 100 / p <= 100).
  { split; [apply Z.div_pos; lia|].
    apply Z.div_le_upper_bound; lia. }
  rewrite (generatePercentageAmounts_loop_spec _ _ _ (100 / p));
    [| intros; apply le_quotient_pos, Hp | lia | lia].
  replace (100 / p + 1 - 1) with (100 / p) by lia. reflexivity.
Qed.

Lemma generatePercentageAmounts_loop_length fuel T p i ps amts ps' amts' :
  length ps = length amts ->
  generatePercentageAmounts_loop fuel T p i ps amts = Some (ps', amts') ->
  length ps' = length amts'.
Proof.
  revert i ps amts. induction fuel as [|fuel IH]; intros i ps amts Hlen; simpl;
    [discriminate|].
  destruct (le_quotient i p).
  - apply IH. rewrite !length_app. simpl. lia.
  - intros [= <- <-]. exact Hlen.
Qed.

(** [percents] and [amounts] have the same length. *)
Lemma generatePercentageAmounts_length T p percents amounts :
  generatePercentageAmounts T p = Some (percents, amounts) ->
  length percents = length amounts.
Proof. apply generatePercentageAmounts_loop_length. reflexivity. Qed.

(** C6.  For a trade amount [T >= 0] and an increment [p > 0],
    [generatePercentageAmounts] returns two lists of length [100 / p]
    (rounded down) whose entries at each index [k] are the percent
    [(k + 1) * p] and the amount [floor (T * ((k + 1) * p) / 100)], in exact
    integer arithmetic. *)
Theorem C6_generatePercentageAmounts_percent_and_floor (T p : Z) :
  0 <= T -> 0 < p ->
  exists percents amounts,
    generatePercentageAmounts T p = Some (percents, amounts) /\
    length percents = Z.to_nat (100 / p) /\
    length amounts = Z.to_nat (100 / p) /\
    forall k : nat, (k < Z.to_nat (100 / p))%nat ->
      percents !! k = Some ((Z.of_nat k + 1) * p) /\
      amounts !! k = Some (T * ((Z.of_nat k + 1) * p) / 100).
Proof.
  intros HT Hp. eexists _, _. split; [apply generatePercentageAmounts_eq, Hp|].
  rewrite !length_fmap, !length_seqZ. repeat split; try reflexivity.
  - rewrite list_lookup_fmap, lookup_seqZ_lt by lia. simpl. f_equal. lia.
  - rewrite list_lookup_fmap, lookup_seqZ_lt by lia. simpl. f_equal.
    rewrite Z.quot_div_nonneg by nia. f_equal. lia.
Qed.

Lemma C6_sample :
  exists percents amounts,
    generatePercentageAmounts 1001 20 = Some (percents, amounts) /\
    length percents = 5%nat /\ length amounts = 5%nat /\
    forall k : nat, (k < 5)%nat ->
      percents !! k = Some ((Z.of_nat k + 1) * 20) /\
      amounts !! k = Some (1001 * ((Z.of_nat k + 1) * 20) / 100).
Proof.
  apply (C6_generatePercentageAmounts_percent_and_floor 1001 20); lia.
Defined.

(** *** Computations with a trace *)

Lemma run_bind {A B} (m : M A) (f : A -> M B) t :
  (m ≫= f) t =
    match m t with (Ok a, t') => f a t' | (Err e, t') => (Err e, t') end.
Proof. reflexivity. Qed.

Lemma run_bind_Ok {A B} (m : M A) (f : A -> M B) t a t' :
  m t = (Ok a, t') -> (m ≫= f) t = f a t'.
Proof. intros H. rewrite run_bind, H. reflexivity. Qed.

Lemma run_lift_bind {A B} (r : result A) (f : A -> M B) t a :
  r = Ok a -> (lift r ≫= f) t = f a t.
Proof. intros ->. reflexivity. Qed.

Lemma emits_ret {A} Q (a : A) : emits Q (mret a).
Proof. intros t. exists []. rewrite app_nil_r. auto. Qed.

Lemma emits_lift {A} Q (r : result A) : emits Q (lift r).
Proof. intros t. exists []. rewrite app_nil_r. auto. Qed.

Lemma emits_call {A} (Q : event -> Prop) e (r : result A) :
  Q e -> emits Q (call e r).
Proof. intros He t. exists [e]. auto. Qed.

Lemma emits_bind {A B} Q (m : M A) (f : A -> M B) :
  emits Q m -> (forall a, emits Q (f a)) -> emits Q (m ≫= f).
Proof.
  intros Hm Hf t. rewrite run_bind. destruct (Hm t) as (evs & Ht & Hevs).
  destruct (m t) as [[a|e] t']; simpl in Ht; subst t'.
  - destruct (Hf a (t ++ evs)) as (evs' & -> & Hevs').
    exists (evs ++ evs'). rewrite app_assoc. split; [reflexivity|].
    apply Forall_app; auto.
  - exists evs. auto.
Qed.

Lemma emits_try_catch {A} Q (m : M A) : emits Q m -> emits Q (try_catch m).
Proof.
  intros Hm t. destruct (Hm t) as (evs & Ht & Hevs). exists evs.
  unfold try_catch. destruct (m t). auto.
Qed.

Lemma emits_foldlM {A B} Q (f : A -> B -> M A) a l :
  (forall a x, emits Q (f a x)) -> emits Q (foldlM f a l).
Proof.
  intros Hf. revert a. induction l as [|x l IH]; intros a; simpl.
  - apply emits_ret.
  - apply emits_bind; auto.
Qed.

(** *** Loops *)

(** A loop over [l] whose body keeps an invariant of the part of [l] done so
    far runs to its end. *)
Lemma foldlM_result_inv {A B} (f : A -> B -> result A)
  (I : list B -> A -> Prop) (l : list B) (a : A) :
  I [] a ->
  (forall pre x suf a, l = pre ++ x :: suf -> I pre a ->
     exists a', f a x = Ok a' /\ I (pre ++ [x]) a') ->
  exists a', foldlM f a l = Ok a' /\ I l a'.
Proof.
  intros H0 Hstep.
  assert (forall suf pre a, l = pre ++ suf -> I pre a ->
            exists a', foldlM f a suf = Ok a' /\ I l a') as Hgen.
  { induction suf as [|x suf IH]; intros pre a0 Hl Ha.
    - rewrite app_nil_r in Hl. subst pre. exists a0. split; [reflexivity|auto].
    - destruct (Hstep pre x suf a0 Hl Ha) as (a1 & Hf & Ha1).
      simpl. rewrite Hf, bind_Ok. apply (IH (pre ++ [x])); [|assumption].
      rewrite <- app_assoc. exact Hl. }
  apply (Hgen l []); auto.
Qed.

Lemma foldlM_M_inv {A B} (f : A -> B -> M A)
  (I : list B -> A -> Prop) (l : list B) (a : A) (t : list event) :
  I [] a ->
  (forall pre x suf a t, l = pre ++ x :: suf -> I pre a ->
     exists a' t', f a x t = (Ok a', t') /\ I (pre ++ [x]) a') ->
  exists a' t', foldlM f a l t = (Ok a', t') /\ I l a'.
Proof.
  intros H0 Hstep.
  assert (forall suf pre a t, l = pre ++ suf -> I pre a ->
            exists a' t', foldlM f a suf t = (Ok a', t') /\ I l a') as Hgen.
  { induction suf as [|x suf IH]; intros pre a0 t0 Hl Ha.
    - rewrite app_nil_r in Hl. subst pre. exists a0, t0.
      split; [reflexivity|auto].
    - destruct (Hstep pre x suf a0 t0 Hl Ha) as (a1 & t1 & Hf & Ha1).
      simpl. rewrite (run_bind_Ok _ _ _ _ _ Hf).
      apply (IH (pre ++ [x])); [|assumption].
      rewrite <- app_assoc. exact Hl. }
  apply (Hgen l []); auto.
Qed.

(** The element of [seq 0 n] after the prefix [pre] is [length pre]. *)
Lemma seq_split_inv n pre (x : nat) suf :
  seq 0 n = pre ++ x :: suf -> x = length pre /\ (x < n)%nat.
Proof.
  intros H.
  assert (seq 0 n !! length pre = Some x) as Hx.
  { rewrite H, lookup_app_r, Nat.sub_diag by lia. reflexivity. }
  apply lookup_seq in Hx. lia.
Qed.

(** *** Sparse arrays *)

Lemma array_get_Some {A} (a : list (option A)) i x :
  array_get a i = Some x <-> a !! i = Some (Some x).
Proof.
  unfold array_get. destruct (a !! i) as [[y|]|]; simpl; split; congruence.
Qed.

Lemma array_get_is_Some_lt {A} (a : list (option A)) i :
  is_Some (array_get a i) -> (i < length a)%nat.
Proof.
  intros [x Hx]. apply array_get_Some in Hx. eapply lookup_lt_Some, Hx.
Qed.

Lemma array_set_lt {A} i (x : A) a :
  (i < length a)%nat -> array_set i x a = <[i := Some x]> a.
Proof. intros Hi. unfold array_set. rewrite decide_True; auto. Qed.

Lemma array_get_insert_eq {A} (a : list (option A)) i x :
  (i < length a)%nat -> array_get (<[i := Some x]> a) i = Some x.
Proof.
  intros Hi. unfold array_get. rewrite list_lookup_insert_eq; auto.
Qed.

Lemma array_get_insert_ne {A} (a : list (option A)) i j x :
  i <> j -> array_get (<[i := x]> a) j = array_get a j.
Proof.
  intros Hij. unfold array_get. rewrite list_lookup_insert_ne; auto.
Qed.

Lemma array_get_insert_is_Some {A} (a : list (option A)) i j x :
  is_Some (array_get a j) -> is_Some (array_get (<[i := Some x]> a) j).
Proof.
  intros Hj. destruct (decide (i = j)) as [->|Hij].
  - rewrite array_get_insert_eq; eauto using array_get_is_Some_lt.
  - rewrite array_get_insert_ne; auto.
Qed.

(** No hole is left when [flatMap] keeps as many hops as there are slots. *)
Lemma omap_id_length_le {A} (l : list (option A)) :
  (length (omap id l) <= length l)%nat.
Proof. induction l as [|[x|] l IH]; cbn; lia. Qed.

Lemma omap_id_full {A} (l : list (option A)) :
  length (omap id l) = length l -> Forall is_Some l.
Proof.
  induction l as [|[x|] l IH]; cbn; intros H.
  - constructor.
  - constructor; [eauto | apply IH; lia].
  - pose proof (omap_id_length_le l). lia.
Qed.

Section Quoting.
Context {C : Collaborators}.
Context (inputTokenMint outputTokenMint : string).
Context (pools : gmap string TokenPairPool).
Context (pairRoutes : list (list string)) (isInput : bool).
Context (programId : string) (P : Hop -> Prop).

Hypothesis pools_ok :
  forall route, route ∈ pairRoutes ->
    forall a, a ∈ route -> is_Some (pools !! a).

Local Abbreviation arr_ok := (arr_ok pairRoutes P).
Local Abbreviation qm_ok := (qm_ok pairRoutes P).
Local Abbreviation entry_ok := (entry_ok pairRoutes P).

(** The two tests on [hop] at the top of the inner loop. *)
Lemma skip_test (route : list string) (hop : nat) :
  (if isInput then Z.of_nat (length route) <=? Z.of_nat hop
   else Z.of_nat hop >? Z.of_nat (length route) - 1)
  = bool_decide (length route <= hop)%nat.
Proof.
  destruct isInput.
  - destruct (Z.leb_spec (Z.of_nat (length route)) (Z.of_nat hop));
      [rewrite bool_decide_eq_true_2 | rewrite bool_decide_eq_false_2];
      auto; lia.
  - destruct (Z.gtb_spec (Z.of_nat hop) (Z.of_nat (length route) - 1));
      [rewrite bool_decide_eq_true_2 | rewrite bool_decide_eq_false_2];
      auto; lia.
Qed.

Lemma starting_test (route : list string) (hop : nat) :
  (hop < length route)%nat ->
  (if isInput then Z.of_nat hop =? 0
   else Z.of_nat hop =? Z.of_nat (length route) - 1)
  = bool_decide (hop = start_hop isInput route).
Proof.
  intros Hlt. unfold start_hop. destruct isInput.
  - destruct (Z.eqb_spec (Z.of_nat hop) 0);
      [rewrite bool_decide_eq_true_2 | rewrite bool_decide_eq_false_2];
      auto; lia.
  - destruct (Z.eqb_spec (Z.of_nat hop) (Z.of_nat (length route) - 1));
      [rewrite bool_decide_eq_true_2 | rewrite bool_decide_eq_false_2];
      auto; lia.
Qed.

Lemma ordered_lookup (b : bool) (route : list string) (hop : nat) :
  (hop < length route)%nat ->
  exists a, (if b then reverse route else route) !! hop = Some a /\ a ∈ route.
Proof.
  intros Hlt.
  assert (hop < length (if b then reverse route else route))%nat as Hlt'
    by (destruct b; rewrite ?length_reverse; auto).
  apply lookup_lt_is_Some in Hlt' as [a Ha]. exists a. split; [auto|].
  apply list_elem_of_lookup_2 in Ha.
  destruct b; [by apply elem_of_reverse|done].
Qed.

Lemma if_Ok_bind {A1 A2 B} (b : bool) (x y : A1 * A2)
  (f : A1 -> A2 -> result B) :
  ((if b then Ok x else Ok y) ≫= (fun '(u, v) => f u v))
  = f (if b then x.1 else y.1) (if b then x.2 else y.2).
Proof. destruct b, x, y; reflexivity. Qed.

Lemma fresh_entry_ok percent i route :
  pairRoutes !! i = Some route ->
  entry_ok percent i
    {| q_percent := percent; q_route := route;
       q_calculatedHops := Array (length route) |}.
Proof.
  intros Hi. repeat split; simpl; auto.
  - apply length_replicate.
  - intros k h Hk. apply lookup_replicate in Hk as [? _]. discriminate.
Qed.

Lemma arr_ok_insert percent arr i e :
  arr_ok percent arr -> entry_ok percent i e ->
  arr_ok percent (<[i := Some e]> arr).
Proof.
  intros [Hlen Harr] He. split; [rewrite length_insert; auto|].
  intros j e' Hj. destruct (decide (i = j)) as [->|Hij].
  - apply list_lookup_insert_Some in Hj as [(_ & [= <-] & _)|[? _]];
      [auto | congruence].
  - rewrite list_lookup_insert_ne in Hj; auto.
Qed.

Lemma build_route_spec hop percent tradeAmount us qm i route arr :
  pairRoutes !! i = Some route ->
  qm !! percent = Some arr ->
  arr_ok percent arr ->
  ((hop < length route)%nat -> hop <> start_hop isInput route ->
   is_Some (array_get arr i)) ->
  exists us' arr',
    buildQuoteUpdateRequests_route inputTokenMint outputTokenMint pools
      pairRoutes hop isInput percent tradeAmount (us, qm) i
    = Ok (us', <[percent := arr']> qm) /\
    arr_ok percent arr' /\
    (forall j, is_Some (array_get arr j) -> is_Some (array_get arr' j)) /\
    ((hop < length route)%nat -> hop = start_hop isInput route ->
     is_Some (array_get arr' i)) /\
    (us' = us \/
     exists u, us' = us ++ [u] /\ quoteIndex u = length us /\
               hopIndex u = hop /\ u_percent u = percent /\
               r_amountSpecifiedIsInput (request u) = isInput /\
               routeIndex u = i /\ (hop < length route)%nat).
Proof.
  intros Hi Hqm Harr Hstarted.
  unfold buildQuoteUpdateRequests_route. rewrite Hi. simpl (from_undefined _).
  rewrite bind_Ok, skip_test.
  case_bool_decide as Hskip.
  { exists us, arr. rewrite insert_id by assumption.
    split_and!; auto; intros; lia. }
  assert (hop < length route)%nat as Hlt by lia.
  rewrite starting_test by assumption. rewrite Hqm. simpl (from_undefined _).
  rewrite bind_Ok.
  assert (i < length arr)%nat as Hlen.
  { destruct Harr as [-> _]. eapply lookup_lt_Some, Hi. }
  assert (route ∈ pairRoutes) as Hin by (eapply list_elem_of_lookup_2, Hi).
  destruct route as [|a0 route'] eqn:Hroute; [simpl in Hlt; lia|].
  rewrite <- Hroute in *.
  assert (route !! 0%nat = Some a0) as H0 by (rewrite Hroute; reflexivity).
  assert (is_Some (pools !! a0)) as [pool0 Hpool0].
  { eapply pools_ok; eauto. eapply list_elem_of_lookup_2, H0. }
  rewrite H0. simpl (Some a0 ≫= _). rewrite Hpool0. simpl (from_undefined _).
  rewrite bind_Ok.
  set (orderedRoute := if _ : bool then reverse route else route).
  assert (exists a pool, orderedRoute !! hop = Some a /\ pools !! a = Some pool)
    as (a & pool & Ha & Hpool).
  { destruct (ordered_lookup (negb (String.eqb (tokenMintA pool0) inputTokenMint)
                && negb (String.eqb (tokenMintB pool0) inputTokenMint))
                route hop Hlt) as (a & Ha & Hain).
    destruct (pools_ok route Hin a Hain) as [pool Hpool]. eauto. }
  rewrite Ha. simpl (Some a ≫= _). rewrite Hpool.
  case_bool_decide as Hstart.
  - (* the route starts at this hop *)
    rewrite array_set_lt, array_get_insert_eq by assumption.
    simpl (from_undefined _). rewrite bind_Ok, if_Ok_bind, bind_Ok.
    eexists _, _. split; [reflexivity|].
    split_and!.
    + apply arr_ok_insert; [assumption | apply fresh_entry_ok, Hi].
    + intros j. apply array_get_insert_is_Some.
    + intros _ _. rewrite array_get_insert_eq; eauto.
    + right. eexists. split; [reflexivity|]. simpl. auto 10.
  - (* the route started at an earlier hop *)
    destruct (Hstarted Hlt Hstart) as [e He]. rewrite He.
    simpl (from_undefined _). rewrite bind_Ok.
    destruct (if isInput
              then match hop with
                   | O => None
                   | S h => array_get (q_calculatedHops e) h
                   end
              else array_get (q_calculatedHops e) (S hop)) as [lastHop|].
    + simpl (from_undefined _). rewrite !bind_Ok, if_Ok_bind, bind_Ok.
      eexists _, _. split; [reflexivity|].
      split_and!; [done | done | by intros _ ? |].
      right. eexists. split; [reflexivity|]. simpl. auto 10.
    + exists us, arr. split_and!; [done | done | done | by intros _ ? | by left].
Qed.

Lemma updates_ok_snoc percents hop us u :
  updates_ok pairRoutes isInput percents hop us ->
  quoteIndex u = length us ->
  update_ok pairRoutes isInput percents hop u ->
  updates_ok pairRoutes isInput percents hop (us ++ [u]).
Proof.
  intros Hus Hq Hu k u' Hk.
  apply lookup_app_Some in Hk as [Hk|[Hge Hk]]; [apply Hus, Hk|].
  apply list_lookup_singleton_Some in Hk as [Hk <-].
  split; [lia | assumption].
Qed.

(** The inner loop of [buildQuoteUpdateRequests] for one percent. *)
Lemma build_routes_spec percents hop percent tradeAmount us qm arr :
  percent ∈ percents ->
  qm !! percent = Some arr ->
  arr_ok percent arr ->
  (forall j route, pairRoutes !! j = Some route ->
     (hop < length route)%nat -> hop <> start_hop isInput route ->
     is_Some (array_get arr j)) ->
  updates_ok pairRoutes isInput percents hop us ->
  exists us' arr',
    foldlM (buildQuoteUpdateRequests_route inputTokenMint outputTokenMint
              pools pairRoutes hop isInput percent tradeAmount)
           (us, qm) (seq 0 (length pairRoutes))
    = Ok (us', <[percent := arr']> qm) /\
    arr_ok percent arr' /\
    (forall j, is_Some (array_get arr j) -> is_Some (array_get arr' j)) /\
    (forall j route, pairRoutes !! j = Some route ->
       (hop < length route)%nat -> hop = start_hop isInput route ->
       is_Some (array_get arr' j)) /\
    updates_ok pairRoutes isInput percents hop us'.
Proof.
  intros Hpercent Hqm Harr Hpre Hus.
  destruct (foldlM_result_inv
    (buildQuoteUpdateRequests_route inputTokenMint outputTokenMint
       pools pairRoutes hop isInput percent tradeAmount)
    (fun pre st =>
       exists arr', st.2 = <[percent := arr']> qm /\
         arr_ok percent arr' /\
         (forall j, is_Some (array_get arr j) -> is_Some (array_get arr' j)) /\
         (forall j route, (j < length pre)%nat ->
            pairRoutes !! j = Some route ->
            (hop < length route)%nat -> hop = start_hop isInput route ->
            is_Some (array_get arr' j)) /\
         updates_ok pairRoutes isInput percents hop st.1)
    (seq 0 (length pairRoutes)) (us, qm)) as ([us' qm'] & Hrun & HI).
  - exists arr. simpl. rewrite insert_id by assumption.
    split_and!; auto. intros j route Hj. lia.
  - intros pre x suf [us1 qm1] Hsplit (arr1 & Hqm1 & Harr1 & Hmono & Hnew & Hus1).
    simpl in Hqm1, Hus1. subst qm1.
    apply seq_split_inv in Hsplit as [-> Hx].
    destruct (lookup_lt_is_Some_2 pairRoutes (length pre) Hx) as [route Hroute].
    destruct (build_route_spec hop percent tradeAmount us1
                (<[percent := arr1]> qm) (length pre) route arr1)
      as (us2 & arr2 & Hstep & Harr2 & Hmono2 & Hstart2 & Hus2); auto.
    { apply lookup_insert_eq. }
    { intros Hlt Hne. apply Hmono. eapply Hpre; eauto. }
    rewrite insert_insert_eq in Hstep.
    exists (us2, <[percent := arr2]> qm). split; [exact Hstep|].
    exists arr2. simpl. split_and!; auto.
    + intros j route' Hj Hroute' Hlt Heq. rewrite length_app in Hj. simpl in Hj.
      destruct (decide (j = length pre)) as [->|Hne].
      * rewrite Hroute in Hroute'. injection Hroute' as <-. auto.
      * apply Hmono2. eapply Hnew; eauto. lia.
    + destruct Hus2 as [->|(u & -> & Hq & Hh & Hp & Hf & Hr & Hlt)]; auto.
      apply updates_ok_snoc; auto. unfold update_ok. rewrite Hp, Hr. eauto 10.
  - destruct HI as (arr' & Hqm' & Harr' & Hmono & Hnew & Hus'). simpl in *.
    subst qm'. exists us', arr'. split_and!; auto.
    intros j route Hj. eapply Hnew; eauto.
    rewrite length_seq. eapply lookup_lt_Some, Hj.
Qed.

(** One round of the outer loop: every route that starts at [hop] gets its
    entry, the entries that were there stay. *)
Lemma build_percent_spec percents hop (S : nat -> Prop) us qm percent
  tradeAmount :
  percent ∈ percents ->
  qm_ok qm ->
  (forall arr, qm !! percent = Some arr ->
     started_arr pairRoutes isInput S arr) ->
  ((exists h, S h) -> is_Some (qm !! percent)) ->
  ready pairRoutes isInput S hop ->
  updates_ok pairRoutes isInput percents hop us ->
  exists us' arr',
    buildQuoteUpdateRequests_percent inputTokenMint outputTokenMint pools
      pairRoutes hop isInput (us, qm) (percent, tradeAmount)
    = Ok (us', <[percent := arr']> qm) /\
    arr_ok percent arr' /\
    started_arr pairRoutes isInput (fun h => S h \/ h = hop) arr' /\
    updates_ok pairRoutes isInput percents hop us'.
Proof.
  intros Hpercent Hqm Hstarted Hkey Hready Hus.
  unfold buildQuoteUpdateRequests_percent.
  set (qm1 := match qm !! percent with
              | Some _ => qm
              | None => <[percent := Array (length pairRoutes)]> qm
              end).
  assert (exists arr, qm1 !! percent = Some arr /\ arr_ok percent arr /\
            started_arr pairRoutes isInput S arr /\
            <[percent := arr]> qm = qm1) as (arr & Hqm1 & Harr & HS & Heq).
  { unfold qm1. destruct (qm !! percent) as [arr|] eqn:E.
    - exists arr. split_and!; auto. apply insert_id, E.
    - exists (Array (length pairRoutes)). split_and!.
      + apply lookup_insert_eq.
      + split; [apply length_replicate|].
        intros i e Hi. apply lookup_replicate in Hi as [? _]. discriminate.
      + intros i route _ _ HSh. destruct Hkey as [? ?]; [eauto|discriminate].
      + reflexivity. }
  destruct (build_routes_spec percents hop percent tradeAmount us qm1 arr)
    as (us' & arr' & Hrun & Harr' & Hmono & Hnew & Hus'); auto.
  { intros j route Hj Hlt Hne. apply (HS j route Hj).
    - intros ->. simpl in Hlt. lia.
    - apply Hready; auto. eapply list_elem_of_lookup_2, Hj. }
  exists us', arr'. rewrite Hrun. split_and!; auto.
  - rewrite <- Heq, insert_insert_eq. reflexivity.
  - intros j route Hj Hne [HSh|Heq']; [apply Hmono; eauto|].
    eapply Hnew; eauto. rewrite <- Heq'. unfold start_hop.
    destruct isInput, route; simpl; try lia; congruence.
Qed.


Lemma started_arr_weaken (S S' : nat -> Prop) arr :
  (forall h, S h -> S' h) ->
  started_arr pairRoutes isInput S' arr -> started_arr pairRoutes isInput S arr.
Proof. intros HSS H i route Hi Hne HS. eapply H; eauto. Qed.

(** [buildQuoteUpdateRequests] at [hop], once the hops of [S] are done. *)
Lemma build_spec percents amounts hop (S : nat -> Prop) qm :
  length percents = length amounts ->
  Inv pairRoutes isInput P percents S qm ->
  ready pairRoutes isInput S hop ->
  exists us qm',
    buildQuoteUpdateRequests inputTokenMint outputTokenMint pools pairRoutes
      percents amounts hop isInput qm = Ok (us, qm') /\
    Inv pairRoutes isInput P percents (fun h => S h \/ h = hop) qm' /\
    updates_ok pairRoutes isInput percents hop us.
Proof.
  intros Hlen (Hok & Hkeys & Hstarted & Hall) Hready.
  unfold buildQuoteUpdateRequests.
  destruct (foldlM_result_inv
    (buildQuoteUpdateRequests_percent inputTokenMint outputTokenMint pools
       pairRoutes hop isInput)
    (fun pre st =>
       qm_ok st.2 /\
       (forall percent, is_Some (st.2 !! percent) -> percent ∈ percents) /\
       (forall percent arr, st.2 !! percent = Some arr ->
          started_arr pairRoutes isInput S arr /\
          (percent ∈ pre.*1 ->
           started_arr pairRoutes isInput (fun h => S h \/ h = hop) arr)) /\
       ((exists h, S h) -> forall percent, percent ∈ percents ->
          is_Some (st.2 !! percent)) /\
       (forall percent, percent ∈ pre.*1 -> is_Some (st.2 !! percent)) /\
       updates_ok pairRoutes isInput percents hop st.1)
    (zip percents amounts) ([], qm)) as ([us qm'] & Hrun & HI).
  - simpl. split_and!; auto.
    + intros percent arr Harr. split; [eauto|]. intros Hin.
      apply elem_of_nil in Hin. contradiction.
    + intros percent Hin. apply elem_of_nil in Hin. contradiction.
    + intros k u Hk. discriminate.
  - intros pre [percent amount] suf [us1 qm1] Hsplit
      (Hok1 & Hkeys1 & Hst1 & Hall1 & Hdone1 & Hus1). simpl in *.
    assert (percent ∈ percents) as Hpercent.
    { eapply (elem_of_zip_l percent amount). rewrite Hsplit.
      apply elem_of_app. right. left. }
    destruct (build_percent_spec percents hop S us1 qm1 percent amount)
      as (us2 & arr2 & Hstep & Harr2 & Hst2 & Hus2); auto.
    { intros arr Harr. apply (Hst1 percent arr Harr). }
    exists (us2, <[percent := arr2]> qm1). split; [exact Hstep|]. simpl.
    split_and!; auto.
    + intros p arr Hp. destruct (decide (percent = p)) as [->|Hne].
      * rewrite lookup_insert_eq in Hp. injection Hp as <-. assumption.
      * rewrite lookup_insert_ne in Hp by assumption. eauto.
    + intros p Hp. destruct (decide (percent = p)) as [->|Hne]; [assumption|].
      rewrite lookup_insert_ne in Hp by assumption. auto.
    + intros p arr Hp. destruct (decide (percent = p)) as [->|Hne].
      * rewrite lookup_insert_eq in Hp. injection Hp as <-.
        split; [|intros _; exact Hst2].
        eapply started_arr_weaken; [|exact Hst2]. intros h Hh. left. exact Hh.
      * rewrite lookup_insert_ne in Hp by assumption.
        destruct (Hst1 p arr Hp) as [HS Hdone]. split; [assumption|].
        intros Hin. apply Hdone. rewrite fmap_app in Hin.
        apply elem_of_app in Hin as [Hin|Hin]; [assumption|].
        simpl in Hin. apply list_elem_of_singleton in Hin. congruence.
    + intros HS p Hp. apply lookup_insert_is_Some'. right. auto.
    + intros p Hp. apply lookup_insert_is_Some'. rewrite fmap_app in Hp.
      apply elem_of_app in Hp as [Hp|Hp]; [right; auto|].
      simpl in Hp. apply list_elem_of_singleton in Hp. left. congruence.
  - destruct HI as (Hok' & Hkeys' & Hst' & _ & Hdone' & Hus'). simpl in *.
    rewrite fst_zip in Hst', Hdone' by lia.
    exists us, qm'. split; [exact Hrun|]. split; [|assumption].
    split_and!; auto.
    + intros percent arr Harr. apply (Hst' percent arr Harr). apply Hkeys'.
      eauto.
Qed.

End Quoting.

Section Updating.
Context {C : Collaborators}.
Context (pairRoutes : list (list string)) (isInput : bool).
Context (P : Hop -> Prop).

Local Abbreviation arr_ok := (arr_ok pairRoutes P).
Local Abbreviation qm_ok := (qm_ok pairRoutes P).
Local Abbreviation entry_ok := (entry_ok pairRoutes P).

Lemma same_shape_refl qm : same_shape qm qm.
Proof. intros percent. destruct (qm !! percent); eauto. Qed.

Lemma same_shape_trans qm1 qm2 qm3 :
  same_shape qm1 qm2 -> same_shape qm2 qm3 -> same_shape qm1 qm3.
Proof.
  intros H12 H23 percent. specialize (H12 percent). specialize (H23 percent).
  destruct (qm1 !! percent) as [arr1|].
  - destruct H12 as (arr2 & E2 & H12). rewrite E2 in H23.
    destruct H23 as (arr3 & E3 & H23). eauto.
  - rewrite H12 in H23. exact H23.
Qed.

Lemma same_shape_insert qm percent arr arr' :
  qm !! percent = Some arr ->
  (forall i, is_Some (array_get arr i) -> is_Some (array_get arr' i)) ->
  same_shape qm (<[percent := arr']> qm).
Proof.
  intros Hqm Hmono p. destruct (decide (percent = p)) as [<-|Hne].
  - rewrite Hqm, lookup_insert_eq. eauto.
  - rewrite lookup_insert_ne by assumption. destruct (qm !! p); eauto.
Qed.

Lemma qm_ok_insert qm percent arr :
  qm_ok qm -> arr_ok percent arr -> qm_ok (<[percent := arr]> qm).
Proof.
  intros Hqm Harr p arr' Hp. destruct (decide (percent = p)) as [<-|Hne].
  - rewrite lookup_insert_eq in Hp. injection Hp as <-. assumption.
  - rewrite lookup_insert_ne in Hp by assumption. eauto.
Qed.

(** One update: the quote is asked with [hopSlippage]; whatever it answers,
    nothing is thrown, and at most one slot of one entry is filled. *)
Lemma update_spec params qm u t :
  qm_ok qm ->
  is_Some (qm !! u_percent u) ->
  (exists route, pairRoutes !! routeIndex u = Some route /\
                 (hopIndex u < length route)%nat) ->
  (forall sp quote, params !! quoteIndex u = Some sp ->
     swapQuoteWithParams sp hopSlippage = Ok quote ->
     P (makeHop u sp quote)) ->
  exists qm',
    updateQuoteMap_update params qm u t
    = (Ok qm', t ++ [EvSwapQuote (params !! quoteIndex u) hopSlippage]) /\
    qm_ok qm' /\ same_shape qm qm'.
Proof.
  intros Hqm [quotes Hquotes] (route & Hroute & Hhop) HP.
  unfold updateQuoteMap_update. rewrite Hquotes.
  unfold mbind, M_bind, try_catch, call, lift, mret, M_ret. simpl.
  destruct (params !! quoteIndex u) as [sp|] eqn:Hsp; simpl;
    [|exists qm; split_and!; auto using same_shape_refl].
  destruct (swapQuoteWithParams sp hopSlippage) as [quote|err] eqn:Hquote;
    simpl; [|exists qm; split_and!; auto using same_shape_refl].
  destruct (array_get quotes (routeIndex u)) as [e|] eqn:He; simpl;
    [|exists qm; split_and!; auto using same_shape_refl].
  eexists. split; [reflexivity|].
  apply array_get_Some in He.
  destruct (Hqm _ _ Hquotes) as [Hlen Hentries].
  destruct (Hentries _ _ He) as (Hr & Hp & Hhops & HPe).
  assert (routeIndex u < length quotes)%nat as Hri
    by (eapply lookup_lt_Some, He).
  assert (hopIndex u < length (q_calculatedHops e))%nat as Hhi.
  { rewrite Hhops. rewrite Hroute in Hr. injection Hr as <-. exact Hhop. }
  split.
  - apply qm_ok_insert; [assumption|].
    apply arr_ok_insert; [split; assumption|].
    split_and!; simpl; auto.
    + rewrite array_set_lt, length_insert by assumption. exact Hhops.
    + intros k h Hk. rewrite array_set_lt in Hk by assumption.
      destruct (decide (hopIndex u = k)) as [<-|Hne].
      * rewrite list_lookup_insert_eq in Hk by assumption.
        injection Hk as <-. auto.
      * rewrite list_lookup_insert_ne in Hk by assumption. eauto.
  - eapply same_shape_insert; [eassumption|].
    intros i. apply array_get_insert_is_Some.
Qed.

(** [updateQuoteMap] never throws on the updates built for a hop. *)
Lemma updateQuoteMap_spec percents hop params us qm t :
  qm_ok qm ->
  updates_ok pairRoutes isInput percents hop us ->
  (forall percent, percent ∈ percents -> is_Some (qm !! percent)) ->
  (forall k u sp quote, us !! k = Some u -> params !! k = Some sp ->
     swapQuoteWithParams sp hopSlippage = Ok quote ->
     P (makeHop u sp quote)) ->
  exists qm' t',
    updateQuoteMap us params qm t = (Ok qm', t') /\
    qm_ok qm' /\ same_shape qm qm'.
Proof.
  intros Hqm Hus Hkeys HP. unfold updateQuoteMap.
  destruct (foldlM_M_inv (updateQuoteMap_update params)
              (fun _ qm' => qm_ok qm' /\ same_shape qm qm') us qm t)
    as (qm' & t' & Hrun & HI).
  - split; [assumption | apply same_shape_refl].
  - intros pre u suf qm1 t1 Hsplit [Hqm1 Hshape].
    assert (us !! length pre = Some u) as Hu.
    { rewrite Hsplit, lookup_app_r, Nat.sub_diag by lia. reflexivity. }
    destruct (Hus _ _ Hu) as (Hq & Hh & Hp & _ & route & Hroute & Hlt).
    destruct (update_spec params qm1 u t1) as (qm2 & Hstep & Hqm2 & Hshape2);
      auto.
    + destruct (Hkeys _ Hp) as [arr Harr]. specialize (Hshape (u_percent u)).
      rewrite Harr in Hshape. destruct Hshape as (arr' & -> & _). eauto.
    + rewrite Hh. eauto.
    + intros sp quote Hsp. rewrite Hq in Hsp. eauto.
    + eauto 10 using same_shape_trans.
  - destruct HI. eauto 10.
Qed.

End Updating.

Lemma foldlM_result_post {A B} (f : A -> B -> result A) (I : A -> Prop)
  (l : list B) (a a' : A) :
  foldlM f a l = Ok a' -> I a ->
  (forall a x a', x ∈ l -> I a -> f a x = Ok a' -> I a') ->
  I a'.
Proof.
  revert a. induction l as [|x l IH]; intros a Hrun Ha Hstep; simpl in Hrun.
  - injection Hrun as <-. exact Ha.
  - apply bind_Ok_inv in Hrun as (a1 & Hf & Hrun).
    apply (IH a1 Hrun).
    + eapply Hstep; eauto. left.
    + intros a2 y a3 Hy. apply Hstep. right. exact Hy.
Qed.

(** A loop that ran to its end kept every invariant of the part of the list
    done so far that its body keeps. *)
Lemma foldlM_result_prefix {A B} (f : A -> B -> result A)
  (I : list B -> A -> Prop) (l : list B) (a a' : A) :
  foldlM f a l = Ok a' -> I [] a ->
  (forall pre x suf a a1, l = pre ++ x :: suf -> I pre a ->
     f a x = Ok a1 -> I (pre ++ [x]) a1) ->
  I l a'.
Proof.
  intros Hrun H0 Hstep.
  assert (forall suf pre a, l = pre ++ suf -> I pre a ->
            foldlM f a suf = Ok a' -> I l a') as Hgen.
  { induction suf as [|x suf IH]; intros pre a0 Hl Ha Hr; simpl in Hr.
    - rewrite app_nil_r in Hl. subst pre. injection Hr as <-. exact Ha.
    - apply bind_Ok_inv in Hr as (a1 & Hf & Hr).
      apply (IH (pre ++ [x]) a1); [|eauto|exact Hr].
      rewrite <- app_assoc. exact Hl. }
  apply (Hgen l [] a); auto.
Qed.

Section Cleaning.
Context (tradeAmount : Z) (isInput : bool).

Lemma cleanQuoteMap_quote_char percent cleaned oe cleaned' :
  cleanQuoteMap_quote tradeAmount isInput percent cleaned oe = Ok cleaned' ->
  cleaned' = cleaned \/
  exists e f, oe = Some e /\ cleaned' = cleaned ++ [f] /\
              cleaned_from tradeAmount isInput percent e f.
Proof.
  unfold cleanQuoteMap_quote. destruct oe as [e|]; simpl; [|discriminate].
  destruct (Nat.eqb_spec (length (omap id (q_calculatedHops e)))
              (length (q_route e))) as [Hfull|_];
    [|intros [= <-]; left; reflexivity].
  intros H. apply bind_Ok_inv in H as (other & Hother & [= <-]).
  right. eexists e, _. split_and!; try reflexivity. simpl.
  unfold cleaned_from. simpl. split_and!; try reflexivity; try assumption.
  destruct isInput.
  - apply bind_Ok_inv in Hother as (h & Hh & [= <-]).
    split; [reflexivity|]. exists h. split; [|reflexivity].
    destruct (last (q_calculatedHops e)) as [[h'|]|]; simpl in Hh;
      congruence.
  - apply bind_Ok_inv in Hother as (h & Hh & [= <-]).
    split; [reflexivity|]. exists h. split; [|reflexivity].
    destruct (array_get (q_calculatedHops e) 0); simpl in Hh; congruence.
Qed.

(** The quotes that [cleanQuoteMap] emits for a percent come from the
    finished entries of that percent. *)
Lemma cleanQuoteMap_char qm cleaned percent l f :
  cleanQuoteMap tradeAmount isInput qm = Ok cleaned ->
  cleaned !! percent = Some l -> f ∈ l ->
  exists arr i e,
    qm !! percent = Some arr /\ arr !! i = Some (Some e) /\
    cleaned_from tradeAmount isInput percent e f.
Proof.
  intros Hrun. unfold cleanQuoteMap in Hrun. revert percent l f.
  apply (foldlM_result_post _
    (fun cleaned : gmap Z (list RouteQuote) => forall percent l f,
       cleaned !! percent = Some l -> f ∈ l ->
       exists arr i e,
         qm !! percent = Some arr /\ arr !! i = Some (Some e) /\
         cleaned_from tradeAmount isInput percent e f) _ _ _ Hrun).
  - intros percent l f Hl. rewrite lookup_empty in Hl. discriminate.
  - intros acc [p arr] acc' Hin Hacc Hstep percent l f Hl Hf.
    apply elem_of_map_to_list in Hin.
    apply bind_Ok_inv in Hstep as (c & Hc & [= <-]).
    destruct (decide (p = percent)) as [->|Hne];
      [|rewrite lookup_insert_ne in Hl by assumption; eauto].
    rewrite lookup_insert_eq in Hl. injection Hl as <-.
    exists arr. revert f Hf.
    apply (foldlM_result_post _
      (fun c : list RouteQuote => forall f, f ∈ c ->
         exists i e, qm !! percent = Some arr /\ arr !! i = Some (Some e) /\
           cleaned_from tradeAmount isInput percent e f) _ _ _ Hc).
    + intros f Hf. apply elem_of_nil in Hf. contradiction.
    + intros c1 oe c2 Hoe Hc1 Hq f Hf.
      apply cleanQuoteMap_quote_char in Hq
        as [->|(e & f' & -> & -> & Hfrom)]; [auto|].
      apply elem_of_app in Hf as [Hf|Hf]; [auto|].
      apply list_elem_of_singleton in Hf as ->.
      apply list_elem_of_lookup_1 in Hoe as [i Hi]. eauto 10.
Qed.


(** On the side of the trade amount, every quote emitted carries the whole
    [tradeAmount], at every percent. *)
Lemma cleanQuoteMap_specified_amount qm cleaned percent l f :
  cleanQuoteMap tradeAmount isInput qm = Ok cleaned ->
  cleaned !! percent = Some l -> f ∈ l ->
  (if isInput then r_amountIn f else r_amountOut f) = tradeAmount.
Proof.
  intros Hrun Hl Hf.
  destruct (cleanQuoteMap_char _ _ _ _ _ Hrun Hl Hf)
    as (arr & i & e & _ & _ & _ & _ & _ & _ & Hside).
  destruct isInput; apply Hside.
Qed.

Lemma cleanQuoteMap_quote_total percent cleaned e :
  (length (omap id (q_calculatedHops e)) = length (q_route e) ->
   exists hl hf, last (q_calculatedHops e) = Some (Some hl) /\
                 array_get (q_calculatedHops e) 0 = Some hf) ->
  exists cleaned',
    cleanQuoteMap_quote tradeAmount isInput percent cleaned (Some e)
    = Ok cleaned'.
Proof.
  intros Hfull. unfold cleanQuoteMap_quote. simpl.
  destruct (Nat.eqb_spec (length (omap id (q_calculatedHops e)))
              (length (q_route e))) as [Heq|_]; [|eauto].
  destruct (Hfull Heq) as (hl & hf & -> & ->). destruct isInput; simpl; eauto.
Qed.

Lemma cleanQuoteMap_total qm :
  (forall percent arr oe, qm !! percent = Some arr -> oe ∈ arr ->
     exists e, oe = Some e /\
       (length (omap id (q_calculatedHops e)) = length (q_route e) ->
        exists hl hf, last (q_calculatedHops e) = Some (Some hl) /\
                      array_get (q_calculatedHops e) 0 = Some hf)) ->
  exists cleaned, cleanQuoteMap tradeAmount isInput qm = Ok cleaned.
Proof.
  intros Hqm. unfold cleanQuoteMap.
  destruct (foldlM_result_inv
    (fun (cleanedQuoteMap : gmap Z (list RouteQuote)) pu =>
       let '(percent, uncleanedQuotes) := pu in
       cleaned ← foldlM (cleanQuoteMap_quote tradeAmount isInput percent)
                   [] uncleanedQuotes;
       Ok (<[percent := cleaned]> cleanedQuoteMap))
    (fun _ _ => True) (map_to_list qm) ∅) as (cleaned & Hrun & _); eauto.
  intros pre [percent arr] suf acc Hsplit _.
  assert (qm !! percent = Some arr) as Harr.
  { apply elem_of_map_to_list. rewrite Hsplit. apply elem_of_app.
    right. left. }
  destruct (foldlM_result_inv
    (cleanQuoteMap_quote tradeAmount isInput percent)
    (fun _ _ => True) arr []) as (c & Hc & _); auto.
  - intros pre' oe suf' c1 Hsplit' _.
    destruct (Hqm percent arr oe Harr) as (e & -> & Hfull).
    { rewrite Hsplit'. apply elem_of_app. right. left. }
    destruct (cleanQuoteMap_quote_total percent c1 e Hfull) as [c2 Hc2].
    eauto.
  - rewrite Hc. simpl. eauto.
Qed.

End Cleaning.

Section CleaningKeeps.
Context (tradeAmount : Z) (isInput : bool).

Lemma cleanQuoteMap_quote_keeps percent cleaned e cleaned' :
  cleanQuoteMap_quote tradeAmount isInput percent cleaned (Some e)
  = Ok cleaned' ->
  length (omap id (q_calculatedHops e)) = length (q_route e) ->
  exists f, cleaned' = cleaned ++ [f] /\
            cleaned_from tradeAmount isInput percent e f.
Proof.
  intros Hrun Hfull.
  destruct (cleanQuoteMap_quote_char _ _ _ _ _ _ Hrun)
    as [Heq|(e' & f & [= <-] & -> & Hfrom)]; [|eauto].
  exfalso. unfold cleanQuoteMap_quote in Hrun. simpl in Hrun.
  apply Nat.eqb_eq in Hfull. rewrite Hfull in Hrun.
  apply bind_Ok_inv in Hrun as (other & _ & [= Hc]).
  rewrite Heq in Hc. apply (f_equal length) in Hc.
  rewrite length_app in Hc. simpl in Hc. lia.
Qed.

Lemma cleanQuoteMap_quotes_keep percent arr c i e :
  foldlM (cleanQuoteMap_quote tradeAmount isInput percent) [] arr = Ok c ->
  arr !! i = Some (Some e) ->
  length (omap id (q_calculatedHops e)) = length (q_route e) ->
  exists f, f ∈ c /\ cleaned_from tradeAmount isInput percent e f.
Proof.
  intros Hrun Hi Hfull.
  apply list_elem_of_lookup_2 in Hi. revert Hi.
  apply (foldlM_result_prefix _
    (fun pre c => Some e ∈ pre ->
       exists f, f ∈ c /\ cleaned_from tradeAmount isInput percent e f)
    _ _ _ Hrun).
  - intros Hin. apply elem_of_nil in Hin. contradiction.
  - intros pre oe suf c0 c1 _ IH Hstep Hin.
    apply elem_of_app in Hin as [Hin|Hin].
    + destruct (IH Hin) as (f & Hf & Hfrom). exists f. split; [|exact Hfrom].
      destruct (cleanQuoteMap_quote_char _ _ _ _ _ _ Hstep)
        as [->|(_ & f' & _ & -> & _)]; [exact Hf|].
      apply elem_of_app. left. exact Hf.
    + apply list_elem_of_singleton in Hin as <-.
      destruct (cleanQuoteMap_quote_keeps _ _ _ _ Hstep Hfull)
        as (f & -> & Hfrom).
      exists f. split; [|exact Hfrom]. apply elem_of_app. right. left.
Qed.

(** Every finished entry of the quote map is emitted. *)
Lemma cleanQuoteMap_keeps qm cleaned percent arr i e :
  cleanQuoteMap tradeAmount isInput qm = Ok cleaned ->
  qm !! percent = Some arr -> arr !! i = Some (Some e) ->
  length (omap id (q_calculatedHops e)) = length (q_route e) ->
  exists l f, cleaned !! percent = Some l /\ f ∈ l /\
              cleaned_from tradeAmount isInput percent e f.
Proof.
  intros Hrun Harr Hi Hfull. unfold cleanQuoteMap in Hrun.
  assert (exists c, cleaned !! percent = Some c /\
            foldlM (cleanQuoteMap_quote tradeAmount isInput percent) [] arr
            = Ok c) as (c & Hc & Hinner).
  { apply elem_of_map_to_list in Harr. revert Harr.
    generalize percent arr.
    apply (foldlM_result_prefix _
      (fun pre (acc : gmap Z (list RouteQuote)) => forall k v,
         (k, v) ∈ pre ->
         exists c, acc !! k = Some c /\
           foldlM (cleanQuoteMap_quote tradeAmount isInput k) [] v = Ok c)
      _ _ _ Hrun).
    - intros k v Hin. apply elem_of_nil in Hin. contradiction.
    - intros pre [k1 v1] suf acc acc1 Hsplit IH Hstep k v Hin.
      apply bind_Ok_inv in Hstep as (c1 & Hc1 & [= <-]).
      apply elem_of_app in Hin as [Hin|Hin].
      + destruct (IH _ _ Hin) as (c & Hc & Hrunc).
        assert (k1 <> k) as Hne.
        { pose proof (NoDup_fst_map_to_list qm) as Hnd.
          rewrite Hsplit, fmap_app, fmap_cons in Hnd.
          apply NoDup_app in Hnd as (_ & Hdisj & _). intros <-.
          apply (Hdisj k1); [|left].
          apply (list_elem_of_fmap_2 fst) in Hin. exact Hin. }
        exists c. rewrite lookup_insert_ne by assumption. auto.
      + apply list_elem_of_singleton in Hin as [= -> ->].
        exists c1. rewrite lookup_insert_eq. auto. }
  destruct (cleanQuoteMap_quotes_keep _ _ _ _ _ Hinner Hi Hfull)
    as (f & Hf & Hfrom). eauto.
Qed.

End CleaningKeeps.

Lemma last_is_Some {A} (l : list (option A)) :
  Forall is_Some l -> l <> [] -> exists x, last l = Some (Some x).
Proof.
  intros Hall Hne. destruct (last l) as [o|] eqn:Hlast.
  - assert (o ∈ l) as Hin.
    { apply last_Some in Hlast as [l' ->]. apply elem_of_app. right. left. }
    rewrite Forall_forall in Hall. apply Hall in Hin.
    destruct Hin as [x ->]. eauto.
  - apply last_None in Hlast. contradiction.
Qed.

Lemma first_is_Some {A} (l : list (option A)) :
  Forall is_Some l -> l <> [] -> exists x, array_get l 0 = Some x.
Proof.
  intros Hall Hne. destruct l as [|o l]; [contradiction|].
  inversion Hall as [|? ? [x ->] _]. exists x. reflexivity.
Qed.

(** *** Sorting *)

Section Sorting.
Context {A : Type} (compareFn : A -> A -> Z).

Lemma sort_insert_perm x l : Permutation (sort_insert compareFn x l) (x :: l).
Proof.
  induction l as [|y l IH]; simpl; [reflexivity|].
  destruct (compareFn x y <=? 0); [reflexivity|].
  rewrite IH. apply perm_swap.
Qed.

Lemma js_sort_perm l : Permutation (js_sort compareFn l) l.
Proof.
  induction l as [|x l IH]; simpl; [reflexivity|].
  rewrite sort_insert_perm. constructor. exact IH.
Qed.

Lemma elem_of_js_sort x l : x ∈ js_sort compareFn l <-> x ∈ l.
Proof. rewrite (js_sort_perm l). reflexivity. Qed.

Hypothesis compare_total :
  forall a b, compareFn a b <= 0 \/ compareFn b a <= 0.

Lemma sort_insert_sorted x l :
  Sorted (fun a b => compareFn a b <= 0) l ->
  Sorted (fun a b => compareFn a b <= 0) (sort_insert compareFn x l).
Proof.
  induction 1 as [|y l Hl IH Hhd]; simpl; [repeat constructor|].
  destruct (Z.leb_spec (compareFn x y) 0) as [Hxy|Hxy].
  - repeat constructor; assumption.
  - constructor; [exact IH|].
    destruct l as [|z l]; simpl.
    + constructor. destruct (compare_total x y); lia.
    + destruct (Z.leb_spec (compareFn x z) 0).
      * constructor. destruct (compare_total x y); lia.
      * inversion Hhd. constructor. assumption.
Qed.

Lemma js_sort_sorted l :
  Sorted (fun a b => compareFn a b <= 0) (js_sort compareFn l).
Proof.
  induction l as [|x l IH]; simpl; [constructor|].
  apply sort_insert_sorted, IH.
Qed.

End Sorting.

Lemma Sorted_weaken {A} (R R' : A -> A -> Prop) l :
  (forall a b, R a b -> R' a b) -> Sorted R l -> Sorted R' l.
Proof.
  intros HR. induction 1 as [|x l Hl IH Hhd]; constructor; [exact IH|].
  destruct Hhd; constructor; auto.
Qed.

Lemma better_or_equal_trans isInput a b c :
  better_or_equal isInput a b -> better_or_equal isInput b c ->
  better_or_equal isInput a c.
Proof. unfold better_or_equal. destruct isInput; lia. Qed.

(** *** Baselines *)

Lemma mapM_result_spec {A B} (g : A -> result B) (l : list A) :
  (forall x, x ∈ l -> exists y, g x = Ok y) ->
  exists l', mapM g l = Ok l' /\ forall x y, x ∈ l -> g x = Ok y -> y ∈ l'.
Proof.
  induction l as [|x l IH]; intros Hg.
  - exists []. split; [reflexivity|]. intros x y Hx.
    apply elem_of_nil in Hx. contradiction.
  - destruct (Hg x) as [y Hy]; [left|].
    destruct IH as (l' & Hl' & Hin); [intros; apply Hg; right; assumption|].
    exists (y :: l'). split.
    + simpl. rewrite Hy, bind_Ok, Hl'. reflexivity.
    + intros x' y' Hx' Hy'. apply elem_of_cons in Hx' as [->|Hx'].
      * rewrite Hy in Hy'. injection Hy' as <-. left.
      * right. eauto.
Qed.

Lemma single_hop_shape (f : RouteQuote) :
  Forall is_Some (calculatedHops f) -> length (calculatedHops f) = 1%nat ->
  exists h, calculatedHops f = [Some h].
Proof.
  intros Hall Hlen. destruct (calculatedHops f) as [|[h|] [|? ?]];
    simpl in Hlen; try discriminate; [eauto|].
  inversion Hall as [|? ? [? ?] _]. discriminate.
Qed.

Lemma getSingleHopSplit_spec (cleaned : gmap Z (list RouteQuote)) :
  (forall l f, cleaned !! 100 = Some l -> f ∈ l ->
     Forall is_Some (calculatedHops f)) ->
  exists single,
    getSingleHopSplit cleaned = Ok single /\
    forall l f h, cleaned !! 100 = Some l -> f ∈ l ->
      calculatedHops f = [Some h] ->
      {| quotes := [f]; s_percent := 100;
         totalIn := amountIn h; totalOut := amountOut h |} ∈ single.
Proof.
  intros Hfull. unfold getSingleHopSplit.
  destruct (cleaned !! 100) as [fullFlow|] eqn:E.
  - match goal with
    | |- context [mapM ?g ?l] => destruct (mapM_result_spec g l)
                                   as (single & Hrun & Hin)
    end.
    + intros f Hf. apply list_elem_of_In, filter_In in Hf as [Hf Hlen].
      apply Nat.eqb_eq in Hlen. apply list_elem_of_In in Hf.
      destruct (single_hop_shape f (Hfull _ _ eq_refl Hf) Hlen) as [h Hh].
      rewrite Hh. simpl. eauto.
    + exists single. split; [exact Hrun|].
      intros l f h [= <-] Hf Hh. apply (Hin f).
      * apply list_elem_of_In, filter_In. split; [apply list_elem_of_In, Hf|].
        rewrite Hh. reflexivity.
      * rewrite Hh. reflexivity.
  - exists []. split; [reflexivity|]. intros l f h Hl. discriminate.
Qed.

Section Pipeline.
Context {C : Collaborators}.
Context (inputTokenMint outputTokenMint : string).
Context (pools : gmap string TokenPairPool).
Context (pairRoutes : list (list string)) (isInput : bool).
Context (programId : string) (P : Hop -> Prop).

Hypothesis Hroutes : routes_ok pools pairRoutes.
Hypothesis Hfetch : fetcher_ok.
Hypothesis Hbatch : batch_ok programId.
Hypothesis HP :
  forall requests params k r sp quote u,
    batchSwapQuoteByToken requests programId = Ok params ->
    requests !! k = Some r -> r_amountSpecifiedIsInput r = isInput ->
    params !! k = Some sp ->
    swapQuoteWithParams sp hopSlippage = Ok quote ->
    P (makeHop u sp quote).

Lemma prefetchRoutes_total t :
  exists t', prefetchRoutes pairRoutes programId t = (Ok tt, t').
Proof.
  unfold prefetchRoutes. destruct Hfetch as [Hpools Hticks].
  destruct (Hpools (uniq (concat pairRoutes))) as (wps & Hwps & Hlen).
  rewrite run_bind. unfold call at 1. rewrite Hwps.
  match goal with
  | |- context [lift ?r] =>
      assert (exists addrs, r = Ok addrs) as [addrs Haddrs]
  end.
  { match goal with
    | |- exists _, foldlM ?f _ _ = _ =>
        destruct (foldlM_result_inv f (fun _ _ => True)
                    (seq 0 (length wps)) []) as (addrs & Hrun & _);
          [exact I | | eauto]
    end.
    intros pre i suf acc Hsplit _. apply seq_split_inv in Hsplit as [_ Hi].
    destruct (wps !! i ≫= id) as [wp|]; [|eauto].
    rewrite Hlen in Hi. apply lookup_lt_is_Some in Hi as [a ->].
    simpl. eauto. }
  rewrite (run_lift_bind _ _ _ _ Haddrs). unfold call. rewrite Hticks. eauto.
Qed.

Lemma Inv_same_shape percents S qm qm' :
  Inv pairRoutes isInput P percents S qm ->
  qm_ok pairRoutes P qm' -> same_shape qm qm' ->
  Inv pairRoutes isInput P percents S qm'.
Proof.
  intros (_ & Hkeys & Hstarted & Hall) Hok' Hshape. split_and!; auto.
  - intros percent [arr' Harr']. apply Hkeys. specialize (Hshape percent).
    destruct (qm !! percent); [eauto | congruence].
  - intros percent arr' Harr'. pose proof (Hshape percent) as Hs.
    destruct (qm !! percent) as [arr|] eqn:Harr; [|congruence].
    destruct Hs as (arr'' & E & Hmono). rewrite Harr' in E.
    injection E as <-. intros i route Hi Hne HS. apply Hmono.
    eapply Hstarted; eauto.
  - intros HS percent Hpercent. destruct (Hall HS percent Hpercent) as [arr Harr].
    specialize (Hshape percent). rewrite Harr in Hshape.
    destruct Hshape as (arr' & -> & _). eauto.
Qed.

Lemma Inv_ext percents (S S' : nat -> Prop) qm :
  (forall h, S h <-> S' h) ->
  Inv pairRoutes isInput P percents S qm ->
  Inv pairRoutes isInput P percents S' qm.
Proof.
  intros HSS (Hok & Hkeys & Hstarted & Hall). split_and!; auto.
  - intros percent arr Harr i route Hi Hne HS. eapply Hstarted; eauto.
    apply HSS, HS.
  - intros [h Hh]. apply Hall. exists h. apply HSS, Hh.
Qed.

(** One round of the quoting loop. *)
Lemma quoteHop_spec percents amounts (S : nat -> Prop) qm hop t :
  length percents = length amounts ->
  Inv pairRoutes isInput P percents S qm ->
  ready pairRoutes isInput S hop ->
  exists qm' t',
    quoteHop inputTokenMint outputTokenMint pools pairRoutes percents amounts
      isInput programId qm hop t = (Ok qm', t') /\
    Inv pairRoutes isInput P percents (fun h => S h \/ h = hop) qm'.
Proof.
  intros Hlen HInv Hready. unfold quoteHop.
  destruct (build_spec inputTokenMint outputTokenMint pools pairRoutes
              isInput P (fun route Hr => proj2 (proj2 Hroutes route Hr))
              percents amounts hop S qm Hlen HInv Hready)
    as (us & qm1 & Hbuild & HInv1 & Hus).
  rewrite (run_lift_bind _ _ _ _ Hbuild).
  destruct (Hbatch (request <$> us)) as [params Hparams].
  rewrite run_bind. unfold call. rewrite Hparams.
  destruct HInv1 as (Hok1 & Hkeys1 & Hstarted1 & Hall1).
  destruct (updateQuoteMap_spec pairRoutes isInput P percents hop params us
              qm1 (t ++ [EvBatchSwapQuote (request <$> us)]))
    as (qm' & t' & Hrun & Hok' & Hshape); auto.
  - apply Hall1. eauto.
  - intros k u sp quote Hu Hsp Hquote.
    eapply (HP _ _ k (request u)); eauto.
    + rewrite list_lookup_fmap, Hu. reflexivity.
    + apply (Hus k u Hu).
  - exists qm', t'. split; [exact Hrun|].
    eapply Inv_same_shape; [|exact Hok'|exact Hshape]. split_and!; auto.
Qed.

(** In the order of [hopIteration], a route that reaches a hop without
    starting there started at a hop already done. *)
Lemma hopIteration_ready iteration pre hop suf :
  hopIteration pairRoutes isInput = Ok iteration ->
  iteration = pre ++ hop :: suf ->
  ready pairRoutes isInput (fun h => h ∈ pre) hop.
Proof.
  unfold hopIteration. destruct pairRoutes as [|r0 rs] eqn:Hpr; [discriminate|].
  rewrite <- Hpr. intros [= <-] Hsplit route Hroute Hlt Hne.
  assert (length route <= max_list (length <$> pairRoutes))%nat as Hmax.
  { apply max_list_elem_of_le, list_elem_of_fmap_2, Hroute. }
  unfold start_hop in *. destruct isInput.
  - apply seq_split_inv in Hsplit as Hhop. destruct Hhop as [-> _].
    apply (list_elem_of_lookup_2 _ 0%nat).
    assert (seq 0 (max_list (length <$> pairRoutes)) !! 0%nat = Some 0%nat)
      as H0 by (apply lookup_seq; lia).
    rewrite Hsplit, lookup_app_l in H0 by lia. exact H0.
  - set (n := max_list (length <$> pairRoutes)) in *.
    assert (reverse (seq 0 n) !! length pre = Some hop) as Hhop.
    { rewrite Hsplit, lookup_app_r, Nat.sub_diag by lia. reflexivity. }
    apply reverse_lookup_Some in Hhop as [Hhop Hpre].
    rewrite length_seq in Hhop, Hpre. apply lookup_seq in Hhop as [Hhop _].
    apply (list_elem_of_lookup_2 _ (n - length route)%nat).
    assert (reverse (seq 0 n) !! (n - length route)%nat
            = Some (length route - 1)%nat) as Hstart.
    { apply reverse_lookup_Some. rewrite length_seq. split; [|lia].
      apply lookup_seq. lia. }
    rewrite Hsplit, lookup_app_l in Hstart by lia. exact Hstart.
Qed.

Lemma hopIteration_start iteration route :
  hopIteration pairRoutes isInput = Ok iteration ->
  route ∈ pairRoutes -> route <> [] ->
  start_hop isInput route ∈ iteration.
Proof.
  unfold hopIteration. destruct pairRoutes as [|r0 rs] eqn:Hpr; [discriminate|].
  rewrite <- Hpr. intros [= <-] Hroute Hne.
  assert (length route <= max_list (length <$> pairRoutes))%nat as Hmax.
  { apply max_list_elem_of_le, list_elem_of_fmap_2, Hroute. }
  assert (0 < length route)%nat by (destruct route; simpl; [congruence|lia]).
  unfold start_hop. destruct isInput; [|apply elem_of_reverse];
    apply elem_of_seq; lia.
Qed.

Lemma hopIteration_total : exists iteration,
  hopIteration pairRoutes isInput = Ok iteration.
Proof.
  unfold hopIteration. destruct Hroutes as [Hne _].
  destruct pairRoutes; [contradiction|eauto].
Qed.

(** The quoting loop: it ends without an error, with every route that is
    not empty started at every percent. *)
Lemma quoteHops_spec percents amounts iteration t :
  length percents = length amounts ->
  hopIteration pairRoutes isInput = Ok iteration ->
  exists qm t',
    foldlM (quoteHop inputTokenMint outputTokenMint pools pairRoutes percents
              amounts isInput programId)
           (∅ : gmap Z (list (option PartialQuote))) iteration t
    = (Ok qm, t') /\
    Inv pairRoutes isInput P percents (fun h => h ∈ iteration) qm.
Proof.
  intros Hlen Hiter.
  apply (foldlM_M_inv _
    (fun pre qm => Inv pairRoutes isInput P percents (fun h => h ∈ pre) qm)).
  - split_and!.
    + intros percent arr Harr. rewrite lookup_empty in Harr. discriminate.
    + intros percent [arr Harr]. rewrite lookup_empty in Harr. discriminate.
    + intros percent arr Harr. rewrite lookup_empty in Harr. discriminate.
    + intros [h Hh]. apply elem_of_nil in Hh. contradiction.
  - intros pre hop suf qm t0 Hsplit HInv.
    destruct (quoteHop_spec percents amounts _ qm hop t0 Hlen HInv
                (hopIteration_ready _ _ _ _ Hiter Hsplit))
      as (qm' & t' & Hrun & HInv').
    exists qm', t'. split; [exact Hrun|].
    eapply Inv_ext; [|exact HInv']. intros h. simpl.
    rewrite elem_of_app, list_elem_of_singleton. reflexivity.
Qed.

End Pipeline.

Section QuotingPipeline.
Context {C : Collaborators}.
Context (inputTokenMint outputTokenMint : string).
Context (pools : gmap string TokenPairPool).
Context (pairRoutes : list (list string)) (isInput : bool).
Context (programId : string) (P : Hop -> Prop).

Hypothesis Hroutes : routes_ok pools pairRoutes.
Hypothesis Hfetch : fetcher_ok.
Hypothesis Hbatch : batch_ok programId.
Hypothesis HP :
  forall requests params k r sp quote u,
    batchSwapQuoteByToken requests programId = Ok params ->
    requests !! k = Some r -> r_amountSpecifiedIsInput r = isInput ->
    params !! k = Some sp ->
    swapQuoteWithParams sp hopSlippage = Ok quote ->
    P (makeHop u sp quote).

(** The quoting part of [findBestRoutes] ends without an error, and every
    quote it emits is a finished entry of the quote map: one hop per pool of
    the route, each with the property [P] of the hops stored. *)
Lemma quoteRoutes_spec tradeAmount routingOptions t :
  0 < percentIncrement routingOptions ->
  exists cleaned t',
    quoteRoutes inputTokenMint outputTokenMint tradeAmount isInput pairRoutes
      pools programId routingOptions t = (Ok cleaned, t') /\
    forall percent l f, cleaned !! percent = Some l -> f ∈ l ->
      exists i e,
        entry_ok pairRoutes P percent i e /\
        Forall is_Some (q_calculatedHops e) /\
        cleaned_from tradeAmount isInput percent e f.
Proof.
  intros Hp. unfold quoteRoutes.
  destruct (prefetchRoutes_total pairRoutes programId Hfetch t) as [t1 Hpre].
  rewrite (run_bind_Ok _ _ _ _ _ Hpre).
  pose proof (generatePercentageAmounts_eq tradeAmount _ Hp) as Hgen.
  destruct (generatePercentageAmounts tradeAmount
              (percentIncrement routingOptions))
    as [[percents amounts]|] eqn:Hgen'; [clear Hgen|discriminate].
  pose proof (generatePercentageAmounts_length _ _ _ _ Hgen') as Hlen.
  rewrite (run_lift_bind _ _ _ (percents, amounts)) by reflexivity.
  destruct (hopIteration_total pools pairRoutes isInput Hroutes)
    as [iteration Hiter].
  rewrite (run_lift_bind _ _ _ _ Hiter).
  destruct (quoteHops_spec inputTokenMint outputTokenMint pools pairRoutes
              isInput programId P Hroutes Hbatch HP percents amounts
              iteration t1 Hlen Hiter)
    as (qm & t2 & Hrun & Hok & Hkeys & Hstarted & _).
  rewrite (run_bind_Ok _ _ _ _ _ Hrun).
  assert (forall percent arr i e, qm !! percent = Some arr ->
            arr !! i = Some (Some e) ->
            length (omap id (q_calculatedHops e)) = length (q_route e) ->
            Forall is_Some (q_calculatedHops e) /\ q_calculatedHops e <> [])
    as Hfull.
  { intros percent arr i e Harr He Hcomplete.
    destruct (Hok _ _ Harr) as [_ Hentries].
    destruct (Hentries _ _ He) as (Hr & _ & Hhops & _).
    split; [apply omap_id_full; congruence|].
    intros Hnil. apply list_elem_of_lookup_2 in Hr.
    destruct Hroutes as [_ Hr']. destruct (Hr' _ Hr) as [Hne _].
    rewrite Hnil in Hhops. simpl in Hhops. destruct (q_route e);
      [contradiction|discriminate]. }
  destruct (cleanQuoteMap_total tradeAmount isInput qm) as [cleaned Hclean].
  { intros percent arr oe Harr Hoe.
    apply list_elem_of_lookup_1 in Hoe as [i Hi].
    destruct (Hok _ _ Harr) as [Hlenarr _].
    assert (i < length pairRoutes)%nat as Hlt
      by (rewrite <- Hlenarr; eapply lookup_lt_Some, Hi).
    apply lookup_lt_is_Some in Hlt as [route Hroute].
    assert (route ∈ pairRoutes) as Hin
      by (eapply list_elem_of_lookup_2, Hroute).
    destruct Hroutes as [_ Hr']. destruct (Hr' _ Hin) as [Hne _].
    destruct (Hstarted _ _ Harr i route Hroute Hne) as [e He].
    { eapply hopIteration_start; eauto. }
    apply array_get_Some in He. rewrite Hi in He. injection He as ->.
    exists e. split; [reflexivity|]. intros Hcomplete.
    destruct (Hfull _ _ _ _ Harr Hi Hcomplete) as [Hall Hnil].
    destruct (last_is_Some _ Hall Hnil) as [hl Hhl].
    destruct (first_is_Some _ Hall Hnil) as [hf Hhf]. eauto. }
  exists cleaned, t2. unfold lift. rewrite Hclean. split; [reflexivity|].
  intros percent l f Hl Hf.
  destruct (cleanQuoteMap_char _ _ _ _ _ _ _ Hclean Hl Hf)
    as (arr & i & e & Harr & He & Hfrom).
  exists i, e. split_and!; [|  |exact Hfrom].
  - apply (Hok _ _ Harr). exact He.
  - apply (Hfull _ _ _ _ Harr He). apply Hfrom.
Qed.

End QuotingPipeline.

Section Claims.
Context {C : Collaborators}.

(** *** Calls made by the router *)

Lemma updateQuoteMap_update_emits params qm u :
  emits zeroSlippage (updateQuoteMap_update params qm u).
Proof.
  unfold updateQuoteMap_update.
  apply emits_bind; [apply emits_lift|]. intros quotes.
  apply emits_bind.
  - apply emits_try_catch. apply emits_bind; [apply emits_call; reflexivity|].
    intros quote. apply emits_bind; [apply emits_lift|]. intros sp.
    apply emits_bind; [apply emits_lift|]. intros route. apply emits_ret.
  - intros [qm'|e]; apply emits_ret.
Qed.

Lemma prefetchRoutes_emits pairRoutes programId :
  emits zeroSlippage (prefetchRoutes pairRoutes programId).
Proof.
  unfold prefetchRoutes. apply emits_bind; [apply emits_call; exact I|].
  intros wps. apply emits_bind; [apply emits_lift|]. intros addrs.
  apply emits_call. exact I.
Qed.

Lemma quoteHop_emits i o pools pairRoutes percents amounts isInput programId
  qm hop :
  emits zeroSlippage
    (quoteHop i o pools pairRoutes percents amounts isInput programId qm hop).
Proof.
  unfold quoteHop. apply emits_bind; [apply emits_lift|]. intros [us qm1].
  apply emits_bind; [apply emits_call; exact I|]. intros params.
  apply emits_foldlM. intros. apply updateQuoteMap_update_emits.
Qed.

Lemma findBestRoutes_emits i o tradeAmount isInput walks pools programId
  options :
  emits zeroSlippage
    (findBestRoutes i o tradeAmount isInput walks pools programId options).
Proof.
  unfold findBestRoutes. destruct (walks !! getRouteId i o) as [pairRoutes|];
    [|apply emits_ret].
  destruct (tradeAmount =? 0); [apply emits_ret|].
  apply emits_bind; [|intros; apply emits_lift].
  unfold quoteRoutes. apply emits_bind; [apply prefetchRoutes_emits|].
  intros _. apply emits_bind; [apply emits_lift|]. intros [percents amounts].
  apply emits_bind; [apply emits_lift|]. intros iteration.
  apply emits_bind; [|intros; apply emits_lift].
  apply emits_foldlM. intros. apply quoteHop_emits.
Qed.

(** *** The whole of [findBestRoutes] *)

Lemma findBestRoutes_Some i o tradeAmount isInput walks pools programId
  options pairRoutes t cleaned t' :
  walks !! getRouteId i o = Some pairRoutes -> tradeAmount <> 0 ->
  quoteRoutes i o tradeAmount isInput pairRoutes pools programId
    (mergeOptions options) t = (Ok cleaned, t') ->
  findBestRoutes i o tradeAmount isInput walks pools programId options t
  = (rankRoutes isInput (mergeOptions options) cleaned, t').
Proof.
  intros Hwalks HT Hquote. unfold findBestRoutes. rewrite Hwalks.
  destruct (Z.eqb_spec tradeAmount 0); [contradiction|].
  rewrite (run_bind_Ok _ _ _ _ _ Hquote). reflexivity.
Qed.

Lemma rankRoutes_spec isInput options (cleaned : gmap Z (list RouteQuote)) :
  (forall l f, cleaned !! 100 = Some l -> f ∈ l ->
     Forall is_Some (calculatedHops f)) ->
  exists res,
    rankRoutes isInput options cleaned = Ok res /\
    (forall l f h, cleaned !! 100 = Some l -> f ∈ l ->
       calculatedHops f = [Some h] ->
       {| quotes := [f]; s_percent := 100;
          totalIn := amountIn h; totalOut := amountOut h |} ∈ res) /\
    (compare_ok isInput -> StronglySorted (better_or_equal isInput) res).
Proof.
  intros Hfull. unfold rankRoutes.
  destruct (getSingleHopSplit_spec cleaned Hfull) as (single & -> & Hsingle).
  rewrite bind_Ok. eexists. split; [reflexivity|]. split.
  - intros l f h Hl Hf Hh. apply elem_of_js_sort, elem_of_app. right. eauto.
  - intros [Htotal Hobj]. apply Sorted_StronglySorted.
    + intros a b c. apply better_or_equal_trans.
    + eapply Sorted_weaken; [exact Hobj|]. apply js_sort_sorted, Htotal.
Qed.

End Claims.

Section Theorems.
Context {C : Collaborators}.

Lemma zero_slippage_threshold est isInput :
  slippageThreshold est isInput hopSlippage
  = if isInput then s_estimatedAmountOut est else s_estimatedAmountIn est.
Proof.
  unfold slippageThreshold, hopSlippage, fromFraction. simpl.
  rewrite !Z.sub_0_r, !Z.add_0_r. destruct isInput.
  - apply Z.div_mul. lia.
  - rewrite <- Z.mul_opp_l, Z.div_mul by lia. lia.
Qed.

Lemma makeHop_quoted u sp quote :
  swapQuoteWithParams sp hopSlippage = Ok quote ->
  hop_quoted (amountSpecifiedIsInput sp) (makeHop u sp quote).
Proof.
  intros Hq. unfold hop_quoted, makeHop. simpl.
  assert (otherAmountThreshold quote
          = if amountSpecifiedIsInput sp then estimatedAmountOut quote
            else estimatedAmountIn quote) as Hthreshold.
  { unfold swapQuoteWithParams in Hq.
    apply bind_Ok_inv in Hq as (est & _ & [= <-]). simpl.
    rewrite zero_slippage_threshold.
    destruct (amountSpecifiedIsInput sp); reflexivity. }
  destruct (aToB sp); simpl; (split; [exists sp; exact Hq|]);
    destruct (amountSpecifiedIsInput sp); auto.
Qed.

Lemma findBestRoutes_early_return
  (inputTokenMint outputTokenMint : string) (tradeAmount : Z)
  (isInput : bool) (walks : gmap string (list (list string)))
  (pools : gmap string TokenPairPool) (programId : string)
  (options : PartialRoutingOptions) (t : list event) :
  tradeAmount = 0 \/
  walks !! getRouteId inputTokenMint outputTokenMint = None ->
  findBestRoutes inputTokenMint outputTokenMint tradeAmount isInput walks
    pools programId options t = (Ok [], t).
Proof.
  intros H. unfold findBestRoutes.
  destruct (walks !! getRouteId inputTokenMint outputTokenMint);
    [|reflexivity].
  destruct H as [->|H]; [reflexivity | discriminate].
Qed.

(** C9.  With a zero trade amount, or with no entry for the pair in
    [walks], [findBestRoutes] returns the empty list and the trace is the
    one it was given: nothing was fetched, nothing was quoted, nothing
    thrown. *)
Theorem C9_early_return_without_calls
  (inputTokenMint outputTokenMint : string) (tradeAmount : Z)
  (isInput : bool) (walks : gmap string (list (list string)))
  (pools : gmap string TokenPairPool) (programId : string)
  (options : PartialRoutingOptions) (t : list event) :
  tradeAmount = 0 \/
  walks !! getRouteId inputTokenMint outputTokenMint = None ->
  findBestRoutes inputTokenMint outputTokenMint tradeAmount isInput walks
    pools programId options t = (Ok [], t).
Proof. apply findBestRoutes_early_return. Qed.

(** C2, as the code has it.  On inputs with which it can run,
    [findBestRoutes] returns a list whatever the swap quotes do: no failure
    of a quote is ever raised, not even when every quote fails.  A quote
    that fails leaves the quote map as it was, so its slot stays empty; and
    [cleanQuoteMap] emits the entries whose every slot was filled, all of
    them and no other. *)
Theorem C2_quote_failures_are_never_raised
  (inputTokenMint outputTokenMint : string) (tradeAmount : Z)
  (isInput : bool) (walks : gmap string (list (list string)))
  (pools : gmap string TokenPairPool) (programId : string)
  (options : PartialRoutingOptions) :
  inputs_ok inputTokenMint outputTokenMint walks pools programId options ->
  (forall t, exists splits t',
     findBestRoutes inputTokenMint outputTokenMint tradeAmount isInput walks
       pools programId options t = (Ok splits, t')) /\
  (forall params qm u t arr sp e,
     qm !! u_percent u = Some arr ->
     params !! quoteIndex u = Some sp ->
     swapQuoteWithParams sp hopSlippage = Err e ->
     updateQuoteMap_update params qm u t
     = (Ok qm, t ++ [EvSwapQuote (Some sp) hopSlippage])) /\
  (forall qm cleaned percent l f,
     cleanQuoteMap tradeAmount isInput qm = Ok cleaned ->
     cleaned !! percent = Some l -> f ∈ l ->
     exists arr i e,
       qm !! percent = Some arr /\ arr !! i = Some (Some e) /\
       cleaned_from tradeAmount isInput percent e f) /\
  (forall qm cleaned percent arr i e,
     cleanQuoteMap tradeAmount isInput qm = Ok cleaned ->
     qm !! percent = Some arr -> arr !! i = Some (Some e) ->
     length (omap id (q_calculatedHops e)) = length (q_route e) ->
     exists l f, cleaned !! percent = Some l /\ f ∈ l /\
                 cleaned_from tradeAmount isInput percent e f).
Proof.
  intros (Hroutes & Hfetch & Hbatch & Hp). split_and!.
  - intros t.
    destruct (walks !! getRouteId inputTokenMint outputTokenMint)
      as [pairRoutes|] eqn:Hwalks;
      [|rewrite findBestRoutes_early_return by auto; eauto].
    destruct (Z.eq_dec tradeAmount 0) as [HT|HT];
      [rewrite findBestRoutes_early_return by auto; eauto|].
    destruct (quoteRoutes_spec inputTokenMint outputTokenMint pools
                pairRoutes isInput programId (fun _ => True)
                (Hroutes _ eq_refl) Hfetch Hbatch
                (fun _ _ _ _ _ _ _ _ _ _ _ _ => I)
                tradeAmount (mergeOptions options) t Hp)
      as (cleaned & t' & Hquote & Hcleaned).
    rewrite (findBestRoutes_Some _ _ _ _ _ _ _ _ _ _ _ _ Hwalks HT Hquote).
    destruct (rankRoutes_spec isInput (mergeOptions options) cleaned)
      as (res & -> & _); [|eauto].
    intros l f Hl Hf. destruct (Hcleaned _ _ _ Hl Hf)
      as (i & e & _ & Hall & _ & _ & Hh & _). rewrite Hh. exact Hall.
  - intros params qm u t arr sp e Harr Hsp Herr.
    unfold updateQuoteMap_update. rewrite Harr, Hsp.
    unfold mbind, M_bind, try_catch, call, lift, mret, M_ret. simpl.
    rewrite Herr. reflexivity.
  - intros qm cleaned percent l f. apply cleanQuoteMap_char.
  - intros qm cleaned percent arr i e. apply cleanQuoteMap_keeps.
Qed.

(** C8.  On inputs with which it can run and a comparator that refines the
    objective, the list returned by [findBestRoutes] contains, for every
    quote of the cleaned map at 100% whose route has one hop, the set made of
    that quote alone, with percent 100 and the hop's amounts as totals; this
    does not depend on the pruning.  The list is sorted by the objective. *)
Theorem C8_single_hop_baselines_are_returned
  (inputTokenMint outputTokenMint : string) (tradeAmount : Z)
  (isInput : bool) (walks : gmap string (list (list string)))
  (pools : gmap string TokenPairPool) (programId : string)
  (options : PartialRoutingOptions) (pairRoutes : list (list string))
  (t : list event) :
  inputs_ok inputTokenMint outputTokenMint walks pools programId options ->
  compare_ok isInput ->
  walks !! getRouteId inputTokenMint outputTokenMint = Some pairRoutes ->
  tradeAmount <> 0 ->
  exists cleaned splits t',
    quoteRoutes inputTokenMint outputTokenMint tradeAmount isInput pairRoutes
      pools programId (mergeOptions options) t = (Ok cleaned, t') /\
    findBestRoutes inputTokenMint outputTokenMint tradeAmount isInput walks
      pools programId options t = (Ok splits, t') /\
    (forall fullFlow f,
       cleaned !! 100 = Some fullFlow -> f ∈ fullFlow ->
       length (calculatedHops f) = 1%nat ->
       exists h, calculatedHops f = [Some h] /\
         {| quotes := [f]; s_percent := 100;
            totalIn := amountIn h; totalOut := amountOut h |} ∈ splits) /\
    StronglySorted (better_or_equal isInput) splits.
Proof.
  intros (Hroutes & Hfetch & Hbatch & Hp) Hcmp Hwalks HT.
  destruct (quoteRoutes_spec inputTokenMint outputTokenMint pools
              pairRoutes isInput programId (fun _ => True)
              (Hroutes _ Hwalks) Hfetch Hbatch
              (fun _ _ _ _ _ _ _ _ _ _ _ _ => I)
              tradeAmount (mergeOptions options) t Hp)
    as (cleaned & t' & Hquote & Hcleaned).
  assert (forall l f, cleaned !! 100 = Some l -> f ∈ l ->
            Forall is_Some (calculatedHops f)) as Hfull.
  { intros l f Hl Hf. destruct (Hcleaned _ _ _ Hl Hf)
      as (i & e & _ & Hall & _ & _ & Hh & _). rewrite Hh. exact Hall. }
  destruct (rankRoutes_spec isInput (mergeOptions options) cleaned Hfull)
    as (res & Hrank & Hsingle & Hsorted).
  exists cleaned, res, t'. split_and!; auto.
  - rewrite (findBestRoutes_Some _ _ _ _ _ _ _ _ _ _ _ _ Hwalks HT Hquote).
    rewrite Hrank. reflexivity.
  - intros l f Hl Hf Hlen.
    destruct (single_hop_shape f (Hfull _ _ Hl Hf) Hlen) as [h Hh]. eauto.
Qed.

End Theorems.

(** *** The theorems on the sample market *)

Import Sample.

Lemma sample_fetcher_ok swap : @fetcher_ok (market swap).
Proof.
  split; intros addresses; [|reflexivity].
  exists (fetchPool <$> addresses). split; [reflexivity|apply length_fmap].
Qed.

Lemma sample_batch_ok swap programId : @batch_ok (market swap) programId.
Proof. intros requests. eexists. reflexivity. Qed.

Lemma sample_batch_keeps_flag swap programId :
  @batch_keeps_flag (market swap) programId.
Proof.
  intros requests params k r sp [= <-] Hr Hsp.
  rewrite list_lookup_fmap, Hr in Hsp. injection Hsp as <-. reflexivity.
Qed.

Lemma sample_routes_ok : routes_ok pools [ ["P1"]; ["P2"; "P3"] ].
Proof.
  split; [discriminate|]. intros route Hroute.
  apply list_elem_of_In in Hroute. simpl in Hroute.
  destruct Hroute as [<-|[<-|[]]]; (split; [discriminate|]);
    intros a Ha; apply list_elem_of_In in Ha; simpl in Ha;
    repeat (destruct Ha as [<-|Ha]; [vm_compute; eauto|]); destruct Ha.
Qed.

Lemma sample_walks swap :
  walks !! @getRouteId (market swap) "SOL" "USDC"
  = Some [ ["P1"]; ["P2"; "P3"] ].
Proof. vm_compute. reflexivity. Qed.

Lemma sample_inputs_ok swap options :
  0 < percentIncrement (mergeOptions options) ->
  @inputs_ok (market swap) "SOL" "USDC" walks pools "prog" options.
Proof.
  intros Hp. split_and!.
  - intros pairRoutes. rewrite sample_walks. intros [= <-].
    apply sample_routes_ok.
  - apply sample_fetcher_ok.
  - apply sample_batch_ok.
  - exact Hp.
Qed.

Lemma BN_cmp_le a b : BN_cmp a b <= 0 <-> a <= b.
Proof. unfold BN_cmp. destruct (Z.compare_spec a b); lia. Qed.

Lemma sample_compare_ok swap isInput : @compare_ok (market swap) isInput.
Proof.
  split; intros a b; simpl; unfold byObjective, better_or_equal;
    destruct isInput; rewrite ?BN_cmp_le; lia.
Qed.

(** C1.  The specification equates the top-level [amountIn] of a route quote
    with the [amountIn] of its first hop; [cleanQuoteMap] does not keep this
    below 100%.  A trade of 1000 SOL for USDC, input-specified, split in
    steps of 50%: the quote that [cleanQuoteMap] emits for route [P1] at 50%
    has one hop, whose [amountIn] is 500, and a top-level [amountIn] of
    1000, the whole trade amount. *)
Theorem C1_partial_percent_quote_has_whole_amountIn :
  exists cleaned f rest h,
    (@quoteRoutes (market flatSwap) "SOL" "USDC" 1000 true
       [ ["P1"]; ["P2"; "P3"] ] pools "prog" (mergeOptions (options 50))
       []).1 = Ok cleaned /\
    cleaned !! 50 = Some (f :: rest) /\
    percent f = 50 /\ route f = ["P1"] /\
    calculatedHops f = [Some h] /\
    amountIn h = 500 /\ r_amountIn f = 1000.
Proof.
  eexists _, _, _, _. split; [vm_compute; reflexivity|].
  split; [vm_compute; reflexivity|]. simpl.
  split_and!; reflexivity.
Qed.

(** The same trade, output-specified (1000 USDC wanted): the quote at 50%
    ends with a hop whose [amountOut] is 500 and has a top-level [amountOut]
    of 1000. *)
Lemma C1_partial_percent_quote_has_whole_amountOut :
  exists cleaned f rest h,
    (@quoteRoutes (market flatSwap) "SOL" "USDC" 1000 false
       [ ["P1"]; ["P2"; "P3"] ] pools "prog" (mergeOptions (options 50))
       []).1 = Ok cleaned /\
    cleaned !! 50 = Some (f :: rest) /\
    percent f = 50 /\ route f = ["P1"] /\
    calculatedHops f = [Some h] /\
    amountOut h = 500 /\ r_amountOut f = 1000.
Proof.
  eexists _, _, _, _. split; [vm_compute; reflexivity|].
  split; [vm_compute; reflexivity|]. simpl.
  split_and!; reflexivity.
Qed.

(** C2.  The error policy of the specification does not hold: on a market
    where every swap overflows, the result set is empty and overflows
    occurred, yet [findBestRoutes] returns the empty list; no error is
    raised. *)
Lemma C2_empty_result_after_overflows_is_returned :
  ~ @errorPolicy (market overflowingSwap)
      (@findBestRoutes (market overflowingSwap) "SOL" "USDC" 1000 true walks
         pools "prog" (options 50) []).
Proof.
  unfold errorPolicy.
  assert ((@findBestRoutes (market overflowingSwap) "SOL" "USDC" 1000 true
             walks pools "prog" (options 50) []).1 = Ok []) as ->
    by (vm_compute; reflexivity).
  intros H. apply H. split; [reflexivity|].
  eexists _, _. split; [|reflexivity].
  apply (list_elem_of_lookup_2 _ 3%nat). vm_compute. reflexivity.
Qed.

Lemma C2_sample :
  exists splits t',
    @findBestRoutes (market overflowingSwap) "SOL" "USDC" 1000 true walks
      pools "prog" (options 50) [] = (Ok splits, t').
Proof.
  apply (proj1 (@C2_quote_failures_are_never_raised (market overflowingSwap)
                  "SOL" "USDC" 1000 true walks pools "prog" (options 50)
                  (sample_inputs_ok overflowingSwap (options 50) eq_refl))).
Defined.

(** With every partial quote pruned away the ranker has nothing to rank,
    and the baseline of route [P1] is still returned. *)
Lemma C8_sample :
  exists cleaned splits t',
    @quoteRoutes (market flatSwap) "SOL" "USDC" 1000 true
      [ ["P1"]; ["P2"; "P3"] ] pools "prog"
      (mergeOptions (optionsPruneAll 50)) []
    = (Ok cleaned, t') /\
    @findBestRoutes (market flatSwap) "SOL" "USDC" 1000 true walks pools
      "prog" (optionsPruneAll 50) [] = (Ok splits, t') /\
    (forall fullFlow f,
       cleaned !! 100 = Some fullFlow -> f ∈ fullFlow ->
       length (calculatedHops f) = 1%nat ->
       exists h, calculatedHops f = [Some h] /\
         {| quotes := [f]; s_percent := 100;
            totalIn := amountIn h; totalOut := amountOut h |} ∈ splits) /\
    StronglySorted (better_or_equal true) splits.
Proof.
  apply (@C8_single_hop_baselines_are_returned (market flatSwap)
           "SOL" "USDC" 1000 true walks pools "prog" (optionsPruneAll 50)).
  - apply sample_inputs_ok. reflexivity.
  - apply sample_compare_ok.
  - vm_compute. reflexivity.
  - lia.
Defined.

Example C8_sample_result :
  exists f t',
    @findBestRoutes (market flatSwap) "SOL" "USDC" 1000 true walks pools
      "prog" (optionsPruneAll 50) []
    = (Ok [ {| quotes := [f]; s_percent := 100;
               totalIn := 1000; totalOut := 990 |} ], t') /\
    route f = ["P1"].
Proof. eexists _, _. split; [vm_compute; reflexivity | reflexivity]. Qed.

Lemma C9_sample :
  @findBestRoutes (market flatSwap) "SOL" "USDC" 0 true walks pools "prog"
    (options 50) [] = (Ok [], []).
Proof.
  apply (@C9_early_return_without_calls (market flatSwap)).
  left. reflexivity.
Defined.

End RouterProps.

(** ** Add-liquidity quotes: behaviour beyond the specification's claims *)

Module LiquidityBehaviour.
Import Liquidity LiquiditySpec LiquidityProps.

Section Behaviour.
Context {PM : PositionMath}.

Lemma checkParam_Ok param : checkParam param = Ok tt -> valid param.
Proof.
  unfold checkParam, valid. intros H.
  apply bind_Ok_inv in H as [[] [H1 H]].
  apply bind_Ok_inv in H as [[] [H2 H3]].
  apply invariant_Ok in H1, H2, H3.
  split_and!; auto.
  apply orb_true_iff in H3 as [H3|H3]; apply String.eqb_eq in H3; auto.
Qed.

Lemma checkParam_cases param :
  checkParam param = Ok tt \/
  exists msg, checkParam param = Err (InvariantFailed msg).
Proof.
  unfold checkParam, invariant.
  destruct (checkTickInBounds (tickLowerIndex param));
    [|right; eexists; reflexivity].
  destruct (checkTickInBounds (tickUpperIndex param));
    [|right; eexists; reflexivity].
  destruct (_ || _); [left; reflexivity | right; eexists; reflexivity].
Qed.

(** The estimates on either side of the range. *)
Lemma estimates_Ok_inv params a b :
  getTokenEstimatesFromLiquidity params = Ok (a, b) ->
  (l_tickCurrentIndex params < l_tickLowerIndex params -> b = 0) /\
  (l_tickLowerIndex params <= l_tickCurrentIndex params ->
   l_tickUpperIndex params <= l_tickCurrentIndex params -> a = 0).
Proof.
  unfold getTokenEstimatesFromLiquidity.
  destruct (liquidity params =? ZERO); [discriminate|].
  destruct (Z.ltb_spec (l_tickCurrentIndex params) (l_tickLowerIndex params)).
  - intros H'. apply bind_Ok_inv in H' as [x [_ Hx]]. inversion Hx; subst.
    split; [reflexivity | lia].
  - destruct (Z.ltb_spec (l_tickCurrentIndex params)
                (l_tickUpperIndex params)).
    + intros _. split; lia.
    + intros H'. apply bind_Ok_inv in H' as [x [_ Hx]]. inversion Hx; subst.
      split; [lia | reflexivity].
Qed.

(** An error of the estimates, for a nonzero liquidity, is an error of a
    conversion of that liquidity. *)
(** What a quote by liquidity returns for a nonzero liquidity. *)
Lemma byLiquidity_Ok_inv params q :
  increaseLiquidityQuoteByLiquidityWithParams params = Ok q ->
  liquidity params <> 0 ->
  exists a b aLower bLower aUpper bUpper,
    getTokenEstimatesFromLiquidity params = Ok (a, b) /\
    q = {| tokenMaxA := BN_max (BN_max a aLower) aUpper;
           tokenMaxB := BN_max (BN_max b bLower) bUpper;
           tokenEstA := a; tokenEstB := b;
           liquidityAmount := liquidity params |}.
Proof.
  unfold increaseLiquidityQuoteByLiquidityWithParams. intros H HL.
  destruct (Z.eqb_spec (liquidity params) ZERO) as [E|_]; [contradiction|].
  apply bind_Ok_inv in H as [[a b] [Hab H]].
  destruct (getSlippageBoundForSqrtPrice _ _) as [[pl tl] [pu tu]].
  apply bind_Ok_inv in H as [[al bl] [Hl H]].
  apply bind_Ok_inv in H as [[au bu] [Hu H]].
  inversion H; subst. eexists a, b, al, bl, au, bu.
  split; [assumption | reflexivity].
Qed.

Lemma byLiquidity_max_ge_est params q :
  increaseLiquidityQuoteByLiquidityWithParams params = Ok q ->
  tokenEstA q <= tokenMaxA q /\ tokenEstB q <= tokenMaxB q.
Proof.
  intros H. destruct (Z.eq_dec (liquidity params) 0) as [E|NE].
  - unfold increaseLiquidityQuoteByLiquidityWithParams in H.
    rewrite E in H. simpl in H. inversion H. simpl. unfold ZERO. lia.
  - destruct (byLiquidity_Ok_inv _ _ H NE)
      as (a & b & al & bl & au & bu & _ & ->).
    simpl. rewrite !BN_max_max. lia.
Qed.

(** X1.  Both quotes by input token check their parameter before anything
    else: a lower or upper tick out of bounds, or an input mint that is
    neither mint of the pool, is answered with a failed invariant by the
    price-slippage quote and by the deprecated quote alike, whatever the
    amount, even zero. *)
Theorem X1_invalid_parameters_are_rejected
  (param : IncreaseLiquidityQuoteParam) :
  ~ valid param ->
  exists msg,
    increaseLiquidityQuoteByInputTokenWithParams_PriceSlippage param
      = Err (InvariantFailed msg) /\
    increaseLiquidityQuoteByInputTokenWithParams param
      = Err (InvariantFailed msg).
Proof.
  intros Hn. destruct (checkParam_cases param) as [H|[msg Hmsg]].
  - destruct Hn. apply checkParam_Ok, H.
  - exists msg.
    unfold increaseLiquidityQuoteByInputTokenWithParams_PriceSlippage,
      increaseLiquidityQuoteByInputTokenWithParams.
    rewrite Hmsg. split; reflexivity.
Qed.

(** X2.  A quote returned by the price-slippage quote by input token was
    made for a parameter that passes the checks; its [liquidityAmount] is
    the liquidity that [getLiquidityFromInputToken] computes from the input,
    and each maximum is at least the estimate, the all-zero quote
    included. *)
Theorem X2_price_slippage_quote_carries_the_input_liquidity
  (param : IncreaseLiquidityQuoteParam) (q : IncreaseLiquidityQuote) :
  increaseLiquidityQuoteByInputTokenWithParams_PriceSlippage param = Ok q ->
  valid param /\
  getLiquidityFromInputToken param = Ok (liquidityAmount q) /\
  tokenEstA q <= tokenMaxA q /\ tokenEstB q <= tokenMaxB q.
Proof.
  unfold increaseLiquidityQuoteByInputTokenWithParams_PriceSlippage.
  intros H. apply bind_Ok_inv in H as [[] [Hc H]].
  apply bind_Ok_inv in H as [L [HL H]].
  split; [apply checkParam_Ok, Hc|].
  destruct (Z.eqb_spec L ZERO) as [E|NE].
  - inversion H; subst. simpl. split; [assumption | unfold ZERO; lia].
  - split; [|eapply byLiquidity_max_ge_est; eassumption].
    apply byLiquidity_Ok_inv in H as (a & b & al & bl & au & bu & _ & ->);
      [|exact NE].
    exact HL.
Qed.

(** X3.  A quote by liquidity estimates one token only when the current
    tick is outside the range: no token B below the lower tick, no token A
    from the upper tick on (the upper tick included). *)
Theorem X3_quote_by_liquidity_is_one_sided_outside_the_range
  (params : IncreaseLiquidityQuoteByLiquidityParam)
  (q : IncreaseLiquidityQuote) :
  increaseLiquidityQuoteByLiquidityWithParams params = Ok q ->
  (l_tickCurrentIndex params < l_tickLowerIndex params -> tokenEstB q = 0) /\
  (l_tickLowerIndex params <= l_tickCurrentIndex params ->
   l_tickUpperIndex params <= l_tickCurrentIndex params -> tokenEstA q = 0).
Proof.
  intros H. destruct (Z.eq_dec (liquidity params) 0) as [E|NE].
  - unfold increaseLiquidityQuoteByLiquidityWithParams in H.
    rewrite E in H. simpl in H. inversion H. simpl. split; reflexivity.
  - destruct (byLiquidity_Ok_inv _ _ H NE)
      as (a & b & al & bl & au & bu & Hab & ->).
    simpl. apply estimates_Ok_inv, Hab.
Qed.

(** X4.  Where the classification by tick of the price-slippage quote and
    the classification by price of the deprecated quote agree, in range
    ([tickLower <= tickCurrent < tickUpper]) or above range
    ([tickUpper < tickCurrent]), the two quotes by input token of a nonzero
    amount agree on the liquidity and on both estimates whenever that
    liquidity is not zero; they differ in the maxima only. *)
Theorem X4_deprecated_and_price_slippage_quotes_agree
  (param : IncreaseLiquidityQuoteParam) (q q' : IncreaseLiquidityQuote) :
  tokenMintA param <> tokenMintB param ->
  inputTokenAmount param <> 0 ->
  (getStrictPositionStatus (sqrtPrice param) (tickLowerIndex param)
     (tickUpperIndex param) = InRange
   /\ tickLowerIndex param <= tickCurrentIndex param < tickUpperIndex param)
  \/ (getStrictPositionStatus (sqrtPrice param) (tickLowerIndex param)
        (tickUpperIndex param) = AboveRange
      /\ tickLowerIndex param <= tickCurrentIndex param
      /\ tickUpperIndex param < tickCurrentIndex param) ->
  increaseLiquidityQuoteByInputTokenWithParams param = Ok q ->
  increaseLiquidityQuoteByInputTokenWithParams_PriceSlippage param = Ok q' ->
  liquidityAmount q <> 0 ->
  liquidityAmount q' = liquidityAmount q /\
  tokenEstA q' = tokenEstA q /\ tokenEstB q' = tokenEstB q.
Proof.
  intros Hne Hamt Hcase Hold Hnew HL.
  unfold increaseLiquidityQuoteByInputTokenWithParams in Hold.
  unfold increaseLiquidityQuoteByInputTokenWithParams_PriceSlippage in Hnew.
  apply bind_Ok_inv in Hold as [[] [Hc Hold]]. cbv zeta in Hold.
  rewrite Hc, bind_Ok in Hnew.
  apply checkParam_Ok in Hc as (_ & _ & Hmint).
  apply bind_Ok_inv in Hnew as [L [HLnew Hnew]].
  unfold getLiquidityFromInputToken in HLnew.
  destruct (Z.eqb_spec (inputTokenAmount param) ZERO) as [|_]; [contradiction|].
  cbv zeta in HLnew.
  destruct Hcase as [[Hst Ht]|(Hst & Hl & Hu)]; rewrite Hst in Hold.
  - (* in range *)
    destruct (Z.ltb_spec (tickCurrentIndex param) (tickLowerIndex param));
      [lia|].
    destruct (Z.gtb_spec (tickCurrentIndex param) (tickUpperIndex param));
      [lia|].
    unfold quotePositionInRange in Hold.
    apply bind_Ok_inv in Hold as [est [Hest Hold]]. inversion Hold; subst q.
    clear Hold. simpl in *.
    unfold getQuotePositionInRange in Hest. cbv zeta in Hest.
    rewrite HLnew, bind_Ok in Hest.
    apply bind_Ok_inv in Hest as [a [Ha Hest]].
    apply bind_Ok_inv in Hest as [b [Hb Hest]]. inversion Hest; subst est.
    clear Hest. simpl in *.
    destruct (Z.eqb_spec L ZERO) as [|NE]; [contradiction|].
    apply byLiquidity_Ok_inv in Hnew
      as (a' & b' & al & bl & au & bu & Hab & ->); [|exact NE].
    simpl in *. unfold getTokenEstimatesFromLiquidity in Hab. simpl in Hab.
    destruct (Z.eqb_spec L ZERO); [contradiction|].
    destruct (Z.ltb_spec (tickCurrentIndex param) (tickLowerIndex param));
      [lia|].
    destruct (Z.ltb_spec (tickCurrentIndex param) (tickUpperIndex param));
      [|lia].
    rewrite Ha, bind_Ok, Hb, bind_Ok in Hab. inversion Hab; subst. auto.
  - (* above range *)
    destruct (Z.ltb_spec (tickCurrentIndex param) (tickLowerIndex param));
      [lia|].
    destruct (Z.gtb_spec (tickCurrentIndex param) (tickUpperIndex param));
      [|lia].
    unfold quotePositionAboveRange in Hold.
    apply bind_Ok_inv in Hold as [est [Hest Hold]]. inversion Hold; subst q.
    clear Hold. simpl in *.
    unfold getQuotePositionAboveRange in Hest.
    destruct (String.eqb_spec (tokenMintB param) (inputTokenMint param))
      as [EB|NB]; simpl in Hest;
      [|inversion Hest; subst est; simpl in HL; unfold ZERO in HL; lia].
    destruct (String.eqb_spec (tokenMintA param) (inputTokenMint param))
      as [EA|NA]; [congruence|].
    rewrite HLnew, bind_Ok in Hest.
    apply bind_Ok_inv in Hest as [b [Hb Hest]]. inversion Hest; subst est.
    clear Hest. simpl in *.
    destruct (Z.eqb_spec L ZERO) as [|NE]; [contradiction|].
    apply byLiquidity_Ok_inv in Hnew
      as (a' & b' & al & bl & au & bu & Hab & ->); [|exact NE].
    simpl in *. unfold getTokenEstimatesFromLiquidity in Hab. simpl in Hab.
    destruct (Z.eqb_spec L ZERO); [contradiction|].
    destruct (Z.ltb_spec (tickCurrentIndex param) (tickLowerIndex param));
      [lia|].
    destruct (Z.ltb_spec (tickCurrentIndex param) (tickUpperIndex param));
      [lia|].
    rewrite Hb, bind_Ok in Hab. inversion Hab; subst. auto.
Qed.

(** X5.  In the deprecated quote by input token the maxima are the
    estimates adjusted up by [adjustForSlippage], and the token on the far
    side of the range is not asked for: below range [tokenMaxB] and
    [tokenEstB] are zero, above range [tokenMaxA] and [tokenEstA] are. *)
Theorem X5_deprecated_quote_adjusts_the_estimates_for_slippage
  (param : IncreaseLiquidityQuoteParam) (q : IncreaseLiquidityQuote) :
  increaseLiquidityQuoteByInputTokenWithParams param = Ok q ->
  match getStrictPositionStatus (sqrtPrice param) (tickLowerIndex param)
          (tickUpperIndex param) with
  | BelowRange =>
      tokenMaxA q = adjustForSlippage (tokenEstA q) (slippage param) true /\
      tokenMaxB q = 0 /\ tokenEstB q = 0
  | InRange =>
      tokenMaxA q = adjustForSlippage (tokenEstA q) (slippage param) true /\
      tokenMaxB q = adjustForSlippage (tokenEstB q) (slippage param) true
  | AboveRange =>
      tokenMaxA q = 0 /\ tokenEstA q = 0 /\
      tokenMaxB q = adjustForSlippage (tokenEstB q) (slippage param) true
  end.
Proof.
  unfold increaseLiquidityQuoteByInputTokenWithParams.
  intros H. apply bind_Ok_inv in H as [[] [_ H]]. cbv zeta in H.
  destruct (getStrictPositionStatus _ _ _).
  - unfold quotePositionBelowRange in H.
    apply bind_Ok_inv in H as [e [He H]]. inversion H; subst; clear H. simpl.
    split_and!; auto.
    unfold getQuotePositionBelowRange in He.
    destruct (negb _); [inversion He; reflexivity|].
    apply bind_Ok_inv in He as [L [_ He]].
    apply bind_Ok_inv in He as [a [_ He]]. inversion He; reflexivity.
  - unfold quotePositionInRange in H.
    apply bind_Ok_inv in H as [e [He H]]. inversion H; subst; clear H. simpl.
    auto.
  - unfold quotePositionAboveRange in H.
    apply bind_Ok_inv in H as [e [He H]]. inversion H; subst; clear H. simpl.
    split_and!; auto.
    unfold getQuotePositionAboveRange in He.
    destruct (negb _); [inversion He; reflexivity|].
    apply bind_Ok_inv in He as [L [_ He]].
    apply bind_Ok_inv in He as [a [_ He]]. inversion He; reflexivity.
Qed.

(** X7.  The price-slippage quote by input token answers the all-zero quote
    when the input is the token that the position cannot take: token B with
    the current tick below the lower tick, token A with the current tick
    past the upper tick (the two mints of a pool differ). *)
Theorem X7_price_slippage_wrong_side_quotes_zero
  (param : IncreaseLiquidityQuoteParam) :
  valid param ->
  tokenMintA param <> tokenMintB param ->
  (tickCurrentIndex param < tickLowerIndex param
   /\ inputTokenMint param = tokenMintB param)
  \/ (tickLowerIndex param <= tickCurrentIndex param
      /\ tickUpperIndex param < tickCurrentIndex param
      /\ inputTokenMint param = tokenMintA param) ->
  increaseLiquidityQuoteByInputTokenWithParams_PriceSlippage param
    = Ok zeroQuote.
Proof.
  intros Hv Hne Hside.
  unfold increaseLiquidityQuoteByInputTokenWithParams_PriceSlippage.
  rewrite (checkParam_valid _ Hv), bind_Ok.
  assert (HL : getLiquidityFromInputToken param = Ok ZERO).
  { unfold getLiquidityFromInputToken.
    destruct (inputTokenAmount param =? ZERO); [reflexivity|].
    destruct Hside as [[Ht Hm]|(Hl & Hu & Hm)].
    - destruct (Z.ltb_spec (tickCurrentIndex param) (tickLowerIndex param));
        [|lia].
      destruct (String.eqb_spec (tokenMintA param) (inputTokenMint param));
        [congruence | reflexivity].
    - destruct (Z.ltb_spec (tickCurrentIndex param) (tickLowerIndex param));
        [lia|].
      destruct (Z.gtb_spec (tickCurrentIndex param) (tickUpperIndex param));
        [|lia].
      destruct (String.eqb_spec (tokenMintA param) (inputTokenMint param));
        [reflexivity | congruence]. }
  rewrite HL, bind_Ok. reflexivity.
Qed.

End Behaviour.

(** *** The theorems at concrete inputs *)

Import SampleMath.

(** A lower tick one past the smallest tick, and no input at all. *)
Lemma X1_sample :
  exists msg,
    @increaseLiquidityQuoteByInputTokenWithParams_PriceSlippage math
       {| inputTokenAmount := 0; inputTokenMint := "A";
          tokenMintA := "A"; tokenMintB := "B";
          tickCurrentIndex := 0; sqrtPrice := Q64;
          tickLowerIndex := -443637; tickUpperIndex := 64;
          slippage := fromFraction 1 100 |} = Err (InvariantFailed msg) /\
    @increaseLiquidityQuoteByInputTokenWithParams math
       {| inputTokenAmount := 0; inputTokenMint := "A";
          tokenMintA := "A"; tokenMintB := "B";
          tickCurrentIndex := 0; sqrtPrice := Q64;
          tickLowerIndex := -443637; tickUpperIndex := 64;
          slippage := fromFraction 1 100 |} = Err (InvariantFailed msg).
Proof.
  apply (@X1_invalid_parameters_are_rejected math).
  intros [H _]. vm_compute in H. discriminate.
Defined.

Lemma X2_sample :
  exists q,
    @increaseLiquidityQuoteByInputTokenWithParams_PriceSlippage math
       (param "A" 1000 0 Q64) = Ok q /\
    (valid (param "A" 1000 0 Q64) /\
     @getLiquidityFromInputToken math (param "A" 1000 0 Q64)
       = Ok (liquidityAmount q) /\
     tokenEstA q <= tokenMaxA q /\ tokenEstB q <= tokenMaxB q).
Proof.
  eexists. split; [vm_compute; reflexivity|].
  apply (@X2_price_slippage_quote_carries_the_input_liquidity math).
  vm_compute. reflexivity.
Defined.

(** Below the range, and on the upper tick. *)
Lemma X3_sample :
  (exists q,
     @increaseLiquidityQuoteByLiquidityWithParams math
        (byLiquidity 1000000 (-100) (linearSqrtPrice (-100))) = Ok q /\
     tokenEstB q = 0) /\
  (exists q,
     @increaseLiquidityQuoteByLiquidityWithParams math
        (byLiquidity 1000000 64 (linearSqrtPrice 64)) = Ok q /\
     tokenEstA q = 0).
Proof.
  split; eexists; (split; [vm_compute; reflexivity|]).
  - apply (proj1 (@X3_quote_by_liquidity_is_one_sided_outside_the_range math
                    (byLiquidity 1000000 (-100) (linearSqrtPrice (-100))) _
                    eq_refl)).
    simpl. lia.
  - apply (proj2 (@X3_quote_by_liquidity_is_one_sided_outside_the_range math
                    (byLiquidity 1000000 64 (linearSqrtPrice 64)) _
                    eq_refl)); simpl; lia.
Defined.

(** Token A, 1000 units, in range at tick 0. *)
Lemma X4_sample :
  exists q q',
    @increaseLiquidityQuoteByInputTokenWithParams math
       (param "A" 1000 0 Q64) = Ok q /\
    @increaseLiquidityQuoteByInputTokenWithParams_PriceSlippage math
       (param "A" 1000 0 Q64) = Ok q' /\
    liquidityAmount q' = liquidityAmount q /\
    tokenEstA q' = tokenEstA q /\ tokenEstB q' = tokenEstB q.
Proof.
  eexists _, _. split; [vm_compute; reflexivity|].
  split; [vm_compute; reflexivity|].
  apply (@X4_deprecated_and_price_slippage_quotes_agree math
           (param "A" 1000 0 Q64)).
  - simpl. discriminate.
  - simpl. lia.
  - left. split; [vm_compute; reflexivity | simpl; lia].
  - vm_compute. reflexivity.
  - vm_compute. reflexivity.
  - vm_compute. discriminate.
Defined.

Lemma X5_sample :
  exists q,
    @increaseLiquidityQuoteByInputTokenWithParams math
       (param "A" 1000 0 Q64) = Ok q /\
    tokenMaxA q = adjust (tokenEstA q) (fromFraction 1 100) true /\
    tokenMaxB q = adjust (tokenEstB q) (fromFraction 1 100) true.
Proof.
  eexists. split; [vm_compute; reflexivity|].
  apply (@X5_deprecated_quote_adjusts_the_estimates_for_slippage math
           (param "A" 1000 0 Q64)).
  vm_compute. reflexivity.
Defined.

(** A pool price of zero: the conversion to token A divides by it. *)
(** Token B below the range. *)
Lemma X7_sample :
  @increaseLiquidityQuoteByInputTokenWithParams_PriceSlippage math
     (param "B" 1000 (-100) (linearSqrtPrice (-100))) = Ok zeroQuote.
Proof.
  apply (@X7_price_slippage_wrong_side_quotes_zero math).
  - unfold valid. simpl.
    split_and!; [reflexivity | reflexivity | right; reflexivity].
  - simpl. discriminate.
  - left. simpl. split; [lia | reflexivity].
Defined.

End LiquidityBehaviour.

(** ** The split router: behaviour beyond the specification's claims *)

Module RouterBehaviour.
Import Router RouterSpec RouterProps.

(** *** Percentage amounts *)

Lemma generatePercentageAmounts_out_of_range T p :
  p < 0 \/ 100 < p -> generatePercentageAmounts T p = Some ([], []).
Proof.
  intros Hp. unfold generatePercentageAmounts. simpl.
  replace (le_quotient 1 p) with false; [reflexivity|].
  unfold le_quotient.
  destruct (Z.ltb_spec 0 p).
  - symmetry. apply Z.leb_gt. lia.
  - destruct (Z.eqb_spec p 0); [lia|]. symmetry. apply Z.leb_gt. lia.
Qed.

Lemma generatePercentageAmounts_Some T p :
  p <> 0 -> exists pa, generatePercentageAmounts T p = Some pa.
Proof.
  intros Hp. destruct (Z.lt_trichotomy p 0) as [H|[H|H]]; [|contradiction|].
  - eexists. apply generatePercentageAmounts_out_of_range. auto.
  - eexists. apply generatePercentageAmounts_eq, H.
Qed.

Lemma last_fmap_seqZ {A} (f : Z -> A) m n :
  0 < n -> last (f <$> seqZ m n) = Some (f (m + n - 1)).
Proof.
  intros Hn. rewrite fmap_last, last_lookup, length_seqZ.
  replace (Init.Nat.pred (Z.to_nat n)) with (Z.to_nat (n - 1)) by lia.
  rewrite lookup_seqZ_lt by lia. simpl. f_equal. f_equal. lia.
Qed.

(** X8.  With an increment of zero the loop of [generatePercentageAmounts]
    never ends: [100 / 0] is [Infinity], the test [i <= 100 / minPercent]
    holds for every [i], and whatever bound is put on the number of rounds,
    the loop reaches it. *)
Theorem X8_zero_increment_never_ends (fuel : nat) (T i : Z)
  (percents amounts : list Z) :
  generatePercentageAmounts_loop fuel T 0 i percents amounts = None.
Proof. apply generatePercentageAmounts_loop_zero. Qed.

(** X9.  An increment that is negative or larger than 100 gives no percent
    and no amount: the body of the loop never runs. *)
Theorem X9_increment_out_of_range_gives_no_percent (T p : Z) :
  p < 0 \/ 100 < p -> generatePercentageAmounts T p = Some ([], []).
Proof. apply generatePercentageAmounts_out_of_range. Qed.

(** X10.  For a trade amount [T >= 0] and an increment [p > 0], the percents
    lie in [(0, 100]] and the amounts in [[0, T]]; 100 is among the percents
    exactly when [p] divides 100, and then the last percent is 100 and the
    last amount is the whole of [T]. *)
Theorem X10_hundred_percent_step (T p : Z) :
  0 <= T -> 0 < p ->
  exists percents amounts,
    generatePercentageAmounts T p = Some (percents, amounts) /\
    (100 ∈ percents <-> (p | 100)) /\
    ((p | 100) -> last percents = Some 100 /\ last amounts = Some T) /\
    Forall (fun x => 0 < x <= 100) percents /\
    Forall (fun a => 0 <= a <= T) amounts.
Proof.
  intros HT Hp. eexists _, _. split; [apply generatePercentageAmounts_eq, Hp|].
  assert (Hdiv : forall i, 1 <= i <= 100 / p -> i * p <= 100).
  { intros i Hi. pose proof (Z.mul_div_le 100 p Hp). nia. }
  split_and!.
  - rewrite list_elem_of_fmap. split.
    + intros (i & Hi & _). exists i. lia.
    + intros [k Hk]. exists k. split; [lia|].
      apply elem_of_seqZ.
      assert (100 / p = k) as -> by (rewrite Hk; apply Z.div_mul; lia).
      nia.
  - intros [k Hk].
    assert (Hn : 100 / p = k) by (rewrite Hk; apply Z.div_mul; lia).
    assert (0 < k) by nia.
    rewrite !last_fmap_seqZ by lia. rewrite Hn.
    replace (1 + k - 1) with k by lia. rewrite <- Hk.
    split; [reflexivity|]. f_equal. apply Z.quot_mul. lia.
  - apply Forall_fmap, Forall_forall. intros i Hi%elem_of_seqZ. simpl.
    split; [nia | apply Hdiv; lia].
  - apply Forall_fmap, Forall_forall. intros i Hi%elem_of_seqZ. simpl.
    assert (i * p <= 100) by (apply Hdiv; lia).
    rewrite Z.quot_div_nonneg by nia.
    split; [apply Z.div_pos; nia|].
    apply Z.div_le_upper_bound; [lia|]. nia.
Qed.

(** *** Sparse arrays *)

Lemma array_get_ge {A} (a : list (option A)) k :
  (length a <= k)%nat -> array_get a k = None.
Proof. intros H. unfold array_get. rewrite lookup_ge_None_2; auto. Qed.

Lemma array_get_array_set_ne {A} (a : list (option A)) j k x :
  j <> k -> array_get (array_set j x a) k = array_get a k.
Proof.
  intros Hjk. unfold array_set. destruct (decide (j < length a)%nat).
  - apply array_get_insert_ne, Hjk.
  - destruct (decide (k < length a)%nat).
    + unfold array_get. rewrite lookup_app_l by lia. reflexivity.
    + rewrite (array_get_ge a k) by lia. unfold array_get.
      rewrite lookup_app_r by lia.
      destruct (decide (k - length a < j - length a)%nat).
      * rewrite lookup_app_l by (rewrite length_replicate; lia).
        rewrite lookup_replicate_2 by lia. reflexivity.
      * rewrite lookup_app_r by (rewrite length_replicate; lia).
        rewrite length_replicate.
        destruct (k - length a - (j - length a))%nat eqn:E; [lia|].
        reflexivity.
Qed.

Lemma array_get_array_set_eq {A} (a : list (option A)) j x :
  array_get (array_set j x a) j = Some x.
Proof.
  unfold array_set. destruct (decide (j < length a)%nat).
  - apply array_get_insert_eq. assumption.
  - unfold array_get. rewrite lookup_app_r by lia.
    rewrite lookup_app_r by (rewrite length_replicate; lia).
    rewrite length_replicate, Nat.sub_diag. reflexivity.
Qed.

Lemma array_get_Array {A} n k : array_get (@Array A n) k = None.
Proof.
  unfold array_get, Array. destruct (decide (k < n)%nat).
  - rewrite lookup_replicate_2 by lia. reflexivity.
  - rewrite lookup_ge_None_2 by (rewrite length_replicate; lia). reflexivity.
Qed.

(** *** Building the requests of a hop *)

Section Requests.
Context (inputTokenMint outputTokenMint : string).
Context (pools : gmap string TokenPairPool).
Context (pairRoutes : list (list string)) (hop : nat) (isInput : bool).

(** The entry of route [j] at [percent]. *)
Local Abbreviation entry_at qm percent j :=
  (qm !! percent ≫= fun arr : list (option PartialQuote) => array_get arr j).

(** Route [j] does not start at [hop]. *)
Local Abbreviation continuing j :=
  (forall route, pairRoutes !! j = Some route ->
                 hop <> start_hop isInput route).

(** The update [u] of a route that reaches [hop]: it asks at a pool of the
    route; a route that starts at [hop] asks with an amount of [amounts] in
    the token of the trade, a route that continues asks with what its
    previous hop, recorded in [qm], gave. *)
Local Abbreviation asks_from amounts qm u :=
  (hopIndex u = hop /\
   u_percent u ∈ (amounts : list (Z * Z)).*1 /\
   whirlpool (request u) = u_address u /\
   r_amountSpecifiedIsInput (request u) = isInput /\
   exists route a pool,
     pairRoutes !! routeIndex u = Some route /\ (hop < length route)%nat /\
     a ∈ route /\ pools !! a = Some pool /\ u_address u = address pool /\
     if bool_decide (hop = start_hop isInput route)
     then (u_percent u, r_tokenAmount (request u)) ∈ amounts /\
          tradeTokenMint (request u)
          = (if isInput then inputTokenMint else outputTokenMint)
     else exists e lastHop,
          entry_at qm (u_percent u) (routeIndex u) = Some e /\
          array_get (q_calculatedHops e)
            (if isInput then hop - 1 else hop + 1)%nat = Some lastHop /\
          r_tokenAmount (request u)
          = (if isInput then amountOut lastHop else amountIn lastHop) /\
          tradeTokenMint (request u)
          = (if isInput then outputMint lastHop else inputMint lastHop)).

(** One round of the inner loop, when it does not throw: the entries of
    the routes that continue are as they were, no key is lost, and at most
    one update is added, numbered by its place. *)
Lemma build_route_inv percent tradeAmount us qm k us' qm' :
  buildQuoteUpdateRequests_route inputTokenMint outputTokenMint pools
    pairRoutes hop isInput percent tradeAmount (us, qm) k = Ok (us', qm') ->
  (forall p j, continuing j -> entry_at qm' p j = entry_at qm p j) /\
  (forall p, is_Some (qm !! p) -> is_Some (qm' !! p)) /\
  (us' = us \/
   exists u, us' = us ++ [u] /\ quoteIndex u = length us /\
             u_percent u = percent /\ routeIndex u = k /\
             asks_from [(percent, tradeAmount)] qm u).
Proof.
  unfold buildQuoteUpdateRequests_route. intros H.
  destruct (pairRoutes !! k) as [route|] eqn:Hk; [|discriminate].
  simpl (from_undefined _) in H. rewrite bind_Ok, skip_test in H.
  case_bool_decide as Hskip.
  { injection H as <- <-. auto. }
  assert (hop < length route)%nat as Hlt by lia.
  rewrite starting_test in H by assumption.
  destruct (qm !! percent) as [arr|] eqn:Harr; [|discriminate].
  simpl (from_undefined _) in H. rewrite bind_Ok in H.
  apply bind_Ok_inv in H as [initialPool [_ H]].
  set (orderedRoute := if _ : bool then reverse route else route) in H.
  destruct (ordered_lookup
              (negb (String.eqb (tokenMintA initialPool) inputTokenMint)
               && negb (String.eqb (tokenMintB initialPool) inputTokenMint))
              route hop Hlt) as (a & Ha & Hain).
  fold orderedRoute in Ha. rewrite Ha in H. simpl (Some a ≫= _) in H.
  apply bind_Ok_inv in H as [e [He H]].
  assert (Hframe : forall arr',
             (forall j, continuing j -> array_get arr' j = array_get arr j) ->
             forall p j, continuing j ->
               entry_at (<[percent := arr']> qm) p j = entry_at qm p j).
  { intros arr' Harr' p j Hj. destruct (decide (percent = p)) as [<-|Hp].
    - rewrite lookup_insert_eq, Harr. simpl. apply Harr', Hj.
    - rewrite lookup_insert_ne by assumption. reflexivity. }
  assert (Hkeys : forall arr' p,
             is_Some (qm !! p) -> is_Some (<[percent := arr']> qm !! p)).
  { intros arr' p Hp. destruct (decide (percent = p)) as [<-|Hne].
    - rewrite lookup_insert_eq. eauto.
    - rewrite lookup_insert_ne by assumption. exact Hp. }
  case_bool_decide as Hstart.
  - (* the route starts at this hop *)
    rewrite if_Ok_bind in H.
    apply bind_Ok_inv in H as [pool [Hpool H]]. injection H as <- <-.
    destruct (pools !! a) as [pool'|] eqn:Hpa; [|discriminate].
    injection Hpool as ->.
    split_and!.
    + apply Hframe. intros j Hj. apply array_get_array_set_ne.
      intros <-. apply (Hj route Hk), Hstart.
    + apply Hkeys.
    + right. eexists. split; [reflexivity|]. simpl. split_and!; auto.
      { apply list_elem_of_singleton. reflexivity. }
      exists route, a, pool. rewrite bool_decide_true by assumption.
      split_and!; auto.
      destruct isInput; apply list_elem_of_singleton; reflexivity.
  - (* the route started at an earlier hop *)
    destruct (array_get arr k) as [e'|] eqn:Hek; [|discriminate].
    injection He as ->.
    set (lastHop := if isInput
                    then match hop with
                         | O => None
                         | S h => array_get (q_calculatedHops e) h
                         end
                    else array_get (q_calculatedHops e) (S hop)) in H.
    assert (Hlast : lastHop
                    = array_get (q_calculatedHops e)
                        (if isInput then hop - 1 else hop + 1)%nat).
    { unfold lastHop. destruct isInput.
      - destruct hop as [|h]; [unfold start_hop in Hstart; congruence|].
        f_equal. lia.
      - f_equal. lia. }
    destruct lastHop as [lh|].
    + simpl (from_undefined _) in H. rewrite !bind_Ok, if_Ok_bind in H.
      apply bind_Ok_inv in H as [pool [Hpool H]]. injection H as <- <-.
      destruct (pools !! a) as [pool'|] eqn:Hpa; [|discriminate].
      injection Hpool as ->.
      split_and!; [apply Hframe; auto | apply Hkeys |].
      right. eexists. split; [reflexivity|]. simpl. split_and!; auto.
      { apply list_elem_of_singleton. reflexivity. }
      exists route, a, pool. rewrite bool_decide_false by assumption.
      split_and!; auto. exists e, lh. rewrite Harr. simpl.
      split_and!; auto; destruct isInput; reflexivity.
    + injection H as <- <-.
      split_and!; [apply Hframe; auto | apply Hkeys | left; reflexivity].
Qed.

Lemma asks_from_weaken (amounts amounts' : list (Z * Z))
  (qm qm' : gmap Z (list (option PartialQuote))) (u : QuoteUpdate) :
  amounts ⊆ amounts' ->
  (forall p j, continuing j -> entry_at qm p j = entry_at qm' p j) ->
  asks_from amounts qm u -> asks_from amounts' qm' u.
Proof.
  intros Hsub Hframe (Hhop & Hpct & Hw & Hflag & route & a & pool & Hr & Hlt
                      & Ha & Hpool & Haddr & Hask).
  split_and!; auto.
  { apply list_elem_of_fmap in Hpct as (pa & -> & Hpa).
    apply list_elem_of_fmap. exists pa. split; [reflexivity|].
    apply Hsub, Hpa. }
  exists route, a, pool. split_and!; auto.
  case_bool_decide as Hstart.
  - destruct Hask as [Hamt Hmint]. split; [apply Hsub, Hamt | exact Hmint].
  - destruct Hask as (e & lh & He & Hask). exists e, lh.
    rewrite <- Hframe; [auto|]. intros route' Hr'. congruence.
Qed.

Lemma build_routes_inv percent tradeAmount us qm us' qm' :
  foldlM (buildQuoteUpdateRequests_route inputTokenMint outputTokenMint pools
            pairRoutes hop isInput percent tradeAmount)
         (us, qm) (seq 0 (length pairRoutes)) = Ok (us', qm') ->
  (forall p j, continuing j -> entry_at qm' p j = entry_at qm p j) /\
  (forall p, is_Some (qm !! p) -> is_Some (qm' !! p)) /\
  exists new, us' = us ++ new /\
    forall i u, new !! i = Some u ->
      quoteIndex u = (length us + i)%nat /\
      asks_from [(percent, tradeAmount)] qm u.
Proof.
  intros H.
  apply (foldlM_result_prefix _
           (fun (pre : list nat)
                (st : list QuoteUpdate * gmap Z (list (option PartialQuote))) =>
              (forall p j, continuing j ->
                 entry_at st.2 p j = entry_at qm p j) /\
              (forall p, is_Some (qm !! p) -> is_Some (st.2 !! p)) /\
              exists new, st.1 = us ++ new /\
                forall i u, new !! i = Some u ->
                  quoteIndex u = (length us + i)%nat /\
                  asks_from [(percent, tradeAmount)] qm u)) in H;
    [exact H | |].
  - simpl. split_and!; auto. exists []. rewrite app_nil_r.
    split; [reflexivity|]. intros i u Hi. rewrite lookup_nil in Hi.
    discriminate.
  - intros pre k suf [us0 qm0] [us1 qm1] _ (Hframe & Hkeys & new & Hus & Hnew)
      Hstep.
    cbn [fst snd] in *. subst us0.
    apply build_route_inv in Hstep as (Hframe1 & Hkeys1 & Hus1).
    split_and!.
    + intros p j Hj. rewrite Hframe1, Hframe; auto.
    + intros p Hp. apply Hkeys1, Hkeys, Hp.
    + destruct Hus1 as [->|(u & -> & Hqi & _ & _ & Hu)].
      * exists new. auto.
      * exists (new ++ [u]). split; [rewrite app_assoc; reflexivity|].
        intros i v Hi. apply lookup_app_Some in Hi as [Hi|[Hlen Hi]].
        -- apply Hnew, Hi.
        -- apply list_lookup_singleton_Some in Hi as [Hi ->].
           split; [rewrite Hqi, length_app; lia|].
           eapply asks_from_weaken; [reflexivity | | exact Hu].
           intros p j Hj. apply Hframe, Hj.
Qed.

Lemma build_percent_inv percent tradeAmount us qm us' qm' :
  buildQuoteUpdateRequests_percent inputTokenMint outputTokenMint pools
    pairRoutes hop isInput (us, qm) (percent, tradeAmount) = Ok (us', qm') ->
  (forall p j, continuing j -> entry_at qm' p j = entry_at qm p j) /\
  (forall p, is_Some (qm !! p) -> is_Some (qm' !! p)) /\
  is_Some (qm' !! percent) /\
  exists new, us' = us ++ new /\
    forall i u, new !! i = Some u ->
      quoteIndex u = (length us + i)%nat /\
      asks_from [(percent, tradeAmount)] qm u.
Proof.
  unfold buildQuoteUpdateRequests_percent. intros H.
  apply build_routes_inv in H as (Hframe & Hkeys & new & Hus & Hnew).
  assert (Hinit : forall p j,
            entry_at (match qm !! percent with
                      | None => <[percent := Array (length pairRoutes)]> qm
                      | Some _ => qm
                      end) p j = entry_at qm p j).
  { intros p j. destruct (qm !! percent) eqn:Hq; [reflexivity|].
    destruct (decide (percent = p)) as [<-|Hp].
    - rewrite lookup_insert_eq, Hq. simpl. apply array_get_Array.
    - rewrite lookup_insert_ne by assumption. reflexivity. }
  split_and!.
  - intros p j Hj. rewrite Hframe, Hinit; auto.
  - intros p Hp. apply Hkeys. destruct (qm !! percent) eqn:Hq; [exact Hp|].
    destruct (decide (percent = p)) as [<-|Hne].
    + rewrite lookup_insert_eq. eauto.
    + rewrite lookup_insert_ne by assumption. exact Hp.
  - apply Hkeys. destruct (qm !! percent) eqn:Hq; [rewrite Hq; eauto|].
    rewrite lookup_insert_eq. eauto.
  - exists new. split; [exact Hus|]. intros i u Hi.
    destruct (Hnew i u Hi) as [Hqi Hu]. split; [exact Hqi|].
    eapply asks_from_weaken; [reflexivity | | exact Hu].
    intros p j _. apply Hinit.
Qed.

(** The whole of [buildQuoteUpdateRequests], when it does not throw. *)
Lemma build_inv percents amounts qm us qm' :
  buildQuoteUpdateRequests inputTokenMint outputTokenMint pools pairRoutes
    percents amounts hop isInput qm = Ok (us, qm') ->
  (forall p j, continuing j -> entry_at qm' p j = entry_at qm p j) /\
  (forall p, is_Some (qm !! p) \/ p ∈ (zip percents amounts).*1 ->
             is_Some (qm' !! p)) /\
  forall i u, us !! i = Some u ->
    quoteIndex u = i /\ asks_from (zip percents amounts) qm u.
Proof.
  unfold buildQuoteUpdateRequests. intros H.
  apply (foldlM_result_prefix _
           (fun (pre : list (Z * Z))
                (st : list QuoteUpdate * gmap Z (list (option PartialQuote))) =>
              (forall p j, continuing j ->
                 entry_at st.2 p j = entry_at qm p j) /\
              (forall p, is_Some (qm !! p) \/ p ∈ pre.*1 ->
                         is_Some (st.2 !! p)) /\
              forall i u, st.1 !! i = Some u ->
                quoteIndex u = i /\ asks_from pre qm u)) in H;
    [exact H | |].
  - simpl. split_and!; auto.
    + intros p [Hp|Hp]; [exact Hp | apply elem_of_nil in Hp; contradiction].
    + intros i u Hi. rewrite lookup_nil in Hi. discriminate.
  - intros pre [percent tradeAmount] suf [us0 qm0] [us1 qm1] _
      (Hframe & Hkeys & Hus) Hstep. cbn [fst snd] in *.
    apply build_percent_inv in Hstep
      as (Hframe1 & Hkeys1 & Hkey & new & -> & Hnew).
    split_and!.
    + intros p j Hj. rewrite Hframe1, Hframe; auto.
    + intros p [Hp|Hp].
      * apply Hkeys1, Hkeys. auto.
      * rewrite fmap_app in Hp.
        apply elem_of_app in Hp as [Hp|Hp%list_elem_of_singleton].
        -- apply Hkeys1, Hkeys. auto.
        -- simpl in Hp. subst p. exact Hkey.
    + intros i u Hi. apply lookup_app_Some in Hi as [Hi|[Hlen Hi]].
      * destruct (Hus i u Hi) as [Hqi Hu]. split; [exact Hqi|].
        eapply asks_from_weaken; [|reflexivity|exact Hu].
        intros x Hx. apply elem_of_app. auto.
      * destruct (Hnew _ _ Hi) as [Hqi Hu]. split; [lia|].
        eapply asks_from_weaken; [| |exact Hu].
        -- intros x Hx. apply elem_of_app. auto.
        -- intros p j Hj. apply Hframe, Hj.
Qed.

(** X11.  When [buildQuoteUpdateRequests] returns, the quote map has a
    bucket for every percent, and every update knows its place: its
    [quoteIndex] is its index in the list returned (the index at which
    [updateQuoteMap] will look for its parameter), its [hopIndex] is the hop
    asked for, its percent is one of [percents], its route reaches the hop,
    and its request is for the pool that it names, a known pool of that
    route, in the direction of the trade. *)
Theorem X11_every_update_knows_its_place
  (percents amounts : list Z) (qm qm' : gmap Z (list (option PartialQuote)))
  (us : list QuoteUpdate) :
  length percents = length amounts ->
  buildQuoteUpdateRequests inputTokenMint outputTokenMint pools pairRoutes
    percents amounts hop isInput qm = Ok (us, qm') ->
  (forall percent, percent ∈ percents -> is_Some (qm' !! percent)) /\
  forall i u, us !! i = Some u ->
    quoteIndex u = i /\ hopIndex u = hop /\
    u_percent u ∈ percents /\
    whirlpool (request u) = u_address u /\
    r_amountSpecifiedIsInput (request u) = isInput /\
    exists route a pool,
      pairRoutes !! routeIndex u = Some route /\ (hop < length route)%nat /\
      a ∈ route /\ pools !! a = Some pool /\ u_address u = address pool.
Proof.
  intros Hlen H. apply build_inv in H as (_ & Hkeys & Hus).
  rewrite fst_zip in Hkeys by lia. split.
  - intros percent Hp. apply Hkeys. auto.
  - intros i u Hi.
    destruct (Hus i u Hi) as (Hqi & Hhop & Hpct & Hw & Hflag & route & a
                              & pool & Hr & Hlt & Ha & Hpool & Haddr & _).
    rewrite fst_zip in Hpct by lia. split_and!; auto.
    exists route, a, pool. auto.
Qed.

(** X13.  The routes are quoted hop after hop.  A request that
    [buildQuoteUpdateRequests] makes for a route at the hop where the route
    starts asks for the amount of its percent, in the input token of the
    trade (in the output token when the amount is the output).  A request
    for a route that continues asks for what the previous hop of that
    route, recorded in the quote map given, came to: its [amountOut] in its
    [outputMint] (its [amountIn] in its [inputMint] when the amount is the
    output).  So a route whose previous hop has no quote is asked nothing
    more. *)
Theorem X13_a_route_is_quoted_hop_after_hop
  (percents amounts : list Z) (qm qm' : gmap Z (list (option PartialQuote)))
  (us : list QuoteUpdate) (u : QuoteUpdate) :
  length percents = length amounts ->
  buildQuoteUpdateRequests inputTokenMint outputTokenMint pools pairRoutes
    percents amounts hop isInput qm = Ok (us, qm') ->
  u ∈ us ->
  exists route,
    pairRoutes !! routeIndex u = Some route /\
    if bool_decide (hop = start_hop isInput route)
    then (u_percent u, r_tokenAmount (request u)) ∈ zip percents amounts /\
         tradeTokenMint (request u)
         = (if isInput then inputTokenMint else outputTokenMint)
    else exists arr e lastHop,
         qm !! u_percent u = Some arr /\
         array_get arr (routeIndex u) = Some e /\
         array_get (q_calculatedHops e)
           (if isInput then hop - 1 else hop + 1)%nat = Some lastHop /\
         r_tokenAmount (request u)
         = (if isInput then amountOut lastHop else amountIn lastHop) /\
         tradeTokenMint (request u)
         = (if isInput then outputMint lastHop else inputMint lastHop).
Proof.
  intros _ H Hu. apply build_inv in H as (_ & _ & Hus).
  apply list_elem_of_lookup_1 in Hu as [i Hi].
  destruct (Hus i u Hi) as (_ & _ & _ & _ & _ & route & a & pool & Hr & _ & _
                            & _ & _ & Hask).
  exists route. split; [exact Hr|].
  case_bool_decide; [exact Hask|].
  destruct Hask as (e & lh & He & Hask).
  destruct (qm !! u_percent u) as [arr|]; [|discriminate].
  exists arr, e, lh. auto.
Qed.

End Requests.

(** *** The first hop of an input-specified trade *)

Section FirstHop.
Context (inputTokenMint outputTokenMint : string).
Context (pools : gmap string TokenPairPool).
Context (pairRoutes : list (list string)).

Hypothesis pools_ok :
  forall route, route ∈ pairRoutes ->
    route <> [] /\ forall a, a ∈ route -> is_Some (pools !! a).

(** What identifies a request: percent, route, amount and token. *)
Local Abbreviation asked_for :=
  (fun u : QuoteUpdate =>
     (u_percent u, routeIndex u, r_tokenAmount (request u),
      tradeTokenMint (request u))).

Lemma first_route_step percent tradeAmount us qm k route arr :
  pairRoutes !! k = Some route ->
  qm !! percent = Some arr ->
  exists u arr',
    buildQuoteUpdateRequests_route inputTokenMint outputTokenMint pools
      pairRoutes 0 true percent tradeAmount (us, qm) k
    = Ok (us ++ [u], <[percent := arr']> qm) /\
    asked_for u = (percent, k, tradeAmount, inputTokenMint).
Proof.
  intros Hk Harr.
  assert (route ∈ pairRoutes) as Hin by (eapply list_elem_of_lookup_2, Hk).
  destruct (pools_ok route Hin) as [Hne Hpools].
  unfold buildQuoteUpdateRequests_route. rewrite Hk.
  simpl (from_undefined _). rewrite bind_Ok.
  destruct route as [|a0 route'] eqn:Hroute; [contradiction|].
  rewrite <- Hroute in *.
  assert (0 < length route)%nat as Hlt by (rewrite Hroute; simpl; lia).
  replace (Z.of_nat (length route) <=? Z.of_nat 0) with false
    by (symmetry; apply Z.leb_gt; lia).
  change (Z.of_nat 0 =? 0) with true. cbv iota.
  rewrite Harr. simpl (from_undefined _). rewrite bind_Ok.
  assert (route !! 0%nat = Some a0) as H0 by (rewrite Hroute; reflexivity).
  destruct (Hpools a0) as [pool0 Hpool0];
    [eapply list_elem_of_lookup_2, H0|].
  rewrite H0. simpl (Some a0 ≫= _). rewrite Hpool0. simpl (from_undefined _).
  rewrite bind_Ok.
  set (orderedRoute := if _ : bool then reverse route else route).
  destruct (ordered_lookup
              (negb (String.eqb (tokenMintA pool0) inputTokenMint)
               && negb (String.eqb (tokenMintB pool0) inputTokenMint))
              route 0 Hlt) as (a & Ha & Hain).
  fold orderedRoute in Ha. destruct (Hpools a Hain) as [pool Hpool].
  rewrite Ha. simpl (Some a ≫= _). rewrite Hpool.
  rewrite array_get_array_set_eq. simpl (from_undefined _).
  rewrite !bind_Ok. eexists _, _. split; reflexivity.
Qed.

Lemma first_routes_fold percent tradeAmount us qm n :
  (n <= length pairRoutes)%nat ->
  is_Some (qm !! percent) ->
  exists new qm',
    foldlM (buildQuoteUpdateRequests_route inputTokenMint outputTokenMint
              pools pairRoutes 0 true percent tradeAmount)
           (us, qm) (seq (length pairRoutes - n) n)
    = Ok (us ++ new, qm') /\
    is_Some (qm' !! percent) /\
    asked_for <$> new
    = (fun k => (percent, k, tradeAmount, inputTokenMint))
        <$> seq (length pairRoutes - n) n.
Proof.
  revert us qm. induction n as [|n IH]; intros us qm Hn [arr Harr].
  - exists [], qm. simpl. rewrite app_nil_r. eauto.
  - assert (length pairRoutes - S n < length pairRoutes)%nat as Hk by lia.
    apply lookup_lt_is_Some in Hk as [route Hk].
    destruct (first_route_step percent tradeAmount us qm _ route arr Hk Harr)
      as (u & arr' & Hstep & Hu).
    destruct (IH (us ++ [u]) (<[percent := arr']> qm))
      as (new & qm' & Hrun & Hkey & Hnew); [lia | |].
    { rewrite lookup_insert_eq. eauto. }
    exists (u :: new), qm'. cbn [seq foldlM]. rewrite Hstep, bind_Ok.
    replace (S (length pairRoutes - S n)) with (length pairRoutes - n)%nat
      by lia.
    rewrite Hrun, <- app_assoc. split_and!; auto.
    rewrite !fmap_cons, Hu, Hnew. reflexivity.
Qed.

Lemma first_percent_step percent tradeAmount us qm :
  exists new qm',
    buildQuoteUpdateRequests_percent inputTokenMint outputTokenMint pools
      pairRoutes 0 true (us, qm) (percent, tradeAmount)
    = Ok (us ++ new, qm') /\
    asked_for <$> new
    = (fun k => (percent, k, tradeAmount, inputTokenMint))
        <$> seq 0 (length pairRoutes).
Proof.
  unfold buildQuoteUpdateRequests_percent.
  match goal with
  | |- context [foldlM ?f (us, ?q) _] =>
      destruct (first_routes_fold percent tradeAmount us q
                  (length pairRoutes)) as (new & qm' & Hrun & _ & Hnew)
  end; [lia | |].
  - destruct (qm !! percent) eqn:Hq; [rewrite Hq; eauto|].
    rewrite lookup_insert_eq. eauto.
  - rewrite Nat.sub_diag in *. eauto.
Qed.

Lemma first_hop_requests (pas : list (Z * Z)) us qm :
  exists new qm',
    foldlM (buildQuoteUpdateRequests_percent inputTokenMint outputTokenMint
              pools pairRoutes 0 true) (us, qm) pas
    = Ok (us ++ new, qm') /\
    asked_for <$> new
    = pas ≫= fun pa =>
        (fun k => (pa.1, k, pa.2, inputTokenMint))
          <$> seq 0 (length pairRoutes).
Proof.
  revert us qm. induction pas as [|[percent amount] pas IH]; intros us qm.
  - exists [], qm. simpl. rewrite app_nil_r. auto.
  - destruct (first_percent_step percent amount us qm)
      as (new1 & qm1 & Hstep & Hnew1).
    destruct (IH (us ++ new1) qm1) as (new2 & qm2 & Hrun & Hnew2).
    exists (new1 ++ new2), qm2. cbn [foldlM]. rewrite Hstep, bind_Ok, Hrun.
    rewrite <- app_assoc. split; [reflexivity|].
    rewrite fmap_app, Hnew1, Hnew2. reflexivity.
Qed.

(** X12.  At hop 0 of an input-specified trade, with routes that are not
    empty and go through known pools, [buildQuoteUpdateRequests] does not
    throw and asks every route at every percent, whatever the quote map
    holds: one request for each percent and each route, percent after
    percent and route after route, for that percent's amount of the input
    token. *)
Theorem X12_the_first_hop_asks_every_route_at_every_percent
  (percents amounts : list Z) (qm : gmap Z (list (option PartialQuote))) :
  length percents = length amounts ->
  exists us qm',
    buildQuoteUpdateRequests inputTokenMint outputTokenMint pools pairRoutes
      percents amounts 0 true qm = Ok (us, qm') /\
    (fun u => (u_percent u, routeIndex u, r_tokenAmount (request u),
               tradeTokenMint (request u))) <$> us
    = zip percents amounts ≫= fun pa =>
        (fun k => (pa.1, k, pa.2, inputTokenMint))
          <$> seq 0 (length pairRoutes).
Proof.
  intros _. destruct (first_hop_requests (zip percents amounts) [] qm)
    as (us & qm' & Hrun & Hus).
  exists us, qm'. split; [exact Hrun | exact Hus].
Qed.

End FirstHop.

(** *** Storing the quotes of a hop *)

Section Updates.
Context {C : Collaborators}.

(** The swap quote asked for an update. *)
Local Abbreviation asked params :=
  (fun u : QuoteUpdate =>
     EvSwapQuote ((params : list SwapQuoteParam) !! quoteIndex u)
       hopSlippage).

(** The hop in slot [k] of the entry of route [i] at [percent]. *)
Local Abbreviation hop_at qm percent i k :=
  (qm !! percent ≫= fun arr : list (option PartialQuote) =>
   array_get arr i ≫= fun e => array_get (q_calculatedHops e) k).

(** The percent and the route of the entry of route [i] at [percent]. *)
Local Abbreviation entry_of qm percent i :=
  (qm !! percent ≫= fun arr : list (option PartialQuote) =>
   (fun e => (q_percent e, q_route e)) <$> array_get arr i).

(** One update on a map that has the update's percent: the quote is asked,
    nothing is thrown, and the map is the one given or the one given with
    one hop written into the entry that the update names. *)
Lemma update_char params qm u t arr :
  qm !! u_percent u = Some arr ->
  exists qm',
    updateQuoteMap_update params qm u t = (Ok qm', t ++ [asked params u]) /\
    (qm' = qm \/
     exists e sp quote,
       array_get arr (routeIndex u) = Some e /\
       params !! quoteIndex u = Some sp /\
       swapQuoteWithParams sp hopSlippage = Ok quote /\
       qm' = <[u_percent u :=
                 <[routeIndex u :=
                     Some {| q_percent := q_percent e; q_route := q_route e;
                             q_calculatedHops :=
                               array_set (hopIndex u) (makeHop u sp quote)
                                 (q_calculatedHops e) |}]> arr]> qm).
Proof.
  intros Harr. unfold updateQuoteMap_update.
  rewrite (run_lift_bind _ _ _ arr) by (rewrite Harr; reflexivity).
  rewrite run_bind. unfold try_catch at 1. rewrite run_bind.
  unfold call at 1.
  destruct (params !! quoteIndex u) as [sp|] eqn:Hsp; simpl.
  - destruct (swapQuoteWithParams sp hopSlippage) as [quote|e] eqn:Hq; simpl.
    + destruct (array_get arr (routeIndex u)) as [e|] eqn:He; simpl.
      * eexists. split; [reflexivity|]. right. eexists e, sp, quote. auto.
      * eexists. split; [reflexivity|]. left. reflexivity.
    + eexists. split; [reflexivity|]. left. reflexivity.
  - eexists. split; [reflexivity|]. left. reflexivity.
Qed.

Lemma update_dom params qm u t arr qm' t' :
  qm !! u_percent u = Some arr ->
  updateQuoteMap_update params qm u t = (Ok qm', t') ->
  dom qm' = dom qm.
Proof.
  intros Harr H. destruct (update_char params qm u t arr Harr)
    as (qm1 & H1 & Hc).
  rewrite H1 in H. injection H as <- <-.
  destruct Hc as [->|(e & sp & quote & _ & _ & _ & ->)]; [reflexivity|].
  rewrite dom_insert_L. apply (elem_of_dom_2 (D := gset Z)) in Harr.
  apply subseteq_union_1_L, singleton_subseteq_l, Harr.
Qed.

(** [updateQuoteMap] on a map that has the percent of every update. *)
Lemma updateQuoteMap_total us params qm t :
  (forall u, u ∈ us -> is_Some (qm !! u_percent u)) ->
  exists qm',
    updateQuoteMap us params qm t = (Ok qm', t ++ (asked params <$> us)) /\
    dom qm' = dom qm.
Proof.
  unfold updateQuoteMap. revert qm t.
  induction us as [|u us IH]; intros qm t Hkeys.
  - exists qm. simpl. rewrite app_nil_r. auto.
  - destruct (Hkeys u) as [arr Harr]; [left|].
    destruct (update_char params qm u t arr Harr) as (qm1 & H1 & _).
    pose proof (update_dom _ _ _ _ _ _ _ Harr H1) as Hdom.
    destruct (IH qm1 (t ++ [asked params u])) as (qm' & H' & Hdom').
    { intros v Hv. apply (elem_of_dom (D := gset Z)). rewrite Hdom.
      apply elem_of_dom. apply Hkeys. right. exact Hv. }
    exists qm'. split; [|congruence].
    cbn [foldlM]. rewrite (run_bind_Ok _ _ _ _ _ H1), H'.
    rewrite <- app_assoc. reflexivity.
Qed.

Lemma updateQuoteMap_app us1 us2 params qm t qm1 t1 :
  updateQuoteMap us1 params qm t = (Ok qm1, t1) ->
  updateQuoteMap (us1 ++ us2) params qm t = updateQuoteMap us2 params qm1 t1.
Proof.
  unfold updateQuoteMap. revert qm t.
  induction us1 as [|x us1 IH]; intros qm t H.
  - simpl in H. injection H as <- <-. reflexivity.
  - cbn [foldlM app] in *. rewrite run_bind in *.
    destruct (updateQuoteMap_update params qm x t) as [[a'|e'] t'];
      [|discriminate].
    apply IH, H.
Qed.

(** X14.  On a quote map that has a bucket for the percent of every update,
    [updateQuoteMap] throws nothing, whatever the parameters and whatever
    the quotes answer: it asks exactly one swap quote for each update, in
    the order of the updates, each with the parameter at the update's
    [quoteIndex] and the slippage [0/1000], and it leaves the quote map
    with the percents that it had. *)
Theorem X14_updateQuoteMap_asks_one_quote_for_each_update
  (us : list QuoteUpdate) (params : list SwapQuoteParam)
  (qm : gmap Z (list (option PartialQuote))) (t : list event) :
  (forall u, u ∈ us -> is_Some (qm !! u_percent u)) ->
  exists qm',
    updateQuoteMap us params qm t
    = (Ok qm',
       t ++ ((fun u => EvSwapQuote (params !! quoteIndex u) hopSlippage)
               <$> us)) /\
    dom qm' = dom qm.
Proof. apply updateQuoteMap_total. Qed.

(** X15.  The lookup of the route, [quoteMap[percent][routeIndex]], is made
    before the [try]: an update whose percent has no bucket in the quote
    map makes [updateQuoteMap] throw a [TypeError].  The quotes of the
    updates before it have been asked, its own quote and those of the
    updates after it are not. *)
Theorem X15_an_update_of_an_unknown_percent_raises_TypeError
  (us1 : list QuoteUpdate) (u : QuoteUpdate) (us2 : list QuoteUpdate)
  (params : list SwapQuoteParam)
  (qm : gmap Z (list (option PartialQuote))) (t : list event) :
  (forall v, v ∈ us1 -> is_Some (qm !! u_percent v)) ->
  qm !! u_percent u = None ->
  updateQuoteMap (us1 ++ u :: us2) params qm t
  = (Err TypeError,
     t ++ ((fun u => EvSwapQuote (params !! quoteIndex u) hopSlippage)
             <$> us1)).
Proof.
  intros Hkeys Hu.
  destruct (updateQuoteMap_total us1 params qm t Hkeys) as (qm1 & H1 & Hdom).
  assert (Hu1 : qm1 !! u_percent u = None).
  { apply (not_elem_of_dom (D := gset Z)). rewrite Hdom.
    apply not_elem_of_dom. exact Hu. }
  rewrite (updateQuoteMap_app _ _ _ _ _ _ _ H1).
  unfold updateQuoteMap. cbn [foldlM]. rewrite run_bind.
  unfold updateQuoteMap_update at 1. rewrite Hu1. reflexivity.
Qed.

Lemma update_frame params qm u t qm' t' :
  updateQuoteMap_update params qm u t = (Ok qm', t') ->
  (forall percent i, entry_of qm' percent i = entry_of qm percent i) /\
  (forall percent i k,
     ~ (u_percent u = percent /\ routeIndex u = i /\ hopIndex u = k) ->
     hop_at qm' percent i k = hop_at qm percent i k).
Proof.
  intros H. destruct (qm !! u_percent u) as [arr|] eqn:Harr.
  - destruct (update_char params qm u t arr Harr) as (qm1 & H1 & Hc).
    rewrite H1 in H. injection H as <- <-.
    destruct Hc as [->|(e & sp & quote & He & _ & _ & ->)]; [auto|].
    pose proof (array_get_is_Some_lt arr (routeIndex u)
                  (ex_intro _ e He)) as Hlt.
    split.
    + intros percent i. destruct (decide (u_percent u = percent)) as [<-|Hp].
      * rewrite lookup_insert_eq, Harr. simpl.
        destruct (decide (routeIndex u = i)) as [<-|Hi].
        -- rewrite array_get_insert_eq, He by assumption. reflexivity.
        -- rewrite array_get_insert_ne by assumption. reflexivity.
      * rewrite lookup_insert_ne by assumption. reflexivity.
    + intros percent i k Hne.
      destruct (decide (u_percent u = percent)) as [<-|Hp].
      * rewrite lookup_insert_eq, Harr. simpl.
        destruct (decide (routeIndex u = i)) as [<-|Hi].
        -- rewrite array_get_insert_eq, He by assumption. simpl.
           apply array_get_array_set_ne. intros <-. apply Hne. auto.
        -- rewrite array_get_insert_ne by assumption. reflexivity.
      * rewrite lookup_insert_ne by assumption. reflexivity.
  - unfold updateQuoteMap_update in H. rewrite Harr in H. discriminate.
Qed.

(** X16.  [updateQuoteMap] writes into the slots that its updates name and
    nowhere else.  It neither adds nor removes an entry, and keeps the
    percent and the route of each; and the hop in slot [k] of the entry of
    route [i] at [percent] is the one that was there, unless an update
    names that percent, that route and that hop. *)
Theorem X16_updateQuoteMap_writes_only_the_slots_it_is_given
  (us : list QuoteUpdate) (params : list SwapQuoteParam)
  (qm qm' : gmap Z (list (option PartialQuote))) (t t' : list event) :
  updateQuoteMap us params qm t = (Ok qm', t') ->
  (forall percent i,
     (qm' !! percent ≫= fun arr =>
        (fun e => (q_percent e, q_route e)) <$> array_get arr i)
     = (qm !! percent ≫= fun arr =>
          (fun e => (q_percent e, q_route e)) <$> array_get arr i)) /\
  (forall percent i k,
     (forall u, u ∈ us ->
        ~ (u_percent u = percent /\ routeIndex u = i /\ hopIndex u = k)) ->
     (qm' !! percent ≫= fun arr =>
        array_get arr i ≫= fun e => array_get (q_calculatedHops e) k)
     = (qm !! percent ≫= fun arr =>
          array_get arr i ≫= fun e => array_get (q_calculatedHops e) k)).
Proof.
  unfold updateQuoteMap. revert qm t.
  induction us as [|u us IH]; intros qm t H.
  - simpl in H. injection H as <- <-. auto.
  - cbn [foldlM] in H. rewrite run_bind in H.
    destruct (updateQuoteMap_update params qm u t) as [[qm1|e] t1] eqn:H1;
      [|discriminate].
    destruct (update_frame _ _ _ _ _ _ H1) as [He1 Hh1].
    destruct (IH _ _ H) as [He Hh]. split.
    + intros percent i. rewrite He. apply He1.
    + intros percent i k Hne. rewrite Hh.
      * apply Hh1. apply Hne. left.
      * intros v Hv. apply Hne. right. exact Hv.
Qed.

(** One update whose quote succeeds, on a map that has the update's entry:
    the hop is written into the slot that the update names. *)
Lemma update_stores params qm u t arr e sp quote :
  qm !! u_percent u = Some arr ->
  array_get arr (routeIndex u) = Some e ->
  params !! quoteIndex u = Some sp ->
  swapQuoteWithParams sp hopSlippage = Ok quote ->
  exists qm',
    updateQuoteMap_update params qm u t
    = (Ok qm', t ++ [EvSwapQuote (Some sp) hopSlippage]) /\
    hop_at qm' (u_percent u) (routeIndex u) (hopIndex u)
    = Some (makeHop u sp quote).
Proof.
  intros Harr He Hsp Hq. unfold updateQuoteMap_update.
  rewrite (run_lift_bind _ _ _ arr) by (rewrite Harr; reflexivity).
  rewrite run_bind. unfold try_catch at 1. rewrite run_bind.
  unfold call at 1.
  destruct (params !! quoteIndex u) as [sp'|]; [|discriminate].
  injection Hsp as ->. simpl.
  destruct (swapQuoteWithParams sp hopSlippage) as [quote'|];
    [|discriminate].
  injection Hq as ->. simpl.
  destruct (array_get arr (routeIndex u)) as [e'|] eqn:He';
    [|discriminate].
  injection He as ->. simpl.
  eexists. split; [reflexivity|].
  rewrite lookup_insert_eq. simpl.
  pose proof (array_get_is_Some_lt arr (routeIndex u) (ex_intro _ e He')).
  rewrite array_get_insert_eq by assumption. simpl.
  apply array_get_array_set_eq.
Qed.

(** X17.  An update whose quote succeeds is stored: reading the slot that
    the update names gives back a hop with the update's percent and pool
    address and with the quote.  The hop takes its direction from the swap
    parameter: the parameter's amount is the [amountIn] of an
    input-specified parameter and the quote's [otherAmountThreshold] its
    [amountOut], the other way round otherwise; the input mint is mint A
    of the pool when the parameter swaps A to B, mint B otherwise. *)
Theorem X17_a_quoted_hop_is_stored_in_its_slot
  (params : list SwapQuoteParam) (qm : gmap Z (list (option PartialQuote)))
  (u : QuoteUpdate) (t : list event) (arr : list (option PartialQuote))
  (e : PartialQuote) (sp : SwapQuoteParam) (quote : SwapQuote) :
  qm !! u_percent u = Some arr ->
  array_get arr (routeIndex u) = Some e ->
  params !! quoteIndex u = Some sp ->
  swapQuoteWithParams sp hopSlippage = Ok quote ->
  exists qm' h,
    updateQuoteMap_update params qm u t
    = (Ok qm', t ++ [EvSwapQuote (Some sp) hopSlippage]) /\
    (qm' !! u_percent u ≫= fun arr =>
       array_get arr (routeIndex u) ≫= fun e =>
       array_get (q_calculatedHops e) (hopIndex u)) = Some h /\
    h_percent h = u_percent u /\ h_whirlpool h = u_address u /\
    Router.quote h = quote /\
    (amountIn h, amountOut h)
    = (if amountSpecifiedIsInput sp
       then (tokenAmount sp, otherAmountThreshold quote)
       else (otherAmountThreshold quote, tokenAmount sp)) /\
    (inputMint h, outputMint h)
    = (if aToB sp
       then (w_tokenMintA (whirlpoolData sp), w_tokenMintB (whirlpoolData sp))
       else (w_tokenMintB (whirlpoolData sp), w_tokenMintA (whirlpoolData sp))).
Proof.
  intros Harr He Hsp Hq.
  destruct (update_stores params qm u t arr e sp quote Harr He Hsp Hq)
    as (qm' & Hrun & Hslot).
  exists qm', (makeHop u sp quote).
  split; [exact Hrun|]. split; [exact Hslot|]. unfold makeHop.
  destruct (aToB sp), (amountSpecifiedIsInput sp); simpl; auto.
Qed.

End Updates.

(** *** Cleaning *)

Lemma foldlM_result_Err {A B} (f : A -> B -> result A) (Q : error -> Prop)
  (l : list B) (a : A) e :
  (forall a x e, f a x = Err e -> Q e) ->
  foldlM f a l = Err e -> Q e.
Proof.
  intros Hf. revert a. induction l as [|x l IH]; intros a H.
  - discriminate.
  - cbn [foldlM] in H. destruct (f a x) as [a'|e'] eqn:Hfx.
    + rewrite bind_Ok in H. eapply IH, H.
    + inversion H; subst. eapply Hf, Hfx.
Qed.

Section CleaningRuns.
Context (tradeAmount : Z) (isInput : bool).

Lemma cleanQuoteMap_quote_Err percent cleaned oe e :
  cleanQuoteMap_quote tradeAmount isInput percent cleaned oe = Err e ->
  e = TypeError.
Proof.
  unfold cleanQuoteMap_quote. destruct oe as [u|]; simpl;
    [|intros H; inversion H; reflexivity].
  destruct (_ =? _)%nat; [|discriminate].
  destruct isInput.
  - destruct (last (q_calculatedHops u) ≫= id); simpl;
      intros H; inversion H; reflexivity.
  - destruct (array_get (q_calculatedHops u) 0); simpl;
      intros H; inversion H; reflexivity.
Qed.

Lemma cleanQuoteMap_Err qm e :
  cleanQuoteMap tradeAmount isInput qm = Err e -> e = TypeError.
Proof.
  unfold cleanQuoteMap. apply (foldlM_result_Err _ (fun e => e = TypeError)).
  intros cm [percent arr] e' H.
  destruct (foldlM _ [] arr) as [c|e''] eqn:Hc; [discriminate|].
  inversion H; subst e''.
  eapply (foldlM_result_Err _ (fun e => e = TypeError)), Hc.
  intros a x e0. apply cleanQuoteMap_quote_Err.
Qed.

Lemma cleanQuoteMap_quotes_Ok percent arr acc c :
  foldlM (cleanQuoteMap_quote tradeAmount isInput percent) acc arr = Ok c ->
  Forall is_Some arr /\ (length c <= length acc + length arr)%nat.
Proof.
  revert acc. induction arr as [|oe arr IH]; intros acc H.
  - simpl in H. inversion H; subst. split; [constructor | simpl; lia].
  - cbn [foldlM] in H. apply bind_Ok_inv in H as [acc' [H1 H]].
    apply IH in H as [Hall Hlen].
    destruct (cleanQuoteMap_quote_char _ _ _ _ _ _ H1)
      as [->|(e & f & -> & -> & _)].
    + split; [|simpl; lia]. constructor; [|exact Hall].
      destruct oe; [eauto | discriminate].
    + split; [constructor; eauto|]. rewrite length_app in Hlen. simpl in *.
      lia.
Qed.

(** What [cleanQuoteMap] returns, when it does not throw. *)
Lemma cleanQuoteMap_Ok qm cleaned :
  cleanQuoteMap tradeAmount isInput qm = Ok cleaned ->
  dom cleaned = dom qm /\
  forall percent arr, qm !! percent = Some arr ->
    Forall is_Some arr /\
    exists l, cleaned !! percent = Some l /\ (length l <= length arr)%nat.
Proof.
  unfold cleanQuoteMap. intros H.
  pose proof (NoDup_fst_map_to_list qm) as Hnd.
  eapply (foldlM_result_prefix _
            (fun pre (cm : gmap Z (list RouteQuote)) =>
               dom cm = list_to_set pre.*1 /\
               forall percent arr, (percent, arr) ∈ pre ->
                 Forall is_Some arr /\
                 exists l, cm !! percent = Some l /\
                           (length l <= length arr)%nat)) in H.
  - destruct H as [Hdom Hall]. split.
    + rewrite Hdom. apply set_eq. intros k.
      rewrite elem_of_list_to_set, elem_of_dom, list_elem_of_fmap.
      split.
      * intros ([k' arr] & -> & Hin). apply elem_of_map_to_list in Hin.
        simpl. eauto.
      * intros [arr Harr]. exists (k, arr). split; [reflexivity|].
        apply elem_of_map_to_list, Harr.
    + intros percent arr Harr. apply Hall, elem_of_map_to_list, Harr.
  - split; [apply dom_empty_L|]. intros percent arr Hin.
    apply elem_of_nil in Hin. contradiction.
  - intros pre [percent arr] suf cm cm1 Hsplit [Hdom Hall] Hstep.
    apply bind_Ok_inv in Hstep as [c [Hc Hstep]]. inversion Hstep; subst cm1.
    apply cleanQuoteMap_quotes_Ok in Hc as [Hsome Hlen]. simpl in Hlen.
    rewrite Hsplit, fmap_app, fmap_cons in Hnd. simpl in Hnd.
    apply NoDup_app in Hnd as (_ & Hnotin & _).
    split.
    + rewrite dom_insert_L, Hdom, fmap_app, list_to_set_app_L. simpl.
      rewrite (right_id_L ∅ (∪)). apply (comm_L (∪)).
    + intros percent' arr' Hin. apply elem_of_app in Hin as [Hin|Hin].
      * assert (percent' <> percent).
        { intros ->. eapply Hnotin; [|left].
          apply list_elem_of_fmap. exists (percent, arr'). auto. }
        rewrite lookup_insert_ne by auto. apply Hall, Hin.
      * apply list_elem_of_singleton in Hin. inversion Hin; subst.
        rewrite lookup_insert_eq. eauto.
Qed.

(** X18.  When [cleanQuoteMap] returns, the cleaned map has exactly the
    percents of the quote map, the ones with no finished route included
    (their list is empty); every slot of every bucket of the quote map held
    an entry, and no bucket got more quotes than it had slots. *)
Theorem X18_cleanQuoteMap_keeps_every_percent
  (qm : gmap Z (list (option PartialQuote)))
  (cleaned : gmap Z (list RouteQuote)) :
  cleanQuoteMap tradeAmount isInput qm = Ok cleaned ->
  dom cleaned = dom qm /\
  forall percent arr, qm !! percent = Some arr ->
    Forall is_Some arr /\
    exists l, cleaned !! percent = Some l /\ (length l <= length arr)%nat.
Proof. apply cleanQuoteMap_Ok. Qed.

(** X19.  A bucket with an empty slot, the slot of a route that was never
    started, makes [cleanQuoteMap] throw a [TypeError]: the loop
    destructures every slot of the bucket. *)
Theorem X19_cleanQuoteMap_raises_TypeError_on_an_empty_slot
  (qm : gmap Z (list (option PartialQuote))) (percent : Z)
  (arr : list (option PartialQuote)) :
  qm !! percent = Some arr -> None ∈ arr ->
  cleanQuoteMap tradeAmount isInput qm = Err TypeError.
Proof.
  intros Harr Hhole.
  destruct (cleanQuoteMap tradeAmount isInput qm) as [cleaned|e] eqn:H.
  - apply cleanQuoteMap_Ok in H as [_ H]. destruct (H _ _ Harr) as [Hall _].
    rewrite Forall_forall in Hall. destruct (Hall _ Hhole). discriminate.
  - f_equal. eapply cleanQuoteMap_Err, H.
Qed.

End CleaningRuns.

(** *** Pruning *)

Lemma pruneSortFn_le isInput a b :
  pruneSortFn isInput a b <= 0 <->
  if isInput then r_amountOut b <= r_amountOut a
  else r_amountIn a <= r_amountIn b.
Proof. unfold pruneSortFn. destruct isInput; apply BN_cmp_le. Qed.

Lemma StronglySorted_take_drop {A} (R : A -> A -> Prop) (l : list A) n :
  StronglySorted R l ->
  StronglySorted R (take n l) /\
  Forall (fun x => Forall (R x) (drop n l)) (take n l).
Proof.
  intros H. revert n. induction H as [|x l Hs IH Hx]; intros n.
  - rewrite take_nil. split; constructor.
  - destruct n as [|n]; simpl; [split; constructor|].
    destruct (IH n) as [IH1 IH2]. split.
    + constructor; [exact IH1|]. apply Forall_take, Hx.
    + constructor; [apply Forall_drop, Hx | exact IH2].
Qed.

Lemma slice0_take {A} (n : Z) (l : list A) :
  slice0 n l =
  take (if 0 <=? n then Z.to_nat n else (length l - Z.to_nat (- n))%nat) l.
Proof. unfold slice0. destruct (0 <=? n); reflexivity. Qed.

(** X20.  [pruneQuoteMap] keeps, at each percent, the best quotes: the
    quotes kept and the quotes dropped are together the quotes given, the
    kept ones are in the order of the objective (largest [amountOut] first
    for an input-specified trade, smallest [amountIn] first otherwise) and
    each of them is at least as good as every quote dropped.  For
    [pruneN >= 0] it keeps [pruneN] quotes, or all if there are fewer; a
    negative [pruneN] drops the [- pruneN] worst. *)
Theorem X20_pruneQuoteMap_keeps_the_best_quotes
  (qm : gmap Z (list RouteQuote)) (pruneN : Z) (isInput : bool)
  (percent : Z) (l : list RouteQuote) :
  qm !! percent = Some l ->
  exists kept dropped,
    pruneQuoteMap qm pruneN isInput !! percent = Some kept /\
    Permutation l (kept ++ dropped) /\
    length kept =
      (if (0 <=? pruneN)%Z then Nat.min (Z.to_nat pruneN) (length l)
       else length l - Z.to_nat (- pruneN))%nat /\
    StronglySorted
      (fun a b => if isInput then r_amountOut b <= r_amountOut a
                  else r_amountIn a <= r_amountIn b) kept /\
    Forall (fun x =>
              Forall (fun y => if isInput then r_amountOut y <= r_amountOut x
                               else r_amountIn x <= r_amountIn y) dropped)
           kept.
Proof.
  intros Hl. unfold pruneQuoteMap. rewrite lookup_fmap, Hl. simpl.
  set (sorted := js_sort (pruneSortFn isInput) l).
  set (k := if 0 <=? pruneN then Z.to_nat pruneN
            else (length l - Z.to_nat (- pruneN))%nat).
  assert (Hlen : length sorted = length l).
  { apply Permutation_length, js_sort_perm. }
  assert (Hs : StronglySorted
                 (fun a b => if isInput then r_amountOut b <= r_amountOut a
                             else r_amountIn a <= r_amountIn b) sorted).
  { apply Sorted_StronglySorted.
    - intros a b c. destruct isInput; lia.
    - eapply Sorted_weaken; [|apply js_sort_sorted].
      + intros a b. apply pruneSortFn_le.
      + intros a b. rewrite !pruneSortFn_le. destruct isInput; lia. }
  exists (take k sorted), (drop k sorted). split_and!.
  - rewrite slice0_take, Hlen. reflexivity.
  - rewrite take_drop. symmetry. apply js_sort_perm.
  - rewrite length_take, Hlen. unfold k. destruct (0 <=? pruneN); lia.
  - apply (StronglySorted_take_drop _ _ k Hs).
  - apply (StronglySorted_take_drop _ _ k Hs).
Qed.

(** *** Baselines *)

Lemma mapM_result_inv {A B} (g : A -> result B) (l : list A) (l' : list B) :
  mapM g l = Ok l' -> Forall2 (fun x y => g x = Ok y) l l'.
Proof.
  revert l'. induction l as [|x l IH]; intros l' H.
  - inversion H. constructor.
  - cbn [mapM] in H. apply bind_Ok_inv in H as [y [Hy H]].
    apply bind_Ok_inv in H as [k [Hk H]]. inversion H; subst.
    constructor; auto.
Qed.

(** X21.  [getSingleHopSplit] returns nothing but baselines: without a
    bucket at 100% the empty list, and otherwise one set for each quote of
    that bucket whose [calculatedHops] has one slot, no other; each set has
    percent 100, that quote alone, and the amounts of its hop as totals. *)
Theorem X21_getSingleHopSplit_returns_only_baselines
  (qm : gmap Z (list RouteQuote)) (single : list SplitResult) :
  getSingleHopSplit qm = Ok single ->
  (qm !! 100 = None -> single = []) /\
  (forall fullFlow, qm !! 100 = Some fullFlow ->
     length single =
       length (List.filter
                 (fun f => (length (calculatedHops f) =? 1)%nat) fullFlow)) /\
  forall s, s ∈ single ->
    s_percent s = 100 /\
    exists fullFlow f h,
      qm !! 100 = Some fullFlow /\ f ∈ fullFlow /\ quotes s = [f] /\
      calculatedHops f = [Some h] /\
      totalIn s = amountIn h /\ totalOut s = amountOut h.
Proof.
  unfold getSingleHopSplit. intros H.
  destruct (qm !! 100) as [fullFlow|] eqn:Hfull.
  - apply mapM_result_inv in H. split_and!; [discriminate| |].
    + intros ? [= <-]. symmetry. eapply Forall2_length, H.
    + intros s Hs.
      destruct (proj1 (list_elem_of_lookup _ _) Hs) as [k Hk].
      destruct (Forall2_lookup_r _ _ _ _ _ H Hk) as (f & Hf & Hg).
      apply list_elem_of_lookup_2 in Hf.
      apply list_elem_of_In, filter_In in Hf as [Hin Hlen].
      apply list_elem_of_In in Hin. apply Nat.eqb_eq in Hlen.
      apply bind_Ok_inv in Hg as [h [Hh Hg]]. inversion Hg; subst s. simpl.
      split; [reflexivity|]. exists fullFlow, f, h. split_and!; auto.
      destruct (calculatedHops f) as [|o [|? ?]]; try discriminate.
      destruct o as [h'|]; [|discriminate]. inversion Hh. reflexivity.
  - inversion H. split_and!; [reflexivity | discriminate |].
    intros s Hs. apply elem_of_nil in Hs. contradiction.
Qed.

(** *** Prefetching *)

Lemma uniq_foldl (acc l : list string) :
  NoDup acc ->
  NoDup (foldl (fun acc x => if bool_decide (x ∈ acc) then acc
                             else acc ++ [x]) acc l) /\
  forall x, x ∈ foldl (fun acc x => if bool_decide (x ∈ acc) then acc
                                    else acc ++ [x]) acc l
            <-> x ∈ acc \/ x ∈ l.
Proof.
  revert acc. induction l as [|y l IH]; intros acc Hnd; simpl.
  - split; [exact Hnd|]. intros x. rewrite elem_of_nil. tauto.
  - case_bool_decide as Hy.
    + destruct (IH acc Hnd) as [IH1 IH2]. split; [exact IH1|].
      intros x. rewrite IH2, elem_of_cons. split; [tauto|].
      intros [?|[->|?]]; auto.
    + destruct (IH (acc ++ [y])) as [IH1 IH2].
      { apply NoDup_app. split_and!; [exact Hnd | | apply NoDup_singleton].
        intros x Hx ->%list_elem_of_singleton. contradiction. }
      split; [exact IH1|]. intros x.
      rewrite IH2, elem_of_app, list_elem_of_singleton, elem_of_cons. tauto.
Qed.

Lemma NoDup_uniq l : NoDup (uniq l).
Proof. apply uniq_foldl. constructor. Qed.

Lemma elem_of_uniq x l : x ∈ uniq l <-> x ∈ l.
Proof.
  unfold uniq. rewrite (proj2 (uniq_foldl [] l (NoDup_nil_2))).
  rewrite elem_of_nil. tauto.
Qed.

Lemma elem_of_concat (x : string) (ls : list (list string)) :
  x ∈ concat ls <-> exists l, l ∈ ls /\ x ∈ l.
Proof.
  induction ls as [|l ls IH]; simpl.
  - rewrite elem_of_nil. split; [tauto|]. intros (l & Hl & _).
    apply elem_of_nil in Hl. exact Hl.
  - rewrite elem_of_app, IH. split.
    + intros [H|(l' & H1 & H2)]; [exists l | exists l'];
        rewrite elem_of_cons; auto.
    + intros (l' & [->|H1]%elem_of_cons & H2); eauto.
Qed.

Section Runs.
Context {C : Collaborators}.

(** [prefetchRoutes] once the pools have been listed. *)
Lemma prefetchRoutes_run pairRoutes programId t wps :
  listPools (uniq (concat pairRoutes)) = Ok wps ->
  (length wps <= length (uniq (concat pairRoutes)))%nat ->
  exists tickArrays,
    prefetchRoutes pairRoutes programId t
    = (listTickArrays tickArrays,
       t ++ [EvListPools (uniq (concat pairRoutes));
             EvListTickArrays tickArrays]) /\
    forall x, x ∈ tickArrays <->
      exists i pool wp aToB,
        uniq (concat pairRoutes) !! i = Some pool /\
        wps !! i = Some (Some wp) /\
        x ∈ getTickArrayPublicKeys (tickCurrentIndex wp) (tickSpacing wp)
              aToB programId pool.
Proof.
  intros Hwps Hlen. unfold prefetchRoutes.
  set (ps := uniq (concat pairRoutes)) in *.
  rewrite run_bind. unfold call at 1. rewrite Hwps.
  match goal with
  | |- context [foldlM ?f [] ?l] =>
      destruct (foldlM_result_inv f
        (fun pre acc => forall x, x ∈ acc <->
           exists i pool wp aToB,
             i ∈ pre /\ ps !! i = Some pool /\ wps !! i = Some (Some wp) /\
             x ∈ getTickArrayPublicKeys (tickCurrentIndex wp)
                   (tickSpacing wp) aToB programId pool)
        l []) as (addrs & Hrun & Haddrs)
  end.
  - intros x. rewrite elem_of_nil. split; [tauto|].
    intros (i & ? & ? & ? & Hi & _). apply elem_of_nil in Hi. exact Hi.
  - intros pre i suf acc Hsplit Hacc.
    apply seq_split_inv in Hsplit as Hi. destruct Hi as [_ Hi].
    destruct (wps !! i) as [owp|] eqn:Hwp;
      [|apply lookup_ge_None in Hwp; lia].
    destruct owp as [wp|]; simpl.
    + assert (i < length ps)%nat as Hps by lia.
      apply lookup_lt_is_Some in Hps as [pool Hpool]. rewrite Hpool. simpl.
      eexists. split; [reflexivity|]. intros x.
      rewrite elem_of_app, elem_of_uniq, elem_of_app, Hacc. split.
      * intros [(j & p & w & b & Hj & ?)|[Hx|Hx]].
        -- exists j, p, w, b. rewrite elem_of_app. tauto.
        -- exists i, pool, wp, true. rewrite elem_of_app,
             list_elem_of_singleton. auto.
        -- exists i, pool, wp, false. rewrite elem_of_app,
             list_elem_of_singleton. auto.
      * intros (j & p & w & b & Hj & Hp & Hw & Hx).
        apply elem_of_app in Hj as [Hj|Hj%list_elem_of_singleton].
        -- left. exists j, p, w, b. auto.
        -- subst j. rewrite Hpool in Hp. rewrite Hwp in Hw.
           injection Hp as <-. injection Hw as <-. destruct b; auto.
    + eexists. split; [reflexivity|]. intros x. rewrite Hacc.
      split; intros (j & p & w & b & Hj & Hp & Hw & Hx).
      * exists j, p, w, b. rewrite elem_of_app. tauto.
      * apply elem_of_app in Hj as [Hj|Hj%list_elem_of_singleton].
        -- exists j, p, w, b. auto.
        -- subst j. rewrite Hwp in Hw. discriminate.
  - exists addrs. rewrite (run_lift_bind _ _ _ _ Hrun). unfold call.
    split; [rewrite <- app_assoc; reflexivity|].
    intros x. rewrite Haddrs. split.
    + intros (i & p & w & b & _ & H). eauto 6.
    + intros (i & p & w & b & Hp & Hw & Hx). exists i, p, w, b.
      split_and!; auto. apply elem_of_seq. apply lookup_lt_Some in Hw. lia.
Qed.

(** The two calls of [prefetchRoutes] on a fetcher that answers. *)
Lemma prefetchRoutes_trace
  (pairRoutes : list (list string)) (programId : string) (t : list event) :
  fetcher_ok ->
  exists ps wps tickArrays,
    prefetchRoutes pairRoutes programId t
    = (Ok tt, t ++ [EvListPools ps; EvListTickArrays tickArrays]) /\
    NoDup ps /\
    (forall a, a ∈ ps <-> exists route, route ∈ pairRoutes /\ a ∈ route) /\
    listPools ps = Ok wps /\
    forall x, x ∈ tickArrays <->
      exists i pool wp aToB,
        ps !! i = Some pool /\ wps !! i = Some (Some wp) /\
        x ∈ getTickArrayPublicKeys (tickCurrentIndex wp) (tickSpacing wp)
              aToB programId pool.
Proof.
  intros [Hpools Hticks].
  destruct (Hpools (uniq (concat pairRoutes))) as (wps & Hwps & Hlen).
  destruct (prefetchRoutes_run pairRoutes programId t wps Hwps)
    as (tickArrays & Hrun & Hta); [lia|].
  exists (uniq (concat pairRoutes)), wps, tickArrays.
  rewrite Hticks in Hrun. split_and!; auto.
  - apply NoDup_uniq.
  - intros a. rewrite elem_of_uniq. apply elem_of_concat.
Qed.

(** X22.  On a fetcher that answers, [prefetchRoutes] makes two calls and
    no more.  It lists the pools of the routes, each pool once however many
    routes go through it, and then lists tick arrays: the addresses that
    [getTickArrayPublicKeys] gives, in either direction, for the pools that
    the fetcher found, and no other; a pool that the fetcher did not find
    is passed over. *)
Theorem X22_prefetch_lists_every_pool_once
  (pairRoutes : list (list string)) (programId : string) (t : list event) :
  fetcher_ok ->
  exists ps wps tickArrays,
    prefetchRoutes pairRoutes programId t
    = (Ok tt, t ++ [EvListPools ps; EvListTickArrays tickArrays]) /\
    NoDup ps /\
    (forall a, a ∈ ps <-> exists route, route ∈ pairRoutes /\ a ∈ route) /\
    listPools ps = Ok wps /\
    forall x, x ∈ tickArrays <->
      exists i pool wp aToB,
        ps !! i = Some pool /\ wps !! i = Some (Some wp) /\
        x ∈ getTickArrayPublicKeys (tickCurrentIndex wp) (tickSpacing wp)
              aToB programId pool.
Proof. apply prefetchRoutes_trace. Qed.

(** *** Failures that are raised *)

(** X23.  A failure of the fetcher is not caught.  When listing the pools
    fails, [findBestRoutes] fails with the fetcher's error, having made that
    one call: no tick array is listed and nothing is quoted. *)
Theorem X23_a_failing_fetcher_is_raised
  (inputTokenMint outputTokenMint : string) (tradeAmount : Z)
  (isInput : bool) (walks : gmap string (list (list string)))
  (pools : gmap string TokenPairPool) (programId : string)
  (options : PartialRoutingOptions) (pairRoutes : list (list string))
  (e : error) (t : list event) :
  walks !! getRouteId inputTokenMint outputTokenMint = Some pairRoutes ->
  tradeAmount <> 0 ->
  listPools (uniq (concat pairRoutes)) = Err e ->
  findBestRoutes inputTokenMint outputTokenMint tradeAmount isInput walks
    pools programId options t
  = (Err e, t ++ [EvListPools (uniq (concat pairRoutes))]).
Proof.
  intros Hwalks HT Hfail. unfold findBestRoutes. rewrite Hwalks.
  destruct (Z.eqb_spec tradeAmount 0) as [|_]; [contradiction|].
  rewrite run_bind. unfold quoteRoutes. rewrite run_bind.
  unfold prefetchRoutes. rewrite run_bind. unfold call at 1.
  rewrite Hfail. reflexivity.
Qed.

Lemma hopIteration_cons pools pairRoutes isInput :
  routes_ok pools pairRoutes ->
  exists hop rest, hopIteration pairRoutes isInput = Ok (hop :: rest).
Proof.
  intros [Hne Hr]. unfold hopIteration.
  destruct pairRoutes as [|r0 rs] eqn:Hpr; [contradiction|]. rewrite <- Hpr.
  assert (0 < max_list (length <$> pairRoutes))%nat as Hmax.
  { assert (r0 ∈ pairRoutes) as Hin by (rewrite Hpr; left).
    destruct (Hr r0) as [Hr0 _]; [rewrite <- Hpr; exact Hin|].
    assert (length r0 <= max_list (length <$> pairRoutes))%nat
      by (apply max_list_elem_of_le, list_elem_of_fmap_2, Hin).
    destruct r0; [contradiction | simpl in *; lia]. }
  destruct (max_list (length <$> pairRoutes)) as [|n]; [lia|].
  destruct isInput.
  - simpl. eauto.
  - rewrite seq_S, reverse_app. simpl. eauto.
Qed.

Lemma hopIteration_length pairRoutes isInput iteration :
  hopIteration pairRoutes isInput = Ok iteration ->
  length iteration = max_list (length <$> pairRoutes).
Proof.
  unfold hopIteration. destruct pairRoutes as [|r0 rs] eqn:Hpr; [discriminate|].
  rewrite <- Hpr. intros [= <-].
  destruct isInput; rewrite ?length_reverse, length_seq; reflexivity.
Qed.

Lemma Inv_empty pairRoutes isInput percents :
  Inv pairRoutes isInput (fun _ => True) percents (fun h => h ∈ @nil nat) ∅.
Proof.
  split_and!.
  - intros percent arr Harr. rewrite lookup_empty in Harr. discriminate.
  - intros percent [arr Harr]. rewrite lookup_empty in Harr. discriminate.
  - intros percent arr Harr. rewrite lookup_empty in Harr. discriminate.
  - intros [h Hh]. apply elem_of_nil in Hh. contradiction.
Qed.

(** X24.  A failure of the batch is not caught either: only the swap quotes
    are inside the [try].  With routes through known pools, a fetcher that
    answers and a positive increment, a batch that fails makes
    [findBestRoutes] fail with the batch's error at the first round, after
    the two calls of the prefetch and that one batch; no swap quote is
    asked. *)
Theorem X24_a_failing_batch_is_raised
  (inputTokenMint outputTokenMint : string) (tradeAmount : Z)
  (isInput : bool) (walks : gmap string (list (list string)))
  (pools : gmap string TokenPairPool) (programId : string)
  (options : PartialRoutingOptions) (pairRoutes : list (list string))
  (e : error) (t : list event) :
  walks !! getRouteId inputTokenMint outputTokenMint = Some pairRoutes ->
  tradeAmount <> 0 ->
  routes_ok pools pairRoutes -> fetcher_ok ->
  0 < percentIncrement (mergeOptions options) ->
  (forall requests, batchSwapQuoteByToken requests programId = Err e) ->
  exists ps tickArrays requests,
    findBestRoutes inputTokenMint outputTokenMint tradeAmount isInput walks
      pools programId options t
    = (Err e,
       t ++ [EvListPools ps; EvListTickArrays tickArrays;
             EvBatchSwapQuote requests]).
Proof.
  intros Hwalks HT Hroutes Hfetch Hp Hfail.
  unfold findBestRoutes. rewrite Hwalks.
  destruct (Z.eqb_spec tradeAmount 0) as [|_]; [contradiction|].
  rewrite run_bind. unfold quoteRoutes.
  destruct (prefetchRoutes_trace pairRoutes programId t Hfetch)
    as (ps & wps & tas & Hpre & _).
  rewrite (run_bind_Ok _ _ _ _ _ Hpre).
  pose proof (generatePercentageAmounts_eq tradeAmount _ Hp) as Hgen.
  destruct (generatePercentageAmounts tradeAmount
              (percentIncrement (mergeOptions options)))
    as [[percents amounts]|] eqn:Hgen'; [clear Hgen|discriminate].
  pose proof (generatePercentageAmounts_length _ _ _ _ Hgen') as Hlen.
  rewrite (run_lift_bind _ _ _ (percents, amounts)) by reflexivity.
  destruct (hopIteration_cons pools pairRoutes isInput Hroutes)
    as (hop & rest & Hiter).
  rewrite (run_lift_bind _ _ _ _ Hiter).
  assert (HP : forall (requests : list SwapQuoteRequest)
                 (params : list SwapQuoteParam) (k : nat)
                 (r : SwapQuoteRequest) (sp : SwapQuoteParam)
                 (quote : SwapQuote) (u : QuoteUpdate),
             batchSwapQuoteByToken requests programId = Ok params ->
             requests !! k = Some r -> r_amountSpecifiedIsInput r = isInput ->
             params !! k = Some sp ->
             swapQuoteWithParams sp hopSlippage = Ok quote ->
             (fun _ : Hop => True) (makeHop u sp quote)) by (intros; exact I).
  destruct (build_spec inputTokenMint outputTokenMint pools pairRoutes
              isInput (fun _ => True)
              (fun route Hr => proj2 (proj2 Hroutes route Hr))
              percents amounts hop (fun h => h ∈ []) ∅ Hlen
              (Inv_empty _ _ _)
              (hopIteration_ready pools pairRoutes isInput programId _
                 Hroutes HP _ [] hop rest Hiter eq_refl))
    as (us & qm1 & Hbuild & _).
  exists ps, tas, (request <$> us).
  rewrite run_bind. cbn [foldlM]. rewrite run_bind. unfold quoteHop at 1.
  rewrite (run_lift_bind _ _ _ _ Hbuild). rewrite run_bind.
  unfold call at 1. rewrite Hfail. rewrite <- app_assoc. reflexivity.
Qed.

(** X25.  A pair that [walks] knows with an empty list of routes is not an
    early return.  With a fetcher that answers and an increment that is not
    zero, [findBestRoutes] lists no pool and no tick array, the two calls
    being made all the same, and then throws a [RangeError]: [Math.max] of
    no length is [-Infinity], which is no length for [Array]. *)
Theorem X25_a_pair_without_routes_raises_RangeError
  (inputTokenMint outputTokenMint : string) (tradeAmount : Z)
  (isInput : bool) (walks : gmap string (list (list string)))
  (pools : gmap string TokenPairPool) (programId : string)
  (options : PartialRoutingOptions) (t : list event) :
  fetcher_ok ->
  walks !! getRouteId inputTokenMint outputTokenMint = Some [] ->
  tradeAmount <> 0 ->
  percentIncrement (mergeOptions options) <> 0 ->
  findBestRoutes inputTokenMint outputTokenMint tradeAmount isInput walks
    pools programId options t
  = (Err RangeError, t ++ [EvListPools []; EvListTickArrays []]).
Proof.
  intros [Hpools Hticks] Hwalks HT Hp. unfold findBestRoutes. rewrite Hwalks.
  destruct (Z.eqb_spec tradeAmount 0) as [|_]; [contradiction|].
  rewrite run_bind. unfold quoteRoutes. rewrite run_bind.
  unfold prefetchRoutes. simpl concat. change (uniq []) with (@nil string).
  destruct (Hpools []) as (wps & Hwps & Hlen).
  destruct wps; [|discriminate].
  rewrite run_bind. unfold call at 1. rewrite Hwps. simpl length.
  simpl seq. cbn [foldlM]. rewrite (run_lift_bind _ _ _ []) by reflexivity.
  unfold call. rewrite Hticks.
  destruct (generatePercentageAmounts_Some tradeAmount _ Hp) as [[ps amts] ->].
  rewrite (run_lift_bind _ _ _ (ps, amts)) by reflexivity.
  rewrite <- app_assoc. reflexivity.
Qed.

(** *** The quotes and the list returned *)

(** X26.  On routes through known pools, with a fetcher and a batch that
    answer and a positive increment, the quoting part of [findBestRoutes]
    ends without an error, and every route quote of the cleaned map is
    complete: it sits under its own percent, its route is one of the
    routes of the pair, it has one hop for each pool of the route, none
    missing, and its amount on the side that the trade does not specify is
    the amount of its boundary hop: the [amountOut] of the last hop for an
    input-specified trade, the [amountIn] of the first hop otherwise. *)
Theorem X26_route_quotes_are_complete
  (inputTokenMint outputTokenMint : string) (tradeAmount : Z)
  (isInput : bool) (pairRoutes : list (list string))
  (pools : gmap string TokenPairPool) (programId : string)
  (routingOptions : RoutingOptions) (t : list event) :
  routes_ok pools pairRoutes -> fetcher_ok -> batch_ok programId ->
  0 < percentIncrement routingOptions ->
  exists cleaned t',
    quoteRoutes inputTokenMint outputTokenMint tradeAmount isInput pairRoutes
      pools programId routingOptions t = (Ok cleaned, t') /\
    forall percent l f, cleaned !! percent = Some l -> f ∈ l ->
      Router.percent f = percent /\
      route f ∈ pairRoutes /\
      length (calculatedHops f) = length (route f) /\
      Forall is_Some (calculatedHops f) /\
      exists first last_,
        head (calculatedHops f) = Some (Some first) /\
        last (calculatedHops f) = Some (Some last_) /\
        if isInput then r_amountOut f = amountOut last_
        else r_amountIn f = amountIn first.
Proof.
  intros Hroutes Hfetch Hbatch Hp.
  destruct (quoteRoutes_spec inputTokenMint outputTokenMint pools pairRoutes
              isInput programId (fun _ => True) Hroutes Hfetch Hbatch
              (fun _ _ _ _ _ _ _ _ _ _ _ _ => I)
              tradeAmount routingOptions t Hp)
    as (cleaned & t' & Hrun & Hcleaned).
  exists cleaned, t'. split; [exact Hrun|].
  intros percent l f Hl Hf.
  destruct (Hcleaned percent l f Hl Hf)
    as (i & e & (Hr & _ & Hlen & _) & Hall & Hpct & Hroute & Hhops & _ & Hamt).
  rewrite Hhops, Hroute. split_and!; auto.
  - eapply list_elem_of_lookup_2, Hr.
  - assert (q_calculatedHops e <> []) as Hne.
    { apply list_elem_of_lookup_2 in Hr.
      destruct Hroutes as [_ Hr']. destruct (Hr' _ Hr) as [Hne _].
      intros Hnil. rewrite Hnil in Hlen. destruct (q_route e);
        [contradiction | discriminate]. }
    destruct (last_is_Some _ Hall Hne) as [hl Hhl].
    destruct (first_is_Some _ Hall Hne) as [hf Hhf].
    exists hf, hl. split_and!; auto.
    + unfold array_get in Hhf. rewrite <- head_lookup in Hhf.
      destruct (head (q_calculatedHops e)) as [[x|]|]; simpl in Hhf;
        congruence.
    + destruct isInput.
      * destruct Hamt as (_ & h & Hh & ->). congruence.
      * destruct Hamt as (_ & h & Hh & ->). congruence.
Qed.

(** X27.  A list that [findBestRoutes] returns, past the early return, is
    made of the sets of the ranker, ranked on the pruned map, and of the
    baselines of the cleaned map, and of nothing else: the final sort only
    reorders them.  A baseline is appended whether or not the ranker
    returned the same set, so it can be in the list twice. *)
Theorem X27_the_result_is_the_ranked_sets_and_the_baselines
  (inputTokenMint outputTokenMint : string) (tradeAmount : Z)
  (isInput : bool) (walks : gmap string (list (list string)))
  (pools : gmap string TokenPairPool) (programId : string)
  (options : PartialRoutingOptions) (pairRoutes : list (list string))
  (splits : list SplitResult) (t t' : list event) :
  walks !! getRouteId inputTokenMint outputTokenMint = Some pairRoutes ->
  tradeAmount <> 0 ->
  findBestRoutes inputTokenMint outputTokenMint tradeAmount isInput walks
    pools programId options t = (Ok splits, t') ->
  exists cleaned single,
    quoteRoutes inputTokenMint outputTokenMint tradeAmount isInput pairRoutes
      pools programId (mergeOptions options) t = (Ok cleaned, t') /\
    getSingleHopSplit cleaned = Ok single /\
    Permutation splits
      (getRankedRouteSets
         (pruneQuoteMap cleaned (numTopPartialQuotes (mergeOptions options))
            isInput)
         isInput (numTopRoutes (mergeOptions options))
         (maxSplits (mergeOptions options)) ++ single).
Proof.
  intros Hwalks HT. unfold findBestRoutes. rewrite Hwalks.
  destruct (Z.eqb_spec tradeAmount 0) as [|_]; [contradiction|].
  rewrite run_bind.
  destruct (quoteRoutes _ _ _ _ _ _ _ _ t) as [[cleaned|e] t1]; [|discriminate].
  unfold lift, rankRoutes. intros H. injection H as H <-.
  apply bind_Ok_inv in H as [single [Hsingle H]]. injection H as <-.
  exists cleaned, single. split_and!; auto. apply js_sort_perm.
Qed.

(** *** The calls of a run *)

(** A loop that ran to its end kept every invariant of the trace that its
    body keeps. *)
Lemma foldlM_M_trace {A B} (f : A -> B -> M A)
  (J : list B -> list event -> Prop) (l : list B) (a a' : A)
  (t t' : list event) :
  foldlM f a l t = (Ok a', t') -> J [] t ->
  (forall pre x suf a t a1 t1, l = pre ++ x :: suf -> J pre t ->
     f a x t = (Ok a1, t1) -> J (pre ++ [x]) t1) ->
  J l t'.
Proof.
  intros Hrun H0 Hstep.
  assert (forall suf pre a t, l = pre ++ suf -> J pre t ->
            foldlM f a suf t = (Ok a', t') -> J l t') as Hgen.
  { induction suf as [|x suf IH]; intros pre a0 t0 Hl Ha Hr.
    - rewrite app_nil_r in Hl. subst pre. simpl in Hr. injection Hr as _ <-.
      exact Ha.
    - cbn [foldlM] in Hr. rewrite run_bind in Hr.
      destruct (f a0 x t0) as [[a1|e1] t1] eqn:Hf; [|discriminate].
      apply (IH (pre ++ [x]) a1 t1); [|eauto|exact Hr].
      rewrite <- app_assoc. exact Hl. }
  apply (Hgen l [] a t); auto.
Qed.

(** The calls of one round of quoting: the batch, then one swap quote for
    each of its requests. *)
Local Abbreviation round us params :=
  (EvBatchSwapQuote (request <$> us)
   :: ((fun u : QuoteUpdate =>
          EvSwapQuote ((params : list SwapQuoteParam) !! quoteIndex u)
            hopSlippage) <$> us)).

Lemma quoteHop_trace inputTokenMint outputTokenMint pools pairRoutes
  percents amounts isInput programId qm hop t qm' t' :
  quoteHop inputTokenMint outputTokenMint pools pairRoutes percents amounts
    isInput programId qm hop t = (Ok qm', t') ->
  exists us params, t' = t ++ round us params.
Proof.
  unfold quoteHop. intros H. rewrite run_bind in H. unfold lift at 1 in H.
  destruct (buildQuoteUpdateRequests _ _ _ _ _ _ _ _ _)
    as [[us qm1]|e] eqn:Hbuild; [|discriminate].
  rewrite run_bind in H. unfold call at 1 in H.
  destruct (batchSwapQuoteByToken _ _) as [params|e]; [|discriminate].
  apply build_inv in Hbuild as (_ & Hkeys & Hus).
  destruct (updateQuoteMap_total us params qm1
              (t ++ [EvBatchSwapQuote (request <$> us)]))
    as (qm2 & Hrun & _).
  { intros u Hu. apply list_elem_of_lookup_1 in Hu as [i Hi].
    destruct (Hus i u Hi) as (_ & _ & Hpct & _). apply Hkeys. auto. }
  rewrite Hrun in H. injection H as _ <-. exists us, params.
  rewrite <- app_assoc. reflexivity.
Qed.

Lemma quoteHops_trace inputTokenMint outputTokenMint pools pairRoutes
  percents amounts isInput programId iteration qm0 t qm t' :
  foldlM (quoteHop inputTokenMint outputTokenMint pools pairRoutes percents
            amounts isInput programId) qm0 iteration t = (Ok qm, t') ->
  exists rounds : list (list QuoteUpdate * list SwapQuoteParam),
    length rounds = length iteration /\
    t' = t ++ concat ((fun r => round r.1 r.2) <$> rounds).
Proof.
  intros H.
  apply (foldlM_M_trace _
           (fun pre tc =>
              exists rounds : list (list QuoteUpdate * list SwapQuoteParam),
                length rounds = length pre /\
                tc = t ++ concat ((fun r => round r.1 r.2) <$> rounds)))
    in H; [exact H | |].
  - exists []. simpl. rewrite app_nil_r. auto.
  - intros pre hop suf a tc a1 t1 _ (rounds & Hlen & ->) Hstep.
    apply quoteHop_trace in Hstep as (us & params & ->).
    exists (rounds ++ [(us, params)]). split.
    + rewrite !length_app, Hlen. reflexivity.
    + rewrite fmap_app, concat_app. simpl. rewrite app_nil_r, <- app_assoc.
      reflexivity.
Qed.

(** X28.  On inputs with which it can run, [findBestRoutes] returns a list
    after these calls and no other: the pools are listed, the tick arrays
    are listed, and then comes one round for each hop position, as many
    rounds as the longest route has pools; a round is one batch followed by
    one swap quote for each request of that batch, in the order of the
    requests. *)
Theorem X28_one_batch_for_each_hop_position
  (inputTokenMint outputTokenMint : string) (tradeAmount : Z)
  (isInput : bool) (walks : gmap string (list (list string)))
  (pools : gmap string TokenPairPool) (programId : string)
  (options : PartialRoutingOptions) (pairRoutes : list (list string))
  (t : list event) :
  inputs_ok inputTokenMint outputTokenMint walks pools programId options ->
  walks !! getRouteId inputTokenMint outputTokenMint = Some pairRoutes ->
  tradeAmount <> 0 ->
  exists splits ps tickArrays
         (rounds : list (list QuoteUpdate * list SwapQuoteParam)),
    findBestRoutes inputTokenMint outputTokenMint tradeAmount isInput walks
      pools programId options t
    = (Ok splits,
       t ++ EvListPools ps :: EvListTickArrays tickArrays
            :: concat ((fun r =>
                          EvBatchSwapQuote (request <$> r.1)
                          :: ((fun u => EvSwapQuote (r.2 !! quoteIndex u)
                                          hopSlippage) <$> r.1))
                       <$> rounds)) /\
    length rounds = max_list (length <$> pairRoutes).
Proof.
  intros (Hroutes & Hfetch & Hbatch & Hp) Hwalks HT.
  specialize (Hroutes _ Hwalks).
  destruct (quoteRoutes_spec inputTokenMint outputTokenMint pools pairRoutes
              isInput programId (fun _ => True) Hroutes Hfetch Hbatch
              (fun _ _ _ _ _ _ _ _ _ _ _ _ => I)
              tradeAmount (mergeOptions options) t Hp)
    as (cleaned & t' & Hrun & Hcleaned).
  destruct (rankRoutes_spec isInput (mergeOptions options) cleaned)
    as (splits & Hrank & _).
  { intros l f Hl Hf.
    destruct (Hcleaned _ _ _ Hl Hf) as (i & e & _ & Hall & _ & _ & -> & _).
    exact Hall. }
  rewrite (findBestRoutes_Some _ _ _ _ _ _ _ _ _ _ _ _ Hwalks HT Hrun), Hrank.
  (* the calls made *)
  unfold quoteRoutes in Hrun.
  destruct (prefetchRoutes_trace pairRoutes programId t Hfetch)
    as (ps & wps & tas & Hpre & _).
  rewrite (run_bind_Ok _ _ _ _ _ Hpre) in Hrun.
  destruct (generatePercentageAmounts tradeAmount
              (percentIncrement (mergeOptions options)))
    as [[percents amounts]|]; [|discriminate].
  rewrite (run_lift_bind _ _ _ (percents, amounts)) in Hrun by reflexivity.
  destruct (hopIteration pairRoutes isInput) as [iteration|] eqn:Hiter;
    [|discriminate].
  rewrite (run_lift_bind _ _ _ iteration) in Hrun by reflexivity.
  rewrite run_bind in Hrun.
  match type of Hrun with
  | context [foldlM ?f ?a iteration ?t1] =>
      destruct (foldlM f a iteration t1) as [[qm|e] t2] eqn:Hfold;
        [|discriminate]
  end.
  unfold lift in Hrun. injection Hrun as _ <-.
  apply quoteHops_trace in Hfold as (rounds & Hlen & ->).
  exists splits, ps, tas, rounds. split.
  - rewrite <- app_assoc. reflexivity.
  - rewrite Hlen. apply (hopIteration_length _ _ _ Hiter).
Qed.

End Runs.

(** *** The theorems on the sample market *)

Import Sample SampleRun.

Lemma X9_sample :
  generatePercentageAmounts 1000 101 = Some ([], []) /\
  generatePercentageAmounts 1000 (-20) = Some ([], []).
Proof.
  split; apply X9_increment_out_of_range_gives_no_percent; lia.
Defined.

Lemma X10_sample :
  exists percents amounts,
    generatePercentageAmounts 1001 20 = Some (percents, amounts) /\
    (100 ∈ percents <-> (20 | 100)) /\
    ((20 | 100) -> last percents = Some 100 /\ last amounts = Some 1001) /\
    Forall (fun x => 0 < x <= 100) percents /\
    Forall (fun a => 0 <= a <= 1001) amounts.
Proof. apply X10_hundred_percent_step; lia. Defined.

(** The first round of the trade of 1000 SOL in steps of 50%. *)
Lemma X11_sample :
  exists us qm',
    buildQuoteUpdateRequests "SOL" "USDC" pools pairRoutes [50; 100]
      [500; 1000] 0 true ∅ = Ok (us, qm') /\
    ((forall percent, percent ∈ [50; 100] -> is_Some (qm' !! percent)) /\
     forall i u, us !! i = Some u ->
       quoteIndex u = i /\ hopIndex u = 0%nat /\
       u_percent u ∈ [50; 100] /\
       whirlpool (request u) = u_address u /\
       r_amountSpecifiedIsInput (request u) = true /\
       exists route a pool,
         pairRoutes !! routeIndex u = Some route /\
         (0 < length route)%nat /\
         a ∈ route /\ pools !! a = Some pool /\ u_address u = address pool).
Proof.
  eexists _, _. split; [vm_compute; reflexivity|].
  apply (X11_every_update_knows_its_place "SOL" "USDC" pools pairRoutes 0
           true [50; 100] [500; 1000] ∅); [reflexivity|].
  vm_compute. reflexivity.
Defined.

Lemma X12_sample :
  exists us qm',
    buildQuoteUpdateRequests "SOL" "USDC" pools pairRoutes [50; 100]
      [500; 1000] 0 true ∅ = Ok (us, qm') /\
    (fun u => (u_percent u, routeIndex u, r_tokenAmount (request u),
               tradeTokenMint (request u))) <$> us
    = [ (50, 0%nat, 500, "SOL"); (50, 1%nat, 500, "SOL");
        (100, 0%nat, 1000, "SOL"); (100, 1%nat, 1000, "SOL") ].
Proof.
  apply (X12_the_first_hop_asks_every_route_at_every_percent "SOL" "USDC"
           pools pairRoutes (proj2 sample_routes_ok) [50; 100] [500; 1000] ∅).
  reflexivity.
Defined.

(** The second round: route [P2; P3] at 50% goes on with the 495 ORCA that
    its first hop gave. *)
Lemma X13_sample :
  exists route,
    pairRoutes !! routeIndex update1 = Some route /\
    if bool_decide (1%nat = start_hop true route)
    then (u_percent update1, r_tokenAmount (request update1))
           ∈ zip [50; 100] [500; 1000] /\
         tradeTokenMint (request update1) = "SOL"
    else exists arr e lastHop,
         afterFirstHop !! u_percent update1 = Some arr /\
         array_get arr (routeIndex update1) = Some e /\
         array_get (q_calculatedHops e) (1 - 1)%nat = Some lastHop /\
         r_tokenAmount (request update1) = amountOut lastHop /\
         tradeTokenMint (request update1) = outputMint lastHop.
Proof.
  eapply (X13_a_route_is_quoted_hop_after_hop "SOL" "USDC" pools pairRoutes
            1 true [50; 100] [500; 1000] afterFirstHop).
  - reflexivity.
  - vm_compute. reflexivity.
  - apply (list_elem_of_lookup_2 _ 0%nat). reflexivity.
Defined.

Lemma X14_sample :
  exists qm',
    @updateQuoteMap (market flatSwap) [update0] [toParam (request update0)]
      started []
    = (Ok qm',
       [] ++ [EvSwapQuote (Some (toParam (request update0))) hopSlippage]) /\
    dom qm' = dom started.
Proof.
  apply (@X14_updateQuoteMap_asks_one_quote_for_each_update (market flatSwap)
           [update0] [toParam (request update0)] started []).
  intros u ->%list_elem_of_singleton. eexists. reflexivity.
Defined.

Lemma X15_sample :
  @updateQuoteMap (market flatSwap) ([update0] ++ update70 :: [])
    [toParam (request update0); toParam (request update70)] started []
  = (Err TypeError,
     [] ++ [EvSwapQuote (Some (toParam (request update0))) hopSlippage]).
Proof.
  apply (@X15_an_update_of_an_unknown_percent_raises_TypeError
           (market flatSwap) [update0] update70 []).
  - intros u ->%list_elem_of_singleton. eexists. reflexivity.
  - reflexivity.
Defined.

Lemma X16_sample :
  exists qm' t',
    @updateQuoteMap (market flatSwap) [update0] [toParam (request update0)]
      started [] = (Ok qm', t') /\
    ((forall percent i,
        (qm' !! percent ≫= fun arr =>
           (fun e => (q_percent e, q_route e)) <$> array_get arr i)
        = (started !! percent ≫= fun arr =>
             (fun e => (q_percent e, q_route e)) <$> array_get arr i)) /\
     (forall percent i k,
        (forall u, u ∈ [update0] ->
           ~ (u_percent u = percent /\ routeIndex u = i /\ hopIndex u = k)) ->
        (qm' !! percent ≫= fun arr =>
           array_get arr i ≫= fun e => array_get (q_calculatedHops e) k)
        = (started !! percent ≫= fun arr =>
             array_get arr i ≫= fun e => array_get (q_calculatedHops e) k))).
Proof.
  eexists _, _. split; [vm_compute; reflexivity|].
  eapply (@X16_updateQuoteMap_writes_only_the_slots_it_is_given
            (market flatSwap) [update0] [toParam (request update0)] started
            _ []).
  vm_compute. reflexivity.
Defined.

(** 500 SOL into pool [P1]: the hop stored gives 495 USDC. *)
Lemma X17_sample :
  exists quote,
    @swapQuoteWithParams (market flatSwap) (toParam (request update0))
      hopSlippage = Ok quote /\
    exists qm' h,
      @updateQuoteMap_update (market flatSwap) [toParam (request update0)]
        started update0 []
      = (Ok qm',
         [] ++ [EvSwapQuote (Some (toParam (request update0))) hopSlippage])
      /\
      (qm' !! 50 ≫= fun arr =>
         array_get arr 0 ≫= fun e => array_get (q_calculatedHops e) 0)
      = Some h /\
      h_percent h = 50 /\ h_whirlpool h = "P1" /\ Router.quote h = quote /\
      (amountIn h, amountOut h) = (500, otherAmountThreshold quote) /\
      (inputMint h, outputMint h) = ("SOL", "USDC").
Proof.
  eexists. split; [vm_compute; reflexivity|].
  apply (@X17_a_quoted_hop_is_stored_in_its_slot (market flatSwap)
           [toParam (request update0)] started update0 []
           [Some entry0; None] entry0 (toParam (request update0)));
    vm_compute; reflexivity.
Defined.

Lemma X18_sample :
  exists cleaned',
    cleanQuoteMap 1000 true afterFirstHop = Ok cleaned' /\
    (dom cleaned' = dom afterFirstHop /\
     forall percent arr, afterFirstHop !! percent = Some arr ->
       Forall is_Some arr /\
       exists l, cleaned' !! percent = Some l /\
                 (length l <= length arr)%nat).
Proof.
  eexists. split; [vm_compute; reflexivity|].
  apply (X18_cleanQuoteMap_keeps_every_percent 1000 true).
  vm_compute. reflexivity.
Defined.

Lemma X19_sample : cleanQuoteMap 1000 true started = Err TypeError.
Proof.
  apply (X19_cleanQuoteMap_raises_TypeError_on_an_empty_slot 1000 true
           started 50 [Some entry0; None]).
  - reflexivity.
  - apply (list_elem_of_lookup_2 _ 1%nat). reflexivity.
Defined.

(** The two quotes at 50%, pruned to one. *)
Lemma X20_sample :
  exists l,
    cleaned !! 50 = Some l /\ length l = 2%nat /\
    exists kept dropped,
      pruneQuoteMap cleaned 1 true !! 50 = Some kept /\
      Permutation l (kept ++ dropped) /\
      length kept = Nat.min (Z.to_nat 1) (length l) /\
      StronglySorted (fun a b => r_amountOut b <= r_amountOut a) kept /\
      Forall (fun x =>
                Forall (fun y => r_amountOut y <= r_amountOut x) dropped)
             kept.
Proof.
  eexists. split; [vm_compute; reflexivity|]. split; [reflexivity|].
  apply (X20_pruneQuoteMap_keeps_the_best_quotes cleaned 1 true 50).
  vm_compute. reflexivity.
Defined.

Lemma X21_sample :
  exists single,
    getSingleHopSplit cleaned = Ok single /\
    ((cleaned !! 100 = None -> single = []) /\
     (forall fullFlow, cleaned !! 100 = Some fullFlow ->
        length single =
          length (List.filter
                    (fun f => (length (calculatedHops f) =? 1)%nat)
                    fullFlow)) /\
     forall s, s ∈ single ->
       s_percent s = 100 /\
       exists fullFlow f h,
         cleaned !! 100 = Some fullFlow /\ f ∈ fullFlow /\ quotes s = [f] /\
         calculatedHops f = [Some h] /\
         totalIn s = amountIn h /\ totalOut s = amountOut h).
Proof.
  eexists. split; [vm_compute; reflexivity|].
  apply X21_getSingleHopSplit_returns_only_baselines.
  vm_compute. reflexivity.
Defined.

Lemma X22_sample :
  exists ps wps tickArrays,
    @prefetchRoutes (market flatSwap) pairRoutes "prog" []
    = (Ok tt, [] ++ [EvListPools ps; EvListTickArrays tickArrays]) /\
    NoDup ps /\
    (forall a, a ∈ ps <-> exists route, route ∈ pairRoutes /\ a ∈ route) /\
    @listPools (market flatSwap) ps = Ok wps /\
    forall x, x ∈ tickArrays <->
      exists i pool wp aToB,
        ps !! i = Some pool /\ wps !! i = Some (Some wp) /\
        x ∈ @getTickArrayPublicKeys (market flatSwap) (tickCurrentIndex wp)
              (tickSpacing wp) aToB "prog" pool.
Proof.
  apply (@X22_prefetch_lists_every_pool_once (market flatSwap)).
  apply sample_fetcher_ok.
Defined.

Lemma X23_sample :
  @findBestRoutes offline "SOL" "USDC" 1000 true walks pools "prog"
    (options 50) []
  = (Err FetchFailed, [] ++ [EvListPools (uniq (concat pairRoutes))]).
Proof.
  apply (@X23_a_failing_fetcher_is_raised offline);
    [vm_compute; reflexivity | lia | reflexivity].
Defined.

Lemma batchDown_fetcher_ok : @fetcher_ok batchDown.
Proof.
  split; [|reflexivity]. intros addresses. eexists.
  split; [reflexivity | apply length_fmap].
Qed.

Lemma X24_sample :
  exists ps tickArrays requests,
    @findBestRoutes batchDown "SOL" "USDC" 1000 true walks pools "prog"
      (options 50) []
    = (Err FetchFailed,
       [] ++ [EvListPools ps; EvListTickArrays tickArrays;
              EvBatchSwapQuote requests]).
Proof.
  apply (@X24_a_failing_batch_is_raised batchDown "SOL" "USDC" 1000 true
           walks pools "prog" (options 50) pairRoutes).
  - vm_compute. reflexivity.
  - lia.
  - apply sample_routes_ok.
  - apply batchDown_fetcher_ok.
  - simpl. lia.
  - reflexivity.
Defined.

Lemma X25_sample :
  @findBestRoutes (market flatSwap) "SOL" "USDC" 1000 true noRoutes pools
    "prog" (options 50) []
  = (Err RangeError, [] ++ [EvListPools []; EvListTickArrays []]).
Proof.
  apply (@X25_a_pair_without_routes_raises_RangeError (market flatSwap)).
  - apply sample_fetcher_ok.
  - vm_compute. reflexivity.
  - lia.
  - simpl. lia.
Defined.

Lemma X26_sample :
  exists cleaned' t',
    @quoteRoutes (market flatSwap) "SOL" "USDC" 1000 true pairRoutes pools
      "prog" (mergeOptions (options 50)) [] = (Ok cleaned', t') /\
    forall percent l f, cleaned' !! percent = Some l -> f ∈ l ->
      Router.percent f = percent /\
      route f ∈ pairRoutes /\
      length (calculatedHops f) = length (route f) /\
      Forall is_Some (calculatedHops f) /\
      exists first last_,
        head (calculatedHops f) = Some (Some first) /\
        last (calculatedHops f) = Some (Some last_) /\
        r_amountOut f = amountOut last_.
Proof.
  apply (@X26_route_quotes_are_complete (market flatSwap) "SOL" "USDC" 1000
           true pairRoutes pools "prog" (mergeOptions (options 50)) []).
  - apply sample_routes_ok.
  - apply sample_fetcher_ok.
  - apply sample_batch_ok.
  - simpl. lia.
Defined.

Lemma X27_sample :
  exists splits t',
    @findBestRoutes (market flatSwap) "SOL" "USDC" 1000 true walks pools
      "prog" (options 50) [] = (Ok splits, t') /\
    exists cleaned' single,
      @quoteRoutes (market flatSwap) "SOL" "USDC" 1000 true pairRoutes pools
        "prog" (mergeOptions (options 50)) [] = (Ok cleaned', t') /\
      getSingleHopSplit cleaned' = Ok single /\
      Permutation splits
        (singles (pruneQuoteMap cleaned' 10 true) true 50 3 ++ single).
Proof.
  eexists _, _. split; [vm_compute; reflexivity|].
  apply (@X27_the_result_is_the_ranked_sets_and_the_baselines
           (market flatSwap) "SOL" "USDC" 1000 true walks pools "prog"
           (options 50) pairRoutes).
  - vm_compute. reflexivity.
  - lia.
  - vm_compute. reflexivity.
Defined.

(** Routes of one and of two pools: two rounds. *)
Lemma X28_sample :
  exists splits ps tickArrays
         (rounds : list (list QuoteUpdate * list SwapQuoteParam)),
    @findBestRoutes (market flatSwap) "SOL" "USDC" 1000 true walks pools
      "prog" (options 50) []
    = (Ok splits,
       [] ++ EvListPools ps :: EvListTickArrays tickArrays
          :: concat ((fun r =>
                        EvBatchSwapQuote (request <$> r.1)
                        :: ((fun u => EvSwapQuote (r.2 !! quoteIndex u)
                                        hopSlippage) <$> r.1))
                     <$> rounds)) /\
    length rounds = 2%nat.
Proof.
  apply (@X28_one_batch_for_each_hop_position (market flatSwap) "SOL" "USDC"
           1000 true walks pools "prog" (options 50) pairRoutes).
  - apply sample_inputs_ok. simpl. lia.
  - apply sample_walks.
  - lia.
Defined.

End RouterBehaviour.

(** ** The split router: what a hop records *)

Module RouterHops.
Import Router RouterSpec RouterProps RouterBehaviour.

Section Recording.
Context {C : Collaborators}.

(** The swap quote asked for an update. *)
Local Abbreviation asked params :=
  (fun u : QuoteUpdate =>
     EvSwapQuote ((params : list SwapQuoteParam) !! quoteIndex u)
       hopSlippage).

(** The entry of route [i] at [percent]. *)
Local Abbreviation entry_at qm percent i :=
  (qm !! percent ≫= fun arr : list (option PartialQuote) => array_get arr i).

(** The hop in slot [k] of the entry of route [i] at [percent]. *)
Local Abbreviation hop_at qm percent i k :=
  (qm !! percent ≫= fun arr : list (option PartialQuote) =>
   array_get arr i ≫= fun e => array_get (q_calculatedHops e) k).

(** The update [u] names slot [k] of route [i] at [percent]. *)
Local Abbreviation names u percent i k :=
  (u_percent u = percent /\ routeIndex u = i /\ hopIndex u = k).

(** The hop [h] records the quote [quote] of the parameter [sp]: the
    parameter's amount on the side it specifies, the quote's
    [otherAmountThreshold] on the other side; the quote was asked with no
    slippage, so the threshold is the estimate. *)
Local Abbreviation records h sp quote :=
  (Router.quote h = quote /\
   (amountIn h, amountOut h)
   = (if amountSpecifiedIsInput sp
      then (tokenAmount sp, otherAmountThreshold quote)
      else (otherAmountThreshold quote, tokenAmount sp)) /\
   otherAmountThreshold quote
   = (if amountSpecifiedIsInput sp then estimatedAmountOut quote
      else estimatedAmountIn quote)).

Lemma makeHop_records u sp quote :
  swapQuoteWithParams sp hopSlippage = Ok quote ->
  records (makeHop u sp quote) sp quote.
Proof.
  intros Hq. split_and!.
  - unfold makeHop. destruct (aToB sp); reflexivity.
  - unfold makeHop. destruct (aToB sp), (amountSpecifiedIsInput sp);
      reflexivity.
  - unfold swapQuoteWithParams in Hq.
    apply bind_Ok_inv in Hq as (est & _ & [= <-]). simpl.
    rewrite zero_slippage_threshold.
    destruct (amountSpecifiedIsInput sp); reflexivity.
Qed.

(** One update: the slots after it. *)
Lemma update_hops params qm u t arr :
  qm !! u_percent u = Some arr ->
  exists qm',
    updateQuoteMap_update params qm u t = (Ok qm', t ++ [asked params u]) /\
    (forall percent i,
       is_Some (entry_at qm percent i) -> is_Some (entry_at qm' percent i)) /\
    (forall percent i k,
       hop_at qm' percent i k = hop_at qm percent i k \/
       names u percent i k /\
       exists sp quote,
         params !! quoteIndex u = Some sp /\
         swapQuoteWithParams sp hopSlippage = Ok quote /\
         hop_at qm' percent i k = Some (makeHop u sp quote)) /\
    (forall sp quote,
       is_Some (array_get arr (routeIndex u)) ->
       params !! quoteIndex u = Some sp ->
       swapQuoteWithParams sp hopSlippage = Ok quote ->
       hop_at qm' (u_percent u) (routeIndex u) (hopIndex u)
       = Some (makeHop u sp quote)).
Proof.
  intros Harr.
  destruct (update_char params qm u t arr Harr) as (qm' & Hrun & Hc).
  exists qm'. split; [exact Hrun|].
  destruct (update_frame _ _ _ _ _ _ Hrun) as [Hentries Hframe].
  split_and!.
  - intros percent i [e He]. specialize (Hentries percent i).
    destruct (qm !! percent) as [a|]; [|discriminate]. simpl in *.
    rewrite He in Hentries. simpl in Hentries.
    destruct (qm' !! percent) as [a'|]; [|discriminate]. simpl in *.
    destruct (array_get a' i); [eauto | discriminate].
  - intros percent i k.
    destruct (decide (names u percent i k)) as [Hn|Hn];
      [|left; apply Hframe, Hn].
    destruct Hc as [->|(e & sp & quote & He & Hsp & Hq & _)]; [left; auto|].
    right. split; [exact Hn|]. exists sp, quote. split_and!; auto.
    destruct (update_stores params qm u t arr e sp quote Harr He Hsp Hq)
      as (qm2 & Hrun2 & Hslot).
    rewrite Hsp in Hrun. rewrite Hrun2 in Hrun. injection Hrun as ->.
    destruct Hn as (<- & <- & <-). exact Hslot.
  - intros sp quote [e He] Hsp Hq.
    destruct (update_stores params qm u t arr e sp quote Harr He Hsp Hq)
      as (qm2 & Hrun2 & Hslot).
    rewrite Hsp in Hrun. rewrite Hrun2 in Hrun. injection Hrun as ->.
    exact Hslot.
Qed.

(** [updateQuoteMap] on a map that has the percent of every update: the
    quotes asked and the slots after it. *)
Lemma updateQuoteMap_hops us params qm t :
  (forall u, u ∈ us -> is_Some (qm !! u_percent u)) ->
  exists qm',
    updateQuoteMap us params qm t = (Ok qm', t ++ (asked params <$> us)) /\
    (forall percent i,
       is_Some (entry_at qm percent i) -> is_Some (entry_at qm' percent i)) /\
    (forall percent i k,
       hop_at qm' percent i k = hop_at qm percent i k \/
       exists u sp quote,
         u ∈ us /\ names u percent i k /\
         params !! quoteIndex u = Some sp /\
         swapQuoteWithParams sp hopSlippage = Ok quote /\
         hop_at qm' percent i k = Some (makeHop u sp quote)) /\
    (forall u sp quote,
       u ∈ us ->
       is_Some (entry_at qm (u_percent u) (routeIndex u)) ->
       params !! quoteIndex u = Some sp ->
       swapQuoteWithParams sp hopSlippage = Ok quote ->
       exists u' sp' quote',
         u' ∈ us /\ names u' (u_percent u) (routeIndex u) (hopIndex u) /\
         params !! quoteIndex u' = Some sp' /\
         swapQuoteWithParams sp' hopSlippage = Ok quote' /\
         hop_at qm' (u_percent u) (routeIndex u) (hopIndex u)
         = Some (makeHop u' sp' quote')).
Proof.
  unfold updateQuoteMap. revert qm t.
  induction us as [|u us IH]; intros qm t Hkeys.
  - exists qm. simpl. rewrite app_nil_r. split_and!; auto.
    intros u sp quote Hu. apply elem_of_nil in Hu. contradiction.
  - destruct (Hkeys u) as [arr Harr]; [left|].
    destruct (update_hops params qm u t arr Harr)
      as (qm1 & H1 & Hent1 & Hslots1 & Hstore1).
    pose proof (update_dom _ _ _ _ _ _ _ Harr H1) as Hdom.
    destruct (IH qm1 (t ++ [asked params u]))
      as (qm' & H' & Hent & Hslots & Hstore).
    { intros v Hv. apply (elem_of_dom (D := gset Z)). rewrite Hdom.
      apply elem_of_dom. apply Hkeys. right. exact Hv. }
    exists qm'. split_and!.
    + cbn [foldlM]. rewrite (run_bind_Ok _ _ _ _ _ H1), H'.
      rewrite <- app_assoc. reflexivity.
    + intros percent i Hi. apply Hent, Hent1, Hi.
    + intros percent i k.
      destruct (Hslots percent i k)
        as [Heq|(v & sp & quote & Hv & Hn & Hsp & Hq & Hslot)].
      * rewrite Heq.
        destruct (Hslots1 percent i k)
          as [Heq1|(Hn & sp & quote & Hsp & Hq & Hslot)]; [left; exact Heq1|].
        right. exists u, sp, quote.
        split; [left|]. split; [exact Hn|]. split; [exact Hsp|].
        split; [exact Hq | exact Hslot].
      * right. exists v, sp, quote.
        split; [right; exact Hv|]. split; [exact Hn|]. split; [exact Hsp|].
        split; [exact Hq | exact Hslot].
    + intros v sp quote Hv Hentry Hsp Hq.
      assert (forall w spw quotew,
                w ∈ u :: us ->
                names w (u_percent v) (routeIndex v) (hopIndex v) ->
                params !! quoteIndex w = Some spw ->
                swapQuoteWithParams spw hopSlippage = Ok quotew ->
                hop_at qm1 (u_percent v) (routeIndex v) (hopIndex v)
                = Some (makeHop w spw quotew) ->
                exists u' sp' quote',
                  u' ∈ u :: us /\
                  names u' (u_percent v) (routeIndex v) (hopIndex v) /\
                  params !! quoteIndex u' = Some sp' /\
                  swapQuoteWithParams sp' hopSlippage = Ok quote' /\
                  hop_at qm' (u_percent v) (routeIndex v) (hopIndex v)
                  = Some (makeHop u' sp' quote')) as Hkeep.
      { intros w spw quotew Hw Hn Hspw Hqw Hslot1.
        destruct (Hslots (u_percent v) (routeIndex v) (hopIndex v))
          as [Heq|(x & spx & quotex & Hx & Hnx & Hspx & Hqx & Hslot)].
        - exists w, spw, quotew. rewrite Heq. auto 6.
        - exists x, spx, quotex. split; [right; exact Hx | auto 6]. }
      apply elem_of_cons in Hv as [->|Hv].
      * apply (Hkeep u sp quote); [left | auto | exact Hsp | exact Hq |].
        apply Hstore1; [|exact Hsp | exact Hq].
        rewrite Harr in Hentry. exact Hentry.
      * destruct (Hstore v sp quote Hv (Hent1 _ _ Hentry) Hsp Hq)
          as (x & spx & quotex & Hx & Hnx & Hspx & Hqx & Hslot).
        exists x, spx, quotex.
        split; [right; exact Hx | auto 6].
Qed.

(** C10.  Every swap quote of a hop is asked with the slippage [0/1000],
    and the hop recorded for a quote carries, on the side that its
    parameter does not specify, the quote's [otherAmountThreshold], which
    with that slippage is the estimate.

    In [updateQuoteMap], on a quote map that has the percent of every
    update: one swap quote is asked for each update, with the parameter at
    its [quoteIndex] and the slippage [0/1000]; an update whose route has
    its entry and whose quote succeeds leaves a hop in the slot that it
    names, which records its quote or, when several updates name the slot,
    the successful quote of one of them; and a hop found in a slot
    afterwards either was there before or records the successful quote of
    an update that names the slot.

    In [findBestRoutes], every swap quote asked is asked with that
    slippage, whatever the inputs and the outcome.  On inputs with which
    it can run, with a batch that keeps the direction flag, every hop of
    the quote map that the rounds build, the hops of the routes that
    [cleanQuoteMap] drops included, records as its other amount
    ([amountOut] for an input-specified trade, [amountIn] otherwise) the
    [otherAmountThreshold] of a quote asked with that slippage, which
    equals the estimate; so does every hop of the cleaned map. *)
Theorem C10_hops_are_quoted_with_zero_slippage
  (us : list QuoteUpdate) (params : list SwapQuoteParam)
  (qm : gmap Z (list (option PartialQuote))) (t : list event)
  (inputTokenMint outputTokenMint : string) (tradeAmount : Z)
  (isInput : bool) (walks : gmap string (list (list string)))
  (pools : gmap string TokenPairPool) (programId : string)
  (options : PartialRoutingOptions) (pairRoutes : list (list string)) :
  ((forall u, u ∈ us -> is_Some (qm !! u_percent u)) ->
   exists qm',
     updateQuoteMap us params qm t
     = (Ok qm',
        t ++ ((fun u => EvSwapQuote (params !! quoteIndex u)
                          (fromFraction 0 1000)) <$> us)) /\
     (forall u sp quote,
        u ∈ us ->
        is_Some (entry_at qm (u_percent u) (routeIndex u)) ->
        params !! quoteIndex u = Some sp ->
        swapQuoteWithParams sp (fromFraction 0 1000) = Ok quote ->
        exists u' sp' quote' h,
          u' ∈ us /\ names u' (u_percent u) (routeIndex u) (hopIndex u) /\
          params !! quoteIndex u' = Some sp' /\
          swapQuoteWithParams sp' (fromFraction 0 1000) = Ok quote' /\
          hop_at qm' (u_percent u) (routeIndex u) (hopIndex u) = Some h /\
          records h sp' quote') /\
     (forall percent i k h,
        hop_at qm' percent i k = Some h ->
        hop_at qm percent i k = Some h \/
        exists u sp quote,
          u ∈ us /\ names u percent i k /\
          params !! quoteIndex u = Some sp /\
          swapQuoteWithParams sp (fromFraction 0 1000) = Ok quote /\
          records h sp quote)) /\
  (exists evs,
     (findBestRoutes inputTokenMint outputTokenMint tradeAmount isInput
        walks pools programId options t).2 = t ++ evs /\
     Forall zeroSlippage evs) /\
  (inputs_ok inputTokenMint outputTokenMint walks pools programId options ->
   batch_keeps_flag programId ->
   walks !! getRouteId inputTokenMint outputTokenMint = Some pairRoutes ->
   exists percents amounts iteration quoteMap cleaned t',
     generatePercentageAmounts tradeAmount
       (percentIncrement (mergeOptions options)) = Some (percents, amounts) /\
     hopIteration pairRoutes isInput = Ok iteration /\
     foldlM (quoteHop inputTokenMint outputTokenMint pools pairRoutes
               percents amounts isInput programId)
            (∅ : gmap Z (list (option PartialQuote))) iteration
            (prefetchRoutes pairRoutes programId t).2
     = (Ok quoteMap, t') /\
     cleanQuoteMap tradeAmount isInput quoteMap = Ok cleaned /\
     quoteRoutes inputTokenMint outputTokenMint tradeAmount isInput
       pairRoutes pools programId (mergeOptions options) t
     = (Ok cleaned, t') /\
     (forall percent i k h,
        hop_at quoteMap percent i k = Some h -> hop_quoted isInput h) /\
     (forall percent l f k h,
        cleaned !! percent = Some l -> f ∈ l ->
        calculatedHops f !! k = Some (Some h) -> hop_quoted isInput h)).
Proof.
  split_and!.
  - intros Hkeys.
    destruct (updateQuoteMap_hops us params qm t Hkeys)
      as (qm' & Hrun & _ & Hslots & Hstore).
    exists qm'. split; [exact Hrun|]. split.
    + intros u sp quote Hu Hentry Hsp Hq.
      destruct (Hstore u sp quote Hu Hentry Hsp Hq)
        as (u' & sp' & quote' & Hu' & Hn & Hsp' & Hq' & Hslot).
      exists u', sp', quote', (makeHop u' sp' quote').
      split; [exact Hu'|]. split; [exact Hn|]. split; [exact Hsp'|].
      split; [exact Hq'|]. split; [exact Hslot|].
      apply (makeHop_records u' sp' quote' Hq').
    + intros percent i k h Hh.
      destruct (Hslots percent i k)
        as [Heq|(u & sp & quote & Hu & Hn & Hsp & Hq & Hslot)].
      * left. rewrite <- Heq. exact Hh.
      * right. exists u, sp, quote. rewrite Hslot in Hh. injection Hh as <-.
        split; [exact Hu|]. split; [exact Hn|]. split; [exact Hsp|].
        split; [exact Hq|]. apply (makeHop_records u sp quote Hq).
  - apply findBestRoutes_emits.
  - intros (Hroutes & Hfetch & Hbatch & Hp) Hflag Hwalks.
    specialize (Hroutes _ Hwalks).
    assert (HP : forall requests params k r sp quote u,
               batchSwapQuoteByToken requests programId = Ok params ->
               requests !! k = Some r ->
               r_amountSpecifiedIsInput r = isInput ->
               params !! k = Some sp ->
               swapQuoteWithParams sp hopSlippage = Ok quote ->
               hop_quoted isInput (makeHop u sp quote)).
    { intros requests ps k r sp quote u Hparams Hr Hrflag Hsp Hq.
      rewrite <- Hrflag, <- (Hflag _ _ _ _ _ Hparams Hr Hsp).
      apply makeHop_quoted, Hq. }
    destruct (quoteRoutes_spec inputTokenMint outputTokenMint pools
                pairRoutes isInput programId (hop_quoted isInput)
                Hroutes Hfetch Hbatch HP tradeAmount (mergeOptions options)
                t Hp)
      as (cleaned & t' & Hquote & Hcleaned).
    pose proof Hquote as Hrun. unfold quoteRoutes in Hrun.
    destruct (prefetchRoutes_total pairRoutes programId Hfetch t)
      as [t1 Hpre].
    rewrite (run_bind_Ok _ _ _ _ _ Hpre) in Hrun.
    destruct (generatePercentageAmounts tradeAmount
                (percentIncrement (mergeOptions options)))
      as [[percents amounts]|] eqn:Hgen; [|discriminate].
    pose proof (generatePercentageAmounts_length _ _ _ _ Hgen) as Hlen.
    rewrite (run_lift_bind _ _ _ (percents, amounts)) in Hrun by reflexivity.
    destruct (hopIteration pairRoutes isInput) as [iteration|] eqn:Hiter;
      [|discriminate].
    rewrite (run_lift_bind _ _ _ iteration) in Hrun by reflexivity.
    destruct (quoteHops_spec inputTokenMint outputTokenMint pools pairRoutes
                isInput programId (hop_quoted isInput) Hroutes Hbatch HP
                percents amounts iteration t1 Hlen Hiter)
      as (quoteMap & t2 & Hfold & Hok & _).
    rewrite (run_bind_Ok _ _ _ _ _ Hfold) in Hrun. unfold lift in Hrun.
    destruct (cleanQuoteMap tradeAmount isInput quoteMap) as [cleaned'|]
      eqn:Hclean; [|discriminate].
    injection Hrun as -> ->.
    exists percents, amounts, iteration, quoteMap, cleaned, t'.
    rewrite Hpre. split_and!; auto.
    + intros percent i k h Hh.
      destruct (quoteMap !! percent) as [arr|] eqn:Harr; [|discriminate].
      simpl in Hh.
      destruct (array_get arr i) as [e|] eqn:He; [|discriminate].
      simpl in Hh. apply array_get_Some in He, Hh.
      destruct (Hok _ _ Harr) as [_ Hentries].
      destruct (Hentries _ _ He) as (_ & _ & _ & Hhops).
      eapply Hhops, Hh.
    + intros percent l f k h Hl Hf Hk.
      destruct (Hcleaned _ _ _ Hl Hf)
        as (i & e & (_ & _ & _ & Hhops) & _ & _ & _ & Heq & _).
      rewrite Heq in Hk. eauto.
Qed.

End Recording.

(** *** The theorem on the sample market

    One update into the started map, and the trade of 1000 SOL in steps of
    50%.  At 100% the route [P2; P3] is dropped: pool [P3] refuses the 990
    ORCA that the first hop gave; the hop recorded for pool [P2] is covered
    all the same. *)

Import Sample SampleRun.

Lemma C10_sample :
  (exists qm',
     @updateQuoteMap (market flatSwap) [update0] [toParam (request update0)]
       started []
     = (Ok qm',
        [] ++ ((fun u => EvSwapQuote
                           ([toParam (request update0)] !! quoteIndex u)
                           (fromFraction 0 1000)) <$> [update0])) /\
     exists h quote,
       @swapQuoteWithParams (market flatSwap) (toParam (request update0))
         (fromFraction 0 1000) = Ok quote /\
       (qm' !! 50 ≫= fun arr =>
          array_get arr 0 ≫= fun e => array_get (q_calculatedHops e) 0)
       = Some h /\
       Router.quote h = quote /\
       (amountIn h, amountOut h) = (500, otherAmountThreshold quote) /\
       otherAmountThreshold quote = estimatedAmountOut quote) /\
  (exists evs,
     (@findBestRoutes (market flatSwap) "SOL" "USDC" 1000 true walks pools
        "prog" (options 50) []).2 = [] ++ evs /\
     Forall zeroSlippage evs) /\
  (exists quoteMap cleaned t' h,
     foldlM (@quoteHop (market flatSwap) "SOL" "USDC" pools pairRoutes
               [50; 100] [500; 1000] true "prog")
            (∅ : gmap Z (list (option PartialQuote))) [0%nat; 1%nat]
            (@prefetchRoutes (market flatSwap) pairRoutes "prog" []).2
     = (Ok quoteMap, t') /\
     cleanQuoteMap 1000 true quoteMap = Ok cleaned /\
     (forall l f, cleaned !! 100 = Some l -> f ∈ l -> route f = ["P1"]) /\
     (quoteMap !! 100 ≫= fun arr =>
        array_get arr 1 ≫= fun e => array_get (q_calculatedHops e) 0)
     = Some h /\
     h_whirlpool h = "P2" /\ amountOut h = 990 /\
     @hop_quoted (market flatSwap) true h).
Proof.
  destruct (@C10_hops_are_quoted_with_zero_slippage (market flatSwap)
              [update0] [toParam (request update0)] started []
              "SOL" "USDC" 1000 true walks pools "prog" (options 50)
              pairRoutes) as (Hstore & Hcalls & Hrun).
  split; [|split; [exact Hcalls|]].
  - destruct Hstore as (qm' & Hupdate & Hrecorded & _).
    { intros u ->%list_elem_of_singleton. eexists. reflexivity. }
    exists qm'. split; [exact Hupdate|].
    assert (exists quote,
              @swapQuoteWithParams (market flatSwap)
                (toParam (request update0)) (fromFraction 0 1000) = Ok quote)
      as [quote Hq] by (eexists; vm_compute; reflexivity).
    destruct (Hrecorded update0 (toParam (request update0)) quote)
      as (u' & sp' & quote' & h & Hu' & _ & Hsp' & Hq' & Hslot & Hrec).
    { apply list_elem_of_singleton. reflexivity. }
    { eexists. reflexivity. }
    { reflexivity. }
    { exact Hq. }
    apply list_elem_of_singleton in Hu'. subst u'.
    injection Hsp' as <-.
    exists h, quote'. split; [exact Hq'|]. split; [exact Hslot|]. exact Hrec.
  - destruct Hrun
      as (percents & amounts & iteration & quoteMap & cleaned & t' & Hgen
          & Hiter & Hfold & Hclean & _ & Hhops & _).
    { apply sample_inputs_ok. reflexivity. }
    { apply sample_batch_keeps_flag. }
    { vm_compute. reflexivity. }
    vm_compute in Hgen. injection Hgen as <- <-.
    vm_compute in Hiter. injection Hiter as <-.
    exists quoteMap, cleaned, t'.
    pose proof Hfold as Hmap. vm_compute in Hmap. injection Hmap as Hmap _.
    pose proof Hclean as Hc. rewrite <- Hmap in Hc. vm_compute in Hc.
    injection Hc as Hc.
    assert (exists h,
              (quoteMap !! 100 ≫= fun arr =>
                 array_get arr 1 ≫= fun e =>
                 array_get (q_calculatedHops e) 0) = Some h /\
              h_whirlpool h = "P2" /\ amountOut h = 990) as (h & Hh & Hw & Ha).
    { rewrite <- Hmap. eexists. split; [vm_compute; reflexivity|].
      split; reflexivity. }
    exists h. split; [exact Hfold|]. split; [exact Hclean|].
    split.
    { intros l f Hl Hf. rewrite <- Hc in Hl. vm_compute in Hl.
      injection Hl as <-. apply list_elem_of_singleton in Hf. subst f.
      reflexivity. }
    split; [exact Hh|]. split; [exact Hw|]. split; [exact Ha|].
    apply (Hhops 100 1%nat 0%nat h Hh).
Defined.

End RouterHops.
